(** * physicsRus: the rope joint and the world stepper

    A shallow embedding of [RopeJoint], [Space] (the world stepper of the
    2D rigid-body simulator) and [RendererCanvas], followed by the
    properties the specification states about them and by further
    properties of the code.

    Conventions of the embedding.
    - A JavaScript number is an IEEE-754 binary64 value: Rocq's primitive
      [float].  Arithmetic, comparisons, infinities and NaN are the
      hardware's, so [0 * (1 / 0)] is NaN here as it is in the program.
    - An object is identified with its [id]; a reference to a body or a
      joint is that id, resolved in the table that holds the object.  The
      bodies of a joint are resolved in [bodyHash]: the model follows the
      code for joints whose bodies are registered in the Space.
    - An object used as a hash ([bodyHash], [jointHash]) is a [gmap] keyed
      by id; [for (i in hash)] visits the keys in ascending order, as the
      host does for ids below 2^32 - 1.
    - Code of the repository that is not in its source files (the vector
      library, [Body], [Shape], [ContactSolver], the collision kernel, the
      other joint kinds) is either modelled from the specification, and
      marked so, or taken as a parameter in the classes [Host], [Opaque],
      [Extern], [Queries] and [Drawing].
    - The operands of [<<] and [|] are 32-bit integers: an integer of [Z]
      brought into the range from -2^31 to 2^31 - 1. *)

From Stdlib Require Import ZArith NArith Floats Bool List String Lia.
From stdpp Require Import base option list gmap sorting.

Set Warnings "-inexact-float".

(** ** JavaScript numbers *)

Module JS.

Local Open Scope float_scope.

(** [a > b] and [a >= b] on numbers. *)
Definition gt (a b : float) : bool := b <? a.
Definition ge (a b : float) : bool := b <=? a.

(** [Math.min]: NaN when an argument is NaN; [-0] is below [+0]. *)
Definition Math_min (a b : float) : float :=
  if is_nan a || is_nan b then nan
  else if a <? b then a
  else if b <? a then b
  else match classify a with NZero => a | _ => b end.

(** [Math.max]: NaN when an argument is NaN; [+0] is above [-0]. *)
Definition Math_max (a b : float) : float :=
  if is_nan a || is_nan b then nan
  else if a <? b then b
  else if b <? a then a
  else match classify a with PZero => a | _ => b end.

Definition Math_sqrt (a : float) : float := sqrt a.

(** Modelled from the spec: [Math.clamp], the repository's clamping
    helper ("clamping" among the math primitives), is not in the sources. *)
Definition Math_clamp (v lo hi : float) : float :=
  if v <? lo then lo else if gt v hi then hi else v.

(** A property that holds a number or was never assigned. *)
Definition value := option float.

Definition ToNumber (v : value) : float :=
  match v with Some n => n | None => nan end.

(** [v++] on a property: the new value of the property. *)
Definition incr (v : value) : value := Some (ToNumber v + 1).

(** [a == b] on two properties that hold numbers or [undefined]. *)
Definition loose_eq (a b : value) : bool :=
  match a, b with
  | Some n, Some m => n =? m
  | None, None => true
  | _, _ => false
  end.

(** Two numbers that are the same value, or differ only in the sign of a
    zero ([+0 == -0]). *)
Definition same_number (a b : float) : Prop := a = b \/ (a =? b) = true.

(** [ToInt32] on a whole number: the number wrapped to 32 bits, read in
    two's complement. *)
Definition ToInt32 (n : Z) : Z := ((n + 2 ^ 31) mod 2 ^ 32 - 2 ^ 31)%Z.

(** [a << k] on whole numbers: the shift count is taken modulo 32 and the
    result wrapped to 32 bits. *)
Definition shl (a k : Z) : Z := ToInt32 (Z.shiftl (ToInt32 a) (Z.land k 31)).

(** [a | b] on whole numbers. *)
Definition bor (a b : Z) : Z := Z.lor (ToInt32 a) (ToInt32 b).

(** [v || d] where [v] is a whole number or [undefined]: [d] when [v] is
    [undefined] or zero. *)
Definition or_else (v : option Z) (d : Z) : Z :=
  match v with
  | None => d
  | Some n => if Z.eqb n 0 then d else n
  end.

End JS.

(** ** The host *)

(** [Math.cos], [Math.sin] and [Math.pow] are the host's. *)
Class Host : Type := {
  Math_cos : float -> float;
  Math_sin : float -> float;
  Math_pow : float -> float -> float;
}.

(** ** Two-dimensional vectors *)

(** Modelled from the spec: the [vec2] library ("2D vectors, rotations,
    scalar cross" among the math primitives) is not in the sources.  Every
    definition of this module is the usual one for the operation the rope
    joint and the stepper call by that name. *)
Module vec2.

Local Open Scope float_scope.

(** Modelled from the spec: a vector, with its two coordinates. *)
Record t : Type := mk { x : float; y : float }.

(** Modelled from the spec: [vec2.zero], the shared zero vector. *)
Definition zero : t := mk 0 0.

(** Modelled from the spec: [vec2.add(a, b)]. *)
Definition add (a b : t) : t := mk (x a + x b) (y a + y b).

(** Modelled from the spec: [vec2.sub(a, b)]. *)
Definition sub (a b : t) : t := mk (x a - x b) (y a - y b).

(** Modelled from the spec: [vec2.scale(v, s)]. *)
Definition scale (v : t) (s : float) : t := mk (x v * s) (y v * s).

(** Modelled from the spec: [a.dot(b)]. *)
Definition dot (a b : t) : float := x a * x b + y a * y b.

(** Modelled from the spec: [vec2.cross(a, b)], the scalar cross product. *)
Definition cross (a b : t) : float := x a * y b - y a * x b.

(** Modelled from the spec: [v.lengthsq()]. *)
Definition lengthsq (v : t) : float := x v * x v + y v * y v.

(** Modelled from the spec: [v.length()]. *)
Definition length (v : t) : float := JS.Math_sqrt (x v * x v + y v * y v).

(** Modelled from the spec: [vec2.dist(a, b)]. *)
Definition dist (a b : t) : float := length (sub a b).

(** Modelled from the spec: [vec2.distsq(a, b)], the square of the
    distance. *)
Definition distsq (a b : t) : float := lengthsq (sub a b).

(** Modelled from the spec: [this.mad(v, s)], that is [this += v * s]; the
    value is the new value of [this]. *)
Definition mad (this v : t) (s : float) : t :=
  mk (x this + x v * s) (y this + y v * s).

(** Modelled from the spec: [vec2.rotate(v, angle)]. *)
Definition rotate {host : Host} (v : t) (angle : float) : t :=
  let c := Math_cos angle in
  let s := Math_sin angle in
  mk (x v * c - y v * s) (x v * s + y v * c).

End vec2.

Abbreviation vec2 := vec2.t.

(** ** Iterating a hash *)

(** The keys of a hash in the order [for (i in hash)] visits them:
    ascending.  That is the host's order for the ids below 2^32 - 1, the
    keys it treats as array indices and visits in ascending order whatever
    the order of insertion; the id counters start at 0 and go up by one.
    Larger ids, which the host visits after those and in the order of
    insertion, are outside the model. *)
Definition keys {A : Type} (m : gmap N A) : list N :=
  merge_sort N.le (elements (dom m)).

Definition set_keys (s : gset N) : list N :=
  merge_sort N.le (elements s).

(** The objects of a hash in that order. *)
Definition values {A : Type} (m : gmap N A) : list A :=
  omap (fun i => m !! i) (keys m).

(** [for (i in get s) body]: the keys are those the hash has when the loop
    starts; a key deleted before its turn is skipped, and the value is the
    object as it is when its turn comes. *)
Definition for_in {A S : Type} (get : S -> gmap N A)
    (body : N -> A -> S -> S) (s : S) : S :=
  foldl (fun s i => match get s !! i with
                    | Some a => body i a s
                    | None => s
                    end) s (keys (get s)).

(** A loop over a list whose body may [return]: [inl r] is the value
    returned from inside the loop, [inr s] the loop variables when the loop
    runs to its end. *)
Fixpoint loop_until {A S R : Type} (body : A -> S -> R + S) (l : list A) (s : S)
    : R + S :=
  match l with
  | [] => inr s
  | a :: l =>
      match body a s with
      | inl r => inl r
      | inr s => loop_until body l s
      end
  end.

(** ** Data the sources only pass around *)

Class Opaque : Type := {
  (** [Bounds], the axis-aligned box of a body. *)
  Bounds : Type;
  (** The geometry of a shape, local and cached world form. *)
  Geometry : Type;
  (** One contact point produced by the collision kernel. *)
  Contact : Type;
  (** The private state of a [ContactSolver]. *)
  SolverData : Type;
  (** The private state of the joint kinds other than the rope. *)
  JointData : Type;
  (** The fields of a serialized joint that only other joint kinds use. *)
  JointExtra : Type;
  Bounds_empty : Bounds;
  SolverData_new : SolverData;
  JointData_new : JointData;
}.

(** ** Shapes *)

(** Modelled from the spec: [Shape] is not in the sources.  The record has
    the fields the stepper and the scene loader read and write. *)
Module Shape.

(** Modelled from the spec: "type in {circle, segment, polygon}". *)
Inductive type_t : Type := TYPE_CIRCLE | TYPE_SEGMENT | TYPE_POLY.

(** Modelled from the spec: the number behind a shape type, as
    [shape1.type > shape2.type] compares it; circle, segment, polygon in
    this order. *)
Definition type_code (k : type_t) : N :=
  match k with TYPE_CIRCLE => 0 | TYPE_SEGMENT => 1 | TYPE_POLY => 2 end.

(** Modelled from the spec: "identity, type, material (restitution e,
    friction u, density), geometry". *)
Record t {opaque : Opaque} : Type := mk {
  id : N;
  type : type_t;
  e : float;
  u : float;
  density : float;
  geometry : Geometry;
}.

(** Modelled from the spec: the constructors [ShapeCircle], [ShapeSegment]
    and [ShapePoly] are not in the sources; the new shape takes the next
    shape id and the geometry given. *)
Definition new {opaque : Opaque} (id : N) (k : type_t) (g : Geometry) : t :=
  mk _ id k 0%float 0%float 0%float g.

(** The three assignments [shape.e = ...], [shape.u = ...],
    [shape.density = ...]. *)
Definition set_material {opaque : Opaque} (s : t) (e u density : float) : t :=
  mk _ (id s) (type s) e u density (geometry s).

End Shape.

Abbreviation Shape := Shape.t.

(** ** Bodies *)

(** Modelled from the spec: [Body] is not in the sources.  The record has
    the fields the rope joint and the stepper read and write; the methods
    below are those the specification describes (section 4.1). *)
Module Body.

Local Open Scope float_scope.

(** Modelled from the spec: "kind in {static, dynamic, kinematic}"; the
    sources name [Body.STATIC] and [Body.DYNAMIC]. *)
Inductive type_t : Type := STATIC | KINETIC | DYNAMIC.

(** Modelled from the spec: identity, kind, pose ([p], [a]), velocities
    ([v], [w]), force and torque ([f], [t_]), inverse mass and inertia,
    centroid, sleep state ([awaked], [sleepTime]), the last step that
    touched the body ([stepCount]), bounds, shapes, and the set of attached
    joints, by id. *)
Record t {opaque : Opaque} : Type := mk {
  id : N;
  type : type_t;
  p : vec2;
  a : float;
  v : vec2;
  w : float;
  f : vec2;
  t_ : float;
  m_inv : float;
  i_inv : float;
  centroid : vec2;
  awaked : bool;
  sleepTime : float;
  stepCount : JS.value;
  bounds : Bounds;
  shapeArr : list Shape;
  jointHash : gset N;
}.

Section methods.
Context {opaque : Opaque}.

Definition set_p (b : t) (p' : vec2) : t :=
  mk _ (id b) (type b) p' (a b) (v b) (w b) (f b) (t_ b) (m_inv b) (i_inv b)
     (centroid b) (awaked b) (sleepTime b) (stepCount b) (bounds b)
     (shapeArr b) (jointHash b).

Definition set_a (b : t) (a' : float) : t :=
  mk _ (id b) (type b) (p b) a' (v b) (w b) (f b) (t_ b) (m_inv b) (i_inv b)
     (centroid b) (awaked b) (sleepTime b) (stepCount b) (bounds b)
     (shapeArr b) (jointHash b).

Definition set_v (b : t) (v' : vec2) : t :=
  mk _ (id b) (type b) (p b) (a b) v' (w b) (f b) (t_ b) (m_inv b) (i_inv b)
     (centroid b) (awaked b) (sleepTime b) (stepCount b) (bounds b)
     (shapeArr b) (jointHash b).

Definition set_w (b : t) (w' : float) : t :=
  mk _ (id b) (type b) (p b) (a b) (v b) w' (f b) (t_ b) (m_inv b) (i_inv b)
     (centroid b) (awaked b) (sleepTime b) (stepCount b) (bounds b)
     (shapeArr b) (jointHash b).

Definition set_awaked (b : t) (flag : bool) : t :=
  mk _ (id b) (type b) (p b) (a b) (v b) (w b) (f b) (t_ b) (m_inv b) (i_inv b)
     (centroid b) flag (sleepTime b) (stepCount b) (bounds b)
     (shapeArr b) (jointHash b).

Definition set_sleepTime (b : t) (s : float) : t :=
  mk _ (id b) (type b) (p b) (a b) (v b) (w b) (f b) (t_ b) (m_inv b) (i_inv b)
     (centroid b) (awaked b) s (stepCount b) (bounds b)
     (shapeArr b) (jointHash b).

Definition set_stepCount (b : t) (c : JS.value) : t :=
  mk _ (id b) (type b) (p b) (a b) (v b) (w b) (f b) (t_ b) (m_inv b) (i_inv b)
     (centroid b) (awaked b) (sleepTime b) c (bounds b)
     (shapeArr b) (jointHash b).

Definition set_shapeArr (b : t) (l : list Shape) : t :=
  mk _ (id b) (type b) (p b) (a b) (v b) (w b) (f b) (t_ b) (m_inv b) (i_inv b)
     (centroid b) (awaked b) (sleepTime b) (stepCount b) (bounds b)
     l (jointHash b).

Definition set_jointHash (b : t) (js : gset N) : t :=
  mk _ (id b) (type b) (p b) (a b) (v b) (w b) (f b) (t_ b) (m_inv b) (i_inv b)
     (centroid b) (awaked b) (sleepTime b) (stepCount b) (bounds b)
     (shapeArr b) js.

(** Modelled from the spec: [new Body(type, x, y, angle)]; the body takes
    the next body id, is awake, and has no shape and no joint. *)
Definition new (id : N) (k : type_t) (x y angle : float) : t :=
  mk _ id k (vec2.mk x y) angle vec2.zero 0 vec2.zero 0 0 0 vec2.zero
     true 0 (Some 0) Bounds_empty [] ∅.

(** Modelled from the spec: [isStatic()]. *)
Definition isStatic (b : t) : bool :=
  match type b with STATIC => true | _ => false end.

(** Modelled from the spec: [isDynamic()]. *)
Definition isDynamic (b : t) : bool :=
  match type b with DYNAMIC => true | _ => false end.

(** Modelled from the spec: [isAwake()]. *)
Definition isAwake (b : t) : bool := awaked b.

(** Modelled from the spec: [awake(flag)] "flips sleep and resets
    sleepTime when waking". *)
Definition awake (flag : bool) (b : t) : t :=
  if flag then set_sleepTime (set_awaked b true) 0 else set_awaked b false.

(** Modelled from the spec: [addShape(shape)] appends to the "ordered list
    of shapes". *)
Definition addShape (s : Shape) (b : t) : t :=
  set_shapeArr b (shapeArr b ++ [s]).

(** Modelled from the spec: [updateVelocity(gravity, damping, dt)] applies
    "v <- damping (v + dt (gravity + f/m))" and
    "w <- damping (w + dt t/i)", with the inverse mass and inertia. *)
Definition updateVelocity (gravity : vec2) (damping dt : float) (b : t) : t :=
  let ax := vec2.x gravity + vec2.x (f b) * m_inv b in
  let ay := vec2.y gravity + vec2.y (f b) * m_inv b in
  let v' := vec2.mk (damping * (vec2.x (v b) + dt * ax))
                    (damping * (vec2.y (v b) + dt * ay)) in
  let w' := damping * (w b + dt * (t_ b * i_inv b)) in
  set_w (set_v b v') w'.

(** Modelled from the spec: [updatePosition(dt)] applies "p <- p + dt v",
    "a <- a + dt w". *)
Definition updatePosition (dt : float) (b : t) : t :=
  set_a (set_p b (vec2.mad (p b) (v b) dt)) (a b + dt * w b).

End methods.

End Body.

Abbreviation Body := Body.t.

(** ** Joints *)

Module Joint.

(** Modelled from the spec: the limit states of a joint
    ([Joint.LIMIT_STATE_...]), "inactive, atLower, atUpper, equal". *)
Inductive limit_state : Type :=
  | LIMIT_STATE_INACTIVE
  | LIMIT_STATE_AT_LOWER
  | LIMIT_STATE_AT_UPPER
  | LIMIT_STATE_EQUAL_LIMITS.

(** The prototype of a joint object: the concrete joint kind. *)
Inductive proto_t : Type :=
  | AngleJoint | RevoluteJoint | WeldJoint | DistanceJoint | LineJoint
  | PrismaticJoint | RopeJoint.

(** The fields of the [Joint] base the sources use (identity, the two
    bodies, [collideConnected], [maxForce], [breakable]) followed by those
    [RopeJoint] adds; [data] stands for what the other kinds add. *)
Record t {opaque : Opaque} : Type := mk {
  id : N;
  proto : proto_t;
  body1 : N;
  body2 : N;
  collideConnected : bool;
  maxForce : float;
  breakable : bool;
  anchor1 : vec2;
  anchor2 : vec2;
  maxDistance : float;
  lambda_acc : float;
  maxImpulse : float;
  r1 : vec2;
  r2 : vec2;
  distance : float;
  cdt : float;
  limitState : limit_state;
  u : vec2;
  s1 : float;
  s2 : float;
  em : float;
  data : JointData;
}.

(** The assignment [this.lambda_acc = ...]. *)
Definition set_lambda_acc {opaque : Opaque} (j : t) (l : float) : t :=
  mk _ (id j) (proto j) (body1 j) (body2 j) (collideConnected j) (maxForce j)
     (breakable j) (anchor1 j) (anchor2 j) (maxDistance j) l (maxImpulse j)
     (r1 j) (r2 j) (distance j) (cdt j) (limitState j) (u j) (s1 j) (s2 j)
     (em j) (data j).

(** The assignments [this.anchor1 = ...; this.maxDistance = ...]. *)
Definition set_anchor1 {opaque : Opaque} (j : t) (a1 : vec2) (d : float) : t :=
  mk _ (id j) (proto j) (body1 j) (body2 j) (collideConnected j) (maxForce j)
     (breakable j) a1 (anchor2 j) d (lambda_acc j) (maxImpulse j)
     (r1 j) (r2 j) (distance j) (cdt j) (limitState j) (u j) (s1 j) (s2 j)
     (em j) (data j).

(** The assignments [this.anchor2 = ...; this.maxDistance = ...]. *)
Definition set_anchor2 {opaque : Opaque} (j : t) (a2 : vec2) (d : float) : t :=
  mk _ (id j) (proto j) (body1 j) (body2 j) (collideConnected j) (maxForce j)
     (breakable j) (anchor1 j) a2 d (lambda_acc j) (maxImpulse j)
     (r1 j) (r2 j) (distance j) (cdt j) (limitState j) (u j) (s1 j) (s2 j)
     (em j) (data j).

(** The three assignments [joint.collideConnected = ...],
    [joint.maxForce = ...], [joint.breakable = ...]. *)
Definition set_flags {opaque : Opaque} (j : t) (cc : bool) (mf : float) (br : bool) : t :=
  mk _ (id j) (proto j) (body1 j) (body2 j) cc mf br
     (anchor1 j) (anchor2 j) (maxDistance j) (lambda_acc j) (maxImpulse j)
     (r1 j) (r2 j) (distance j) (cdt j) (limitState j) (u j) (s1 j) (s2 j)
     (em j) (data j).

End Joint.

Abbreviation Joint := Joint.t.

(** ** Contact solvers *)

Module ContactSolver.

(** [shape1] and [shape2] are references to shapes (their ids); [e], [u] and
    [contactArr] are the fields the stepper assigns. *)
Record t {opaque : Opaque} : Type := mk {
  shape1 : N;
  shape2 : N;
  contactArr : list Contact;
  e : float;
  u : float;
  data : SolverData;
}.

End ContactSolver.

Abbreviation ContactSolver := ContactSolver.t.

(** ** Scenes *)

(** The parsed form of a scene text: what [JSON.parse] hands to
    [Space.create] and what [Space.toJSON] returns. *)
Module Config.

Record shape {opaque : Opaque} : Type := mk_shape {
  shape_type : string;
  shape_geometry : Geometry;
  shape_e : float;
  shape_u : float;
  shape_density : float;
}.

Record body {opaque : Opaque} : Type := mk_body {
  body_type : string;
  body_position : vec2;
  body_angle : float;
  body_shapes : list shape;
}.

Record joint {opaque : Opaque} : Type := mk_joint {
  joint_type : string;
  joint_body1 : N;
  joint_body2 : N;
  joint_anchor : option vec2;
  joint_anchor1 : option vec2;
  joint_anchor2 : option vec2;
  joint_collideConnected : bool;
  joint_maxForce : float;
  joint_breakable : bool;
  joint_extra : option JointExtra;
}.

Record t {opaque : Opaque} : Type := mk {
  bodies : list body;
  joints : list joint;
}.

End Config.

Abbreviation Config := Config.t.

(** ** Code the sources call and do not contain *)

Abbreviation Store := (gmap N Body).

Class Extern {host : Host} {opaque : Opaque} : Type := {
  deg2rad : float -> float;
  Joint_LINEAR_SLOP : float;
  Joint_MAX_LINEAR_CORRECTION : float;
  Bounds_intersectsBounds : Bounds -> Bounds -> bool;
  (** [body1.isCollidable(body2)]; the joints are those of the Space. *)
  Body_isCollidable : gmap N Joint -> Body -> Body -> bool;
  Body_cacheData : Body -> Body;
  Body_syncTransform : Body -> Body;
  Body_resetMassData : Body -> Body;
  Body_getWorldPoint : Body -> vec2 -> vec2;
  Body_getLocalPoint : Body -> vec2 -> vec2;
  (** What the [Joint] base gives [maxForce] and [breakable] at first. *)
  Joint_maxForce : float;
  Joint_breakable : bool;
  Body_serialize : Body -> Config.body;
  (** [collision.collide(shape1, shape2, contactArr)]: the value returned,
      as a truth value, and the contacts pushed. *)
  collision_collide : Shape -> Shape -> bool * list Contact;
  ContactSolver_update : ContactSolver -> list Contact -> ContactSolver;
  ContactSolver_initSolver : float -> ContactSolver -> Store -> ContactSolver;
  ContactSolver_warmStart : ContactSolver -> Store -> Store;
  ContactSolver_solveVelocityConstraints :
    ContactSolver -> Store -> ContactSolver * Store;
  ContactSolver_solvePositionConstraints :
    ContactSolver -> Store -> bool * (ContactSolver * Store);
  (** The state a joint of another kind starts with: its constructor and the
      setters [create] calls after it. *)
  OtherJoint_data : Joint.proto_t -> Body -> Body -> Config.joint -> JointData;
  OtherJoint_initSolver : float -> bool -> Joint -> Store -> Joint * Store;
  OtherJoint_solveVelocityConstraints : Joint -> Store -> Joint * Store;
  OtherJoint_solvePositionConstraints : Joint -> Store -> bool * (Joint * Store);
  OtherJoint_getReactionForce : Joint -> float -> vec2;
  OtherJoint_serialize : Joint -> Store -> Config.joint;
  (** The hook [this.postSolve] of the Space. *)
  postSolve : ContactSolver -> Store -> Store;
}.

(** What resolving the id of a body that the table does not hold gives.  The
    code reads the body object the joint itself holds, registered or not;
    the properties that read a body through a joint assume it registered,
    or are stated with the accessor that does the reading. *)
Global Instance Body_inhabited {opaque : Opaque} : Inhabited Body :=
  populate (Body.new 0 Body.STATIC 0 0 0).

(** The methods the authoring queries of the Space call and the sources do
    not contain. *)
Class Queries {opaque : Opaque} : Type := {
  (** [shape.pointQuery(p)], as a truth value. *)
  Shape_pointQuery : Shape -> vec2 -> bool;
  (** [shape.findVertexByPoint(p, minDist)] and
      [shape.findEdgeByPoint(p, minDist)]: an index, a whole number, or -1. *)
  Shape_findVertexByPoint : Shape -> vec2 -> float -> Z;
  Shape_findEdgeByPoint : Shape -> vec2 -> float -> Z;
  (** [getWorldAnchor1()] and [getWorldAnchor2()] of the joint kinds other
      than the rope. *)
  OtherJoint_getWorldAnchor1 : Joint -> Store -> vec2;
  OtherJoint_getWorldAnchor2 : Joint -> Store -> vec2;
}.

(** ** The rope joint *)

(** A joint method runs on the joint and on the table of bodies its two
    references are resolved in.  [body.v.mad(...)] and [body.w -= ...] are
    writes to the object in the table, one after the other, so the model is
    also right when both references name the same body. *)
Module RopeJoint.

Section methods.
Context {host : Host} {opaque : Opaque} {extern : Extern}.
Local Open Scope float_scope.

(** [new RopeJoint(body1, body2, anchor1, anchor2)]; the joint takes the
    next joint id.  The fields [initSolver] assigns start at zero. *)
Definition new (id : N) (body1 body2 : Body) (anchor1 anchor2 : vec2) : Joint :=
  Joint.mk _ id Joint.RopeJoint (Body.id body1) (Body.id body2) true
    Joint_maxForce Joint_breakable
    (* Local anchor points *)
    (Body_getLocalPoint body1 anchor1) (Body_getLocalPoint body2 anchor2)
    (* Max distance *)
    (vec2.dist anchor1 anchor2)
    (* Accumulated impulse *)
    0
    0 vec2.zero vec2.zero 0 0 Joint.LIMIT_STATE_INACTIVE vec2.zero 0 0 0
    JointData_new.

(** Modelled from the spec: the "world-anchor accessors" of the [Joint]
    base, [getWorldAnchor1()] and [getWorldAnchor2()]. *)
Definition getWorldAnchor1 (this : Joint) (st : Store) : vec2 :=
  Body_getWorldPoint (st !!! Joint.body1 this) (Joint.anchor1 this).

Definition getWorldAnchor2 (this : Joint) (st : Store) : vec2 :=
  Body_getWorldPoint (st !!! Joint.body2 this) (Joint.anchor2 this).

Definition setWorldAnchor1 (anchor1 : vec2) (this : Joint) (st : Store) : Joint :=
  Joint.set_anchor1 this (Body_getLocalPoint (st !!! Joint.body1 this) anchor1)
                    (vec2.dist anchor1 (getWorldAnchor2 this st)).

Definition setWorldAnchor2 (anchor2 : vec2) (this : Joint) (st : Store) : Joint :=
  Joint.set_anchor2 this (Body_getLocalPoint (st !!! Joint.body2 this) anchor2)
                    (vec2.dist anchor2 (getWorldAnchor1 this st)).

Definition serialize (this : Joint) (st : Store) : Config.joint :=
  Config.mk_joint _ "RopeJoint"
    (Body.id (st !!! Joint.body1 this))
    (Body.id (st !!! Joint.body2 this))
    None
    (Some (getWorldAnchor1 this st))
    (Some (getWorldAnchor2 this st))
    (Joint.collideConnected this)
    (Joint.maxForce this)
    (Joint.breakable this)
    None.

(** [body.v.mad(j, s)] with the scalar read from the body, and
    [body.w += d] with the increment computed from the body. *)
Definition v_mad (j : vec2) (s : Body -> float) (b : Body) : Body :=
  Body.set_v b (vec2.mad (Body.v b) j (s b)).

Definition p_mad (j : vec2) (s : Body -> float) (b : Body) : Body :=
  Body.set_p b (vec2.mad (Body.p b) j (s b)).

Definition initSolver (dt : float) (warmStarting : bool)
    (this : Joint) (st : Store) : Joint * Store :=
  let body1 := st !!! Joint.body1 this in
  let body2 := st !!! Joint.body2 this in
  (* Max impulse *)
  let maxImpulse := Joint.maxForce this * dt in
  (* Transformed r1, r2 *)
  let r1 := vec2.rotate (vec2.sub (Joint.anchor1 this) (Body.centroid body1))
                        (Body.a body1) in
  let r2 := vec2.rotate (vec2.sub (Joint.anchor2 this) (Body.centroid body2))
                        (Body.a body2) in
  (* Delta vector between two world anchors *)
  let d := vec2.sub (vec2.add (Body.p body2) r2) (vec2.add (Body.p body1) r1) in
  (* Distance between two anchors *)
  let distance := vec2.length d in
  let c := distance - Joint.maxDistance this in
  let cdt := if JS.gt c 0 then 0 else c / dt in
  let limitState := if JS.gt c 0 then Joint.LIMIT_STATE_AT_UPPER
                    else Joint.LIMIT_STATE_INACTIVE in
  (* Unit delta vector *)
  let u := if JS.gt distance Joint_LINEAR_SLOP
           then vec2.scale d (1 / distance) else vec2.zero in
  (* s1, s2 *)
  let s1 := vec2.cross r1 u in
  let s2 := vec2.cross r2 u in
  (* invEM = J * invM * JT *)
  let em_inv := Body.m_inv body1 + Body.m_inv body2
                + Body.i_inv body1 * s1 * s1 + Body.i_inv body2 * s2 * s2 in
  let em := if em_inv =? 0 then 0 else 1 / em_inv in
  let lambda_acc := Joint.lambda_acc this in
  let this' (l : float) : Joint :=
    Joint.mk _ (Joint.id this) (Joint.proto this) (Joint.body1 this)
      (Joint.body2 this) (Joint.collideConnected this) (Joint.maxForce this)
      (Joint.breakable this) (Joint.anchor1 this) (Joint.anchor2 this)
      (Joint.maxDistance this) l maxImpulse r1 r2 distance cdt limitState
      u s1 s2 em (Joint.data this) in
  if warmStarting then
    (* Apply cached constraint impulses: V += JT * lambda * invM *)
    let j := vec2.scale u lambda_acc in
    let st := alter (v_mad j (fun b => - Body.m_inv b)) (Joint.body1 this) st in
    let st := alter (fun b => Body.set_w b
                (Body.w b - s1 * lambda_acc * Body.i_inv b))
                (Joint.body1 this) st in
    let st := alter (v_mad j (fun b => Body.m_inv b)) (Joint.body2 this) st in
    let st := alter (fun b => Body.set_w b
                (Body.w b + s2 * lambda_acc * Body.i_inv b))
                (Joint.body2 this) st in
    (this' lambda_acc, st)
  else
    (this' 0, st).

Definition solveVelocityConstraints (this : Joint) (st : Store)
    : Joint * Store :=
  let body1 := st !!! Joint.body1 this in
  let body2 := st !!! Joint.body2 this in
  (* Compute lambda for velocity constraint *)
  let cdot := vec2.dot (Joint.u this) (vec2.sub (Body.v body2) (Body.v body1))
              + Joint.s2 this * Body.w body2 - Joint.s1 this * Body.w body1 in
  let lambda := - Joint.em this * (cdot + Joint.cdt this) in
  (* Accumulate lambda and clamp it to zero *)
  let lambda_old := Joint.lambda_acc this in
  let this := Joint.set_lambda_acc this (JS.Math_min (lambda_old + lambda) 0) in
  let lambda := Joint.lambda_acc this - lambda_old in
  (* Apply constraint impulses: V += JT * lambda * invM *)
  let j := vec2.scale (Joint.u this) lambda in
  let st := alter (v_mad j (fun b => - Body.m_inv b)) (Joint.body1 this) st in
  let st := alter (fun b => Body.set_w b
              (Body.w b - Joint.s1 this * lambda * Body.i_inv b))
              (Joint.body1 this) st in
  let st := alter (v_mad j (fun b => Body.m_inv b)) (Joint.body2 this) st in
  let st := alter (fun b => Body.set_w b
              (Body.w b + Joint.s2 this * lambda * Body.i_inv b))
              (Joint.body2 this) st in
  (this, st).

Definition solvePositionConstraints (this : Joint) (st : Store)
    : bool * (Joint * Store) :=
  let body1 := st !!! Joint.body1 this in
  let body2 := st !!! Joint.body2 this in
  (* Transformed r1, r2 *)
  let r1 := vec2.rotate (vec2.sub (Joint.anchor1 this) (Body.centroid body1))
                        (Body.a body1) in
  let r2 := vec2.rotate (vec2.sub (Joint.anchor2 this) (Body.centroid body2))
                        (Body.a body2) in
  (* Delta vector between two anchors *)
  let d := vec2.sub (vec2.add (Body.p body2) r2) (vec2.add (Body.p body1) r1) in
  (* Distance between two anchors *)
  let dist := vec2.length d in
  (* Unit delta vector *)
  let u := vec2.scale d (1 / dist) in
  (* Position constraint *)
  let c := dist - Joint.maxDistance this in
  let correction := JS.Math_clamp c 0 Joint_MAX_LINEAR_CORRECTION in
  (* Compute lambda for correction *)
  let s1 := vec2.cross r1 u in
  let s2 := vec2.cross r2 u in
  let em_inv := Body.m_inv body1 + Body.m_inv body2
                + Body.i_inv body1 * s1 * s1 + Body.i_inv body2 * s2 * s2 in
  let lambda := if em_inv =? 0 then 0 else - correction / em_inv in
  (* Apply constraint impulses: X += JT * lambda * invM * dt *)
  let j := vec2.scale u lambda in
  let st := alter (p_mad j (fun b => - Body.m_inv b)) (Joint.body1 this) st in
  let st := alter (fun b => Body.set_a b
              (Body.a b - s1 * lambda * Body.i_inv b))
              (Joint.body1 this) st in
  let st := alter (p_mad j (fun b => Body.m_inv b)) (Joint.body2 this) st in
  let st := alter (fun b => Body.set_a b
              (Body.a b + s2 * lambda * Body.i_inv b))
              (Joint.body2 this) st in
  (c <? Joint_LINEAR_SLOP, (this, st)).

Definition getReactionForce (this : Joint) (dt_inv : float) : vec2 :=
  vec2.scale (Joint.u this) (Joint.lambda_acc this * dt_inv).

Definition getReactionTorque (this : Joint) (dt_inv : float) : float := 0.

End methods.

End RopeJoint.

(** ** Calling a joint method *)

(** [joint.initSolver(...)] and the like run the method of the joint's
    prototype: the rope joint's when the joint is one, the absent kind's
    otherwise. *)
Module Dispatch.

Section methods.
Context {host : Host} {opaque : Opaque} {extern : Extern}.

Definition initSolver (dt : float) (warmStarting : bool)
    (joint : Joint) (st : Store) : Joint * Store :=
  match Joint.proto joint with
  | Joint.RopeJoint => RopeJoint.initSolver dt warmStarting joint st
  | _ => OtherJoint_initSolver dt warmStarting joint st
  end.

Definition solveVelocityConstraints (joint : Joint) (st : Store)
    : Joint * Store :=
  match Joint.proto joint with
  | Joint.RopeJoint => RopeJoint.solveVelocityConstraints joint st
  | _ => OtherJoint_solveVelocityConstraints joint st
  end.

Definition solvePositionConstraints (joint : Joint) (st : Store)
    : bool * (Joint * Store) :=
  match Joint.proto joint with
  | Joint.RopeJoint => RopeJoint.solvePositionConstraints joint st
  | _ => OtherJoint_solvePositionConstraints joint st
  end.

Definition getReactionForce (joint : Joint) (dt_inv : float) : vec2 :=
  match Joint.proto joint with
  | Joint.RopeJoint => RopeJoint.getReactionForce joint dt_inv
  | _ => OtherJoint_getReactionForce joint dt_inv
  end.

Definition serialize (joint : Joint) (st : Store) : Config.joint :=
  match Joint.proto joint with
  | Joint.RopeJoint => RopeJoint.serialize joint st
  | _ => OtherJoint_serialize joint st
  end.

End methods.

End Dispatch.

(** ** Process-wide state *)

(** The id counters [Shape.id_counter], [Body.id_counter] and
    [Joint.id_counter], and the field of the global [stats] object the
    specification names.  The timings [stats] also holds are readings of
    the wall clock and are left out. *)
Module Globals.

Record t : Type := mk {
  Shape_id_counter : N;
  Body_id_counter : N;
  Joint_id_counter : N;
  stats_positionIterations : Z;
}.

Definition set_positionIterations (g : t) (n : Z) : t :=
  mk (Shape_id_counter g) (Body_id_counter g) (Joint_id_counter g) n.

Definition reset_counters (g : t) : t :=
  mk 0 0 0 (stats_positionIterations g).

End Globals.

Abbreviation Globals := Globals.t.

(** ** The Space *)

Module Space.

(** The fields [function Space()] and [clear] assign.  The hook [postSolve]
    is a parameter ([Extern]). *)
Record t {opaque : Opaque} : Type := mk {
  bodyHash : gmap N Body;
  numBodies : Z;
  jointHash : gmap N Joint;
  numJoints : Z;
  contactSolverArr : list ContactSolver;
  numContacts : Z;
  gravity : vec2;
  damping : float;
  stepCount : JS.value;
}.

Section fields.
Context {opaque : Opaque}.

Definition set_bodyHash (s : t) (m : gmap N Body) : t :=
  mk _ m (numBodies s) (jointHash s) (numJoints s) (contactSolverArr s)
     (numContacts s) (gravity s) (damping s) (stepCount s).

Definition set_numBodies (s : t) (n : Z) : t :=
  mk _ (bodyHash s) n (jointHash s) (numJoints s) (contactSolverArr s)
     (numContacts s) (gravity s) (damping s) (stepCount s).

Definition set_jointHash (s : t) (m : gmap N Joint) : t :=
  mk _ (bodyHash s) (numBodies s) m (numJoints s) (contactSolverArr s)
     (numContacts s) (gravity s) (damping s) (stepCount s).

Definition set_numJoints (s : t) (n : Z) : t :=
  mk _ (bodyHash s) (numBodies s) (jointHash s) n (contactSolverArr s)
     (numContacts s) (gravity s) (damping s) (stepCount s).

Definition set_contactSolverArr (s : t) (l : list ContactSolver) : t :=
  mk _ (bodyHash s) (numBodies s) (jointHash s) (numJoints s) l
     (numContacts s) (gravity s) (damping s) (stepCount s).

Definition set_numContacts (s : t) (n : Z) : t :=
  mk _ (bodyHash s) (numBodies s) (jointHash s) (numJoints s)
     (contactSolverArr s) n (gravity s) (damping s) (stepCount s).

Definition set_stepCount (s : t) (c : JS.value) : t :=
  mk _ (bodyHash s) (numBodies s) (jointHash s) (numJoints s)
     (contactSolverArr s) (numContacts s) (gravity s) (damping s) c.

(** [new Space()].  The constructor assigns no [stepCount]. *)
Definition new : t :=
  mk _ ∅ 0 ∅ 0 [] 0 (vec2.mk 0 0) 1%float None.

End fields.

Definition TIME_TO_SLEEP : float := 0.5%float.
Definition SLEEP_LINEAR_TOLERANCE : float := 0.5%float.
Definition SLEEP_ANGULAR_TOLERANCE
    {host : Host} {opaque : Opaque} {extern : Extern} : float :=
  deg2rad 2%float.

Section methods.
Context {host : Host} {opaque : Opaque} {extern : Extern}.
Local Open Scope float_scope.

(** A write to a body through a reference.  A body that the Space does not
    register is an object outside the Space: the write leaves the Space as
    it is. *)
Definition on_body (ref : N) (f : Body -> Body) (this : t) : t :=
  set_bodyHash this (alter f ref (bodyHash this)).

(** The back reference [body.space] is not modelled. *)
Definition addBody (body : Body) (this : t) : t :=
  match bodyHash this !! Body.id body with
  | Some _ => this
  | None =>
      let this := set_bodyHash this (<[Body.id body := body]> (bodyHash this)) in
      let this := set_numBodies this (numBodies this + 1) in
      let this := on_body (Body.id body) (Body.awake true) this in
      on_body (Body.id body) Body_cacheData this
  end.

Definition addJoint (joint : Joint) (this : t) : t :=
  match jointHash this !! Joint.id joint with
  | Some _ => this
  | None =>
      let this := on_body (Joint.body1 joint) (Body.awake true) this in
      let this := on_body (Joint.body2 joint) (Body.awake true) this in
      let this :=
        set_jointHash this (<[Joint.id joint := joint]> (jointHash this)) in
      let this := set_numJoints this (numJoints this + 1) in
      let this := on_body (Joint.body1 joint) (fun b =>
        Body.set_jointHash b ({[Joint.id joint]} ∪ Body.jointHash b)) this in
      on_body (Joint.body2 joint) (fun b =>
        Body.set_jointHash b ({[Joint.id joint]} ∪ Body.jointHash b)) this
  end.

Definition removeJoint (joint : Joint) (this : t) : t :=
  match jointHash this !! Joint.id joint with
  | None => this
  | Some _ =>
      let this := on_body (Joint.body1 joint) (Body.awake true) this in
      let this := on_body (Joint.body2 joint) (Body.awake true) this in
      let this := on_body (Joint.body1 joint) (fun b =>
        Body.set_jointHash b (Body.jointHash b ∖ {[Joint.id joint]})) this in
      let this := on_body (Joint.body2 joint) (fun b =>
        Body.set_jointHash b (Body.jointHash b ∖ {[Joint.id joint]})) this in
      let this := set_jointHash this (delete (Joint.id joint) (jointHash this)) in
      set_numJoints this (numJoints this - 1)
  end.

(** [for (var i in body.jointHash) this.removeJoint(body.jointHash[i])]: a
    joint of the body that the Space does not register is one [removeJoint]
    returns on at once. *)
Definition removeLinkedJoints (ref : N) (this : t) : t :=
  foldl (fun this i =>
           match bodyHash this !! ref with
           | Some body =>
               if decide (i ∈ Body.jointHash body) then
                 match jointHash this !! i with
                 | Some joint => removeJoint joint this
                 | None => this
                 end
               else this
           | None => this
           end)
        this
        (set_keys (Body.jointHash (bodyHash this !!! ref))).

(** The body whose joints are removed is the one registered under
    [body.id]. *)
Definition removeBody (body : Body) (this : t) : t :=
  match bodyHash this !! Body.id body with
  | None => this
  | Some _ =>
      (* Remove linked joint *)
      let this := removeLinkedJoints (Body.id body) this in
      let this := set_bodyHash this (delete (Body.id body) (bodyHash this)) in
      set_numBodies this (numBodies this - 1)
  end.

Definition clear (g : Globals) (this : t) : Globals * t :=
  let g := Globals.reset_counters g in
  let this := for_in bodyHash (fun _ body this => removeBody body this) this in
  let this := set_contactSolverArr this [] in
  let this := set_stepCount this (Some 0) in
  (g, this).

Definition toJSON (this : t) : Config :=
  let bodies := map Body_serialize (values (bodyHash this)) in
  let joints := map (fun joint => Dispatch.serialize joint (bodyHash this))
                    (values (jointHash this)) in
  Config.mk _ bodies joints.

(** The first solver of [contactSolverArr] for the two shapes, with its
    index, or [None] for [null]. *)
Fixpoint findContactSolver_from (k : nat) (arr : list ContactSolver)
    (shape1 shape2 : Shape) : option (nat * ContactSolver) :=
  match arr with
  | [] => None
  | contactSolver :: arr =>
      if N.eqb (Shape.id shape1) (ContactSolver.shape1 contactSolver)
         && N.eqb (Shape.id shape2) (ContactSolver.shape2 contactSolver)
      then Some (k, contactSolver)
      else findContactSolver_from (S k) arr shape1 shape2
  end.

Definition findContactSolver (this : t) (shape1 shape2 : Shape)
    : option (nat * ContactSolver) :=
  findContactSolver_from 0 (contactSolverArr this) shape1 shape2.

(** *** The broad phase *)

(** The loop state of [genTemporalContactSolvers]: the Space (the bodies it
    wakes and stamps, [numContacts], the solvers of the previous step it
    updates in place), [newContactSolverArr], and a ghost trace that is not
    part of the program: the pairs of bodies, in order, for which the loop
    body got past the step-count test.  An entry of [newContactSolverArr] is
    a reference to a solver of the previous step, by index into
    [contactSolverArr], or a solver made in this step. *)
Record gen_state : Type := mk_gen {
  gen_space : t;
  gen_new : list (nat + ContactSolver);
  gen_examined : list (N * N);
}.

Definition gen_set_space (g : gen_state) (this : t) : gen_state :=
  mk_gen this (gen_new g) (gen_examined g).

Definition gen_push (g : gen_state) (c : nat + ContactSolver) : gen_state :=
  mk_gen (gen_space g) (gen_new g ++ [c]) (gen_examined g).

Definition gen_log (g : gen_state) (pr : N * N) : gen_state :=
  mk_gen (gen_space g) (gen_new g) (gen_examined g ++ [pr]).

(** The body of the two loops over the shapes. *)
Definition collideShapes (body1_index body2_index : N)
    (shape1 shape2 : Shape) (g : gen_state) : gen_state :=
  let '(hit, contactArr) := collision_collide shape1 shape2 in
  if negb hit then g else
  let this := gen_space g in
  let this :=
    set_numContacts this (numContacts this + Z.of_nat (length contactArr)) in
  let '(shape1, shape2) :=
    if N.ltb (Shape.type_code (Shape.type shape2))
             (Shape.type_code (Shape.type shape1))
    then (shape2, shape1) else (shape1, shape2) in
  match findContactSolver this shape1 shape2 with
  | Some (k, contactSolver) =>
      let contactSolver := ContactSolver_update contactSolver contactArr in
      let this :=
        set_contactSolverArr this (<[k := contactSolver]> (contactSolverArr this)) in
      gen_push (gen_set_space g this) (inl k)
  | None =>
      let this := on_body body1_index (Body.awake true) this in
      let this := on_body body2_index (Body.awake true) this in
      let newContactSolver :=
        ContactSolver.mk _ (Shape.id shape1) (Shape.id shape2) contactArr
          (JS.Math_max (Shape.e shape1) (Shape.e shape2))
          (JS.Math_sqrt (Shape.u shape1 * Shape.u shape2))
          SolverData_new in
      gen_push (gen_set_space g this) (inr newContactSolver)
  end.

(** The body of the inner loop over the bodies. *)
Definition collideBodies (body1_index body2_index : N) (g : gen_state)
    : gen_state :=
  let this := gen_space g in
  let body1 := bodyHash this !!! body1_index in
  let body2 := bodyHash this !!! body2_index in
  if JS.loose_eq (Body.stepCount body1) (Body.stepCount body2) then g else
  let g := gen_log g (body1_index, body2_index) in
  let active1 := Body.isAwake body1 && negb (Body.isStatic body1) in
  let active2 := Body.isAwake body2 && negb (Body.isStatic body2) in
  if negb active1 && negb active2 then g else
  if negb (Body_isCollidable (jointHash this) body1 body2) then g else
  if negb (Bounds_intersectsBounds (Body.bounds body1) (Body.bounds body2))
  then g else
  foldl (fun g shape1 =>
           foldl (fun g shape2 =>
                    collideShapes body1_index body2_index shape1 shape2 g)
                 g (Body.shapeArr body2))
        g (Body.shapeArr body1).

(** The body of the outer loop over the bodies. *)
Definition stampAndCollide (body1_index : N) (g : gen_state) : gen_state :=
  let this := gen_space g in
  let g := gen_set_space g
    (on_body body1_index (fun b => Body.set_stepCount b (stepCount this)) this) in
  for_in (fun g => bodyHash (gen_space g))
         (fun body2_index _ g => collideBodies body1_index body2_index g) g.

Definition genTemporalContactSolvers_run (this : t) : gen_state :=
  let this := set_numContacts this 0 in
  for_in (fun g => bodyHash (gen_space g))
         (fun body1_index _ g => stampAndCollide body1_index g)
         (mk_gen this [] []).

(** [newContactSolverArr] with its references resolved. *)
Definition gen_result (g : gen_state) : list ContactSolver :=
  omap (fun c => match c with
                 | inl k => contactSolverArr (gen_space g) !! k
                 | inr contactSolver => Some contactSolver
                 end) (gen_new g).

(** The array returned, and the Space the call leaves. *)
Definition genTemporalContactSolvers (this : t) : list ContactSolver * t :=
  let g := genTemporalContactSolvers_run this in
  (gen_result g, gen_space g).

(** *** The solvers *)

(** A loop over the bodies that rewrites each body in place. *)
Definition each_body (f : Body -> Body) (this : t) : t :=
  for_in bodyHash
         (fun i body this => set_bodyHash this (<[i := f body]> (bodyHash this)))
         this.

(** A loop over the joints that runs a method on each joint. *)
Definition each_joint (method : Joint -> Store -> Joint * Store) (this : t) : t :=
  for_in jointHash
         (fun i joint this =>
            let '(joint, st) := method joint (bodyHash this) in
            set_bodyHash (set_jointHash this (<[i := joint]> (jointHash this))) st)
         this.

(** A loop over [contactSolverArr] that runs a method on each solver. *)
Fixpoint each_contact (method : ContactSolver -> Store -> ContactSolver * Store)
    (arr : list ContactSolver) (st : Store) : list ContactSolver * Store :=
  match arr with
  | [] => ([], st)
  | contactSolver :: arr =>
      let '(contactSolver, st) := method contactSolver st in
      let '(arr, st) := each_contact method arr st in
      (contactSolver :: arr, st)
  end.

Definition initSolver (dt dt_inv : float) (warmStarting : bool) (this : t) : t :=
  (* Initialize contact solvers *)
  let this := set_contactSolverArr this
    (map (fun contactSolver =>
            ContactSolver_initSolver dt_inv contactSolver (bodyHash this))
         (contactSolverArr this)) in
  (* Initialize joint solver *)
  let this := each_joint (Dispatch.initSolver dt warmStarting) this in
  (* Warm starting (apply cached impulse) *)
  if warmStarting then
    foldl (fun this contactSolver =>
             set_bodyHash this (ContactSolver_warmStart contactSolver (bodyHash this)))
          this (contactSolverArr this)
  else this.

(** One round of the velocity solver: the joints, then the contacts. *)
Definition velocityRound (this : t) : t :=
  let this := each_joint Dispatch.solveVelocityConstraints this in
  let '(arr, st) := each_contact ContactSolver_solveVelocityConstraints
                                 (contactSolverArr this) (bodyHash this) in
  set_bodyHash (set_contactSolverArr this arr) st.

Definition velocitySolver (iteration : Z) (this : t) : t :=
  Nat.iter (Z.to_nat iteration) velocityRound this.

(** The loop of a position round over the contact solvers; [contactsOk] is
    the flag of the same name. *)
Fixpoint contactsPosition (arr : list ContactSolver) (st : Store)
    (contactsOk : bool) : bool * (list ContactSolver * Store) :=
  match arr with
  | [] => (contactsOk, ([], st))
  | contactSolver :: arr =>
      let '(contactOk, (contactSolver, st)) :=
        ContactSolver_solvePositionConstraints contactSolver st in
      let contactsOk := contactOk && contactsOk in
      let '(contactsOk, (arr, st)) := contactsPosition arr st contactsOk in
      (contactsOk, (contactSolver :: arr, st))
  end.

(** The loop of a position round over the joints; the flag is [jointsOk]. *)
Definition jointsPosition (this : t) (jointsOk : bool) : bool * t :=
  for_in (fun s : bool * t => jointHash s.2)
         (fun i joint s =>
            let '(jointsOk, this) := s in
            let '(jointOk, (joint, st)) :=
              Dispatch.solvePositionConstraints joint (bodyHash this) in
            (jointOk && jointsOk,
             set_bodyHash (set_jointHash this (<[i := joint]> (jointHash this))) st))
         (jointsOk, this).

(** One round of the position solver: the contacts, then the joints; the
    value is [contactsOk && jointsOk]. *)
Definition positionRound (this : t) : bool * t :=
  let '(contactsOk, (arr, st)) :=
    contactsPosition (contactSolverArr this) (bodyHash this) true in
  let this := set_bodyHash (set_contactSolverArr this arr) st in
  let '(jointsOk, this) := jointsPosition this true in
  (contactsOk && jointsOk, this).

(** The Space after [k] position rounds in a row. *)
Definition positionRounds (k : nat) (this : t) : t :=
  Nat.iter k (fun this => (positionRound this).2) this.

(** What the calls of [solvePositionConstraints] return in one loop over
    the contact solvers, in order; each call runs on the bodies as the call
    before left them. *)
Fixpoint contactReports (arr : list ContactSolver) (st : Store) : list bool :=
  match arr with
  | [] => []
  | contactSolver :: arr =>
      let '(contactOk, (_, st)) :=
        ContactSolver_solvePositionConstraints contactSolver st in
      contactOk :: contactReports arr st
  end.

(** The same for one loop over the joints. *)
Definition jointReports (this : t) : list bool :=
  (for_in (fun s : list bool * t => jointHash s.2)
          (fun i joint s =>
             let '(reports, this) := s in
             let '(jointOk, (joint, st)) :=
               Dispatch.solvePositionConstraints joint (bodyHash this) in
             (reports ++ [jointOk],
              set_bodyHash (set_jointHash this (<[i := joint]> (jointHash this))) st))
          ([], this)).1.

(** The [for] loop of [positionSolver] with [rounds] rounds left. *)
Fixpoint positionLoop (rounds : nat) (g : Globals) (this : t)
    : bool * (Globals * t) :=
  match rounds with
  | O => (false, (g, this))
  | S rounds =>
      let '(ok, this) := positionRound this in
      if ok then
        (* exit early if the position errors are small *)
        (true, (g, this))
      else
        let g := Globals.set_positionIterations g
                   (Globals.stats_positionIterations g + 1) in
        positionLoop rounds g this
  end.

(** [iteration] is a whole number of rounds. *)
Definition positionSolver (iteration : Z) (g : Globals) (this : t)
    : bool * (Globals * t) :=
  let g := Globals.set_positionIterations g 0 in
  positionLoop (Z.to_nat iteration) g this.

(** *** The step *)

(** The factor [step] hands to [updateVelocity]. *)
Definition dampingFactor (dt : float) (this : t) : float :=
  if damping this <? 1 then Math_pow (damping this) dt else 1.

(** "Intergrate velocity". *)
Definition integrateVelocity (dt : float) (this : t) : t :=
  let damping := dampingFactor dt this in
  each_body (fun body =>
               if Body.isDynamic body && Body.isAwake body
               then Body.updateVelocity (gravity this) damping dt body
               else body) this.

(** The loop that wakes the sleeping end of a joint with one active end. *)
Definition wakeAcrossJoints (this : t) : t :=
  for_in jointHash
         (fun _ joint this =>
            let body1 := bodyHash this !!! Joint.body1 joint in
            let body2 := bodyHash this !!! Joint.body2 joint in
            let awake1 := Body.isAwake body1 && negb (Body.isStatic body1) in
            let awake2 := Body.isAwake body2 && negb (Body.isStatic body2) in
            if xorb awake1 awake2 then
              let this := if negb awake1
                          then on_body (Joint.body1 joint) (Body.awake true) this
                          else this in
              if negb awake2
              then on_body (Joint.body2 joint) (Body.awake true) this
              else this
            else this)
         this.

(** "Intergrate position". *)
Definition integratePosition (dt : float) (this : t) : t :=
  each_body (fun body =>
               if Body.isDynamic body && Body.isAwake body
               then Body.updatePosition dt body
               else body) this.

(** "Process breakable joint". *)
Definition breakJoints (dt_inv : float) (this : t) : t :=
  for_in jointHash
         (fun _ joint this =>
            if Joint.breakable joint then
              if JS.ge (vec2.lengthsq (Dispatch.getReactionForce joint dt_inv))
                       (Joint.maxForce joint * Joint.maxForce joint)
              then removeJoint joint this
              else this
            else this)
         this.

(** "Post solve collision callback". *)
Definition postSolveAll (this : t) : t :=
  foldl (fun this arb => set_bodyHash this (postSolve arb (bodyHash this)))
        this (contactSolverArr this).

(** The body of the loop of "Process sleeping": the body and
    [minSleepTime] after its turn. *)
Definition sleepAccount (dt : float) (body : Body) (minSleepTime : float)
    : Body * float :=
  let linTolSqr := SLEEP_LINEAR_TOLERANCE * SLEEP_LINEAR_TOLERANCE in
  let angTolSqr := SLEEP_ANGULAR_TOLERANCE * SLEEP_ANGULAR_TOLERANCE in
  if negb (Body.isDynamic body) then (body, minSleepTime)
  else if JS.gt (Body.w body * Body.w body) angTolSqr
          || JS.gt (vec2.dot (Body.v body) (Body.v body)) linTolSqr
  then (Body.set_sleepTime body 0, 0)
  else
    let body := Body.set_sleepTime body (Body.sleepTime body + dt) in
    (body, JS.Math_min minSleepTime (Body.sleepTime body)).

(** The loop of "Process sleeping": the Space and [minSleepTime] after it. *)
Definition sleepAccounting (dt : float) (this : t) : t * float :=
  for_in (fun s : t * float => bodyHash s.1)
         (fun i body s =>
            let '(this, minSleepTime) := s in
            let '(body, minSleepTime) := sleepAccount dt body minSleepTime in
            (set_bodyHash this (<[i := body]> (bodyHash this)), minSleepTime))
         (this, 999999).

(** "Process sleeping". *)
Definition processSleep (dt : float) (positionSolved : bool) (this : t) : t :=
  let '(this, minSleepTime) := sleepAccounting dt this in
  if positionSolved && JS.ge minSleepTime TIME_TO_SLEEP
  then each_body (Body.awake false) this
  else this.

(** The part of [step] before "Process sleeping": the Space it leaves and
    the value of [positionSolved]. *)
Definition stepSolve (dt : float) (vel_iteration pos_iteration : Z)
    (warmStarting : bool) (g : Globals) (this : t) : bool * (Globals * t) :=
  let dt_inv := 1 / dt in
  let this := set_stepCount this (JS.incr (stepCount this)) in
  (* Generate contact & contactSolver *)
  let '(arr, this) := genTemporalContactSolvers this in
  let this := set_contactSolverArr this arr in
  (* Initialize contacts & joints solver *)
  let this := initSolver dt dt_inv warmStarting this in
  (* Intergrate velocity *)
  let this := integrateVelocity dt this in
  let this := wakeAcrossJoints this in
  (* Iterative velocity constraints solver *)
  let this := velocitySolver vel_iteration this in
  (* Intergrate position *)
  let this := integratePosition dt this in
  (* Process breakable joint *)
  let this := breakJoints dt_inv this in
  (* Iterative position constraints solver *)
  let '(positionSolved, (g, this)) := positionSolver pos_iteration g this in
  let this := each_body Body_syncTransform this in
  (* Post solve collision callback *)
  let this := postSolveAll this in
  let this := each_body (fun body =>
                           if Body.isDynamic body && Body.isAwake body
                           then Body_cacheData body else body) this in
  (positionSolved, (g, this)).

Definition step (dt : float) (vel_iteration pos_iteration : Z)
    (warmStarting allowSleep : bool) (g : Globals) (this : t) : Globals * t :=
  let '(positionSolved, (g, this)) :=
    stepSolve dt vel_iteration pos_iteration warmStarting g this in
  (* Process sleeping *)
  if allowSleep then (g, processSleep dt positionSolved this) else (g, this).

(** *** Loading a scene *)

(** How a call ends: it returns, or the host throws its [TypeError] (a
    property of [undefined] was read or written).  The sources raise no
    error of their own. *)
Inductive completion : Type := Normal | TypeError.

(** The [case] labels of the two [switch] statements of [create]. *)
Definition shape_case (type : string) : option Shape.type_t :=
  if String.eqb type "ShapeCircle" then Some Shape.TYPE_CIRCLE
  else if String.eqb type "ShapeSegment" then Some Shape.TYPE_SEGMENT
  else if String.eqb type "ShapePoly" then Some Shape.TYPE_POLY
  else None.

Definition joint_case (type : string) : option Joint.proto_t :=
  if String.eqb type "AngleJoint" then Some Joint.AngleJoint
  else if String.eqb type "RevoluteJoint" then Some Joint.RevoluteJoint
  else if String.eqb type "WeldJoint" then Some Joint.WeldJoint
  else if String.eqb type "DistanceJoint" then Some Joint.DistanceJoint
  else if String.eqb type "LineJoint" then Some Joint.LineJoint
  else if String.eqb type "PrismaticJoint" then Some Joint.PrismaticJoint
  else None.

(** A write to a shape reaches every array that holds the shape. *)
Definition write_shape (shape : Shape) (arr : list Shape) : list Shape :=
  map (fun s => if N.eqb (Shape.id s) (Shape.id shape) then shape else s) arr.

(** Modelled from the spec: the constructors of the joint kinds [create]
    makes are not in the sources.  Like the rope joint's, they resolve their
    anchors in both bodies, so they throw when a body is [undefined]; the
    joint takes the next joint id.  [create] assigns [collideConnected],
    [maxForce] and [breakable] right after. *)
Definition newJoint (id : N) (k : Joint.proto_t) (body1 body2 : Body)
    (config_joint : Config.joint) : Joint :=
  Joint.mk _ id k (Body.id body1) (Body.id body2) false 0 false
    vec2.zero vec2.zero 0 0 0 vec2.zero vec2.zero 0 0
    Joint.LIMIT_STATE_INACTIVE vec2.zero 0 0 0
    (OtherJoint_data k body1 body2 config_joint).

(** The loop over [config_body.shapes].  [shape] is the variable of that
    name: declared with [var], it belongs to the function and keeps its
    value from one turn to the next and from one body to the next. *)
Fixpoint createShapes (shapes : list Config.shape) (shape : option Shape)
    (g : Globals) (body : Body) (this : t)
    : completion * (option Shape * Globals * Body * t) :=
  match shapes with
  | [] => (Normal, (shape, g, body, this))
  | config_shape :: shapes =>
      let '(shape, g) :=
        match shape_case (Config.shape_type config_shape) with
        | Some k =>
            (Some (Shape.new (Globals.Shape_id_counter g) k
                             (Config.shape_geometry config_shape)),
             Globals.mk (Globals.Shape_id_counter g + 1)
                        (Globals.Body_id_counter g)
                        (Globals.Joint_id_counter g)
                        (Globals.stats_positionIterations g))
        | None => (shape, g)
        end in
      match shape with
      | None => (TypeError, (shape, g, body, this))
      | Some shape =>
          let shape := Shape.set_material shape
                         (Config.shape_e config_shape)
                         (Config.shape_u config_shape)
                         (Config.shape_density config_shape) in
          let body := Body.set_shapeArr body (write_shape shape (Body.shapeArr body)) in
          let this := set_bodyHash this
            ((fun b => Body.set_shapeArr b (write_shape shape (Body.shapeArr b)))
               <$> bodyHash this) in
          let body := Body.addShape shape body in
          createShapes shapes (Some shape) g body this
      end
  end.

(** The loop over [config.bodies]. *)
Fixpoint createBodies (bodies : list Config.body) (shape : option Shape)
    (g : Globals) (this : t) : completion * (Globals * t) :=
  match bodies with
  | [] => (Normal, (g, this))
  | config_body :: bodies =>
      let type := if String.eqb (Config.body_type config_body) "static"
                  then Body.STATIC else Body.DYNAMIC in
      let body := Body.new (Globals.Body_id_counter g) type
                    (vec2.x (Config.body_position config_body))
                    (vec2.y (Config.body_position config_body))
                    (Config.body_angle config_body) in
      let g := Globals.mk (Globals.Shape_id_counter g)
                          (Globals.Body_id_counter g + 1)
                          (Globals.Joint_id_counter g)
                          (Globals.stats_positionIterations g) in
      match createShapes (Config.body_shapes config_body) shape g body this with
      | (TypeError, (_, g, _, this)) => (TypeError, (g, this))
      | (Normal, (shape, g, body, this)) =>
          let body := Body_resetMassData body in
          let this := addBody body this in
          createBodies bodies shape g this
      end
  end.

(** The loop over [config.joints]; [joint] is the variable of that name,
    which also keeps its value from one turn to the next.  With the joint
    the variable holds goes whether that joint is the one registered under
    its id: a joint just made is not, and [addJoint] registers it unless its
    id is taken (by a joint that [clear] left); the joint that a turn of an
    unknown kind finds in the variable may be.  A write to a joint that is
    registered reaches [jointHash]; a write to one that is not does not. *)
Fixpoint createJoints (joints : list Config.joint)
    (joint : option (Joint * bool)) (g : Globals) (this : t)
    : completion * (Globals * t) :=
  match joints with
  | [] => (Normal, (g, this))
  | config_joint :: joints =>
      let body1 := bodyHash this !! Config.joint_body1 config_joint in
      let body2 := bodyHash this !! Config.joint_body2 config_joint in
      let made :=
        match joint_case (Config.joint_type config_joint) with
        | Some k =>
            let g' := Globals.mk (Globals.Shape_id_counter g)
                                 (Globals.Body_id_counter g)
                                 (Globals.Joint_id_counter g + 1)
                                 (Globals.stats_positionIterations g) in
            match body1, body2 with
            | Some body1, Some body2 =>
                (Normal,
                 (Some (newJoint (Globals.Joint_id_counter g) k body1 body2
                                 config_joint, false), g'))
            | _, _ => (TypeError, (joint, g'))
            end
        | None => (Normal, (joint, g))
        end in
      match made with
      | (TypeError, (_, g)) => (TypeError, (g, this))
      | (Normal, (None, g)) => (TypeError, (g, this))
      | (Normal, (Some (joint, registered), g)) =>
          let joint := Joint.set_flags joint
                         (Config.joint_collideConnected config_joint)
                         (Config.joint_maxForce config_joint)
                         (Config.joint_breakable config_joint) in
          let this :=
            if registered
            then set_jointHash this
                   (alter (fun _ => joint) (Joint.id joint) (jointHash this))
            else this in
          let registered :=
            match jointHash this !! Joint.id joint with
            | Some _ => registered
            | None => true
            end in
          let this := addJoint joint this in
          createJoints joints (Some (joint, registered)) g this
      end
  end.

(** [create(text)] from [config = JSON.parse(text)] on. *)
Definition create (config : Config) (g : Globals) (this : t)
    : completion * (Globals * t) :=
  let '(g, this) := clear g this in
  match createBodies (Config.bodies config) None g this with
  | (TypeError, s) => (TypeError, s)
  | (Normal, (g, this)) => createJoints (Config.joints config) None g this
  end.

End methods.

(** *** Authoring queries *)

Section queries.
Context {host : Host} {opaque : Opaque} {extern : Extern} {queries : Queries}.
Local Open Scope Z_scope.

(** The loop variables are [refShape] and [firstShape]; [shape == refShape]
    compares two references to shapes, that is their ids. *)
Definition findShapeByPoint (p : vec2) (refShape : option Shape) (this : t)
    : option Shape :=
  match
    loop_until (fun body s =>
      loop_until (fun shape (s : option Shape * option Shape) =>
        let '(refShape, firstShape) := s in
        if Shape_pointQuery shape p then
          match refShape with
          | None => inl shape
          | Some ref =>
              let firstShape :=
                match firstShape with
                | None => Some shape
                | Some first => Some first
                end in
              let refShape :=
                if N.eqb (Shape.id shape) (Shape.id ref) then None
                else Some ref in
              inr (refShape, firstShape)
          end
        else inr (refShape, firstShape))
        (Body.shapeArr body) s)
      (values (bodyHash this)) (refShape, None)
  with
  | inl shape => Some shape
  | inr (_, firstShape) => firstShape
  end.

Definition shapeById (id : N) (this : t) : option Shape :=
  match
    loop_until (fun body (s : unit) =>
      loop_until (fun shape (s : unit) =>
        if N.eqb (Shape.id shape) id then inl shape else inr s)
        (Body.shapeArr body) s)
      (values (bodyHash this)) tt
  with
  | inl shape => Some shape
  | inr _ => None
  end.

Definition jointById (id : N) (this : t) : option Joint :=
  match
    loop_until (fun joint (s : unit) =>
      if N.eqb (Joint.id joint) id then inl joint else inr s)
      (values (jointHash this)) tt
  with
  | inl joint => Some joint
  | inr _ => None
  end.

(** The expression [(id << 16) | index] that makes the id of a vertex, of
    an edge or of the anchor of a joint. *)
Definition packId (id : N) (index : Z) : Z :=
  JS.bor (JS.shl (Z.of_N id) 16) index.

(** The three statements that end the loop body of the finders of a vertex,
    of an edge and of a joint, on the id just found and the loop variables
    [refId] and [firstId]: [if (refId == -1) return id;
    if (firstId == -1) firstId = id; if (id == refId) refId = -1]. *)
Definition pickNext (id : Z) (s : Z * Z) : Z + Z * Z :=
  let '(refId, firstId) := s in
  if refId =? -1 then inl id else
  let firstId := if firstId =? -1 then id else firstId in
  let refId := if id =? refId then -1 else refId in
  inr (refId, firstId).

Definition findVertexByPoint (p : vec2) (minDist : float)
    (refVertexId : option Z) (this : t) : Z :=
  let firstVertexId := -1 in
  let refVertexId := JS.or_else refVertexId (-1) in
  match
    loop_until (fun body s =>
      loop_until (fun shape s =>
        let index := Shape_findVertexByPoint shape p minDist in
        if negb (index =? -1) then
          let vertex := packId (Shape.id shape) index in
          pickNext vertex s
        else inr s)
        (Body.shapeArr body) s)
      (values (bodyHash this)) (refVertexId, firstVertexId)
  with
  | inl vertex => vertex
  | inr (_, firstVertexId) => firstVertexId
  end.

Definition findEdgeByPoint (p : vec2) (minDist : float)
    (refEdgeId : option Z) (this : t) : Z :=
  let firstEdgeId := -1 in
  let refEdgeId := JS.or_else refEdgeId (-1) in
  match
    loop_until (fun body s =>
      loop_until (fun shape s =>
        match Shape.type shape with
        | Shape.TYPE_POLY =>
            let index := Shape_findEdgeByPoint shape p minDist in
            if negb (index =? -1) then
              let edge := packId (Shape.id shape) index in
              pickNext edge s
            else inr s
        | _ => inr s
        end)
        (Body.shapeArr body) s)
      (values (bodyHash this)) (refEdgeId, firstEdgeId)
  with
  | inl edge => edge
  | inr (_, firstEdgeId) => firstEdgeId
  end.

(** [joint.getWorldAnchor1()] and [joint.getWorldAnchor2()], by the kind of
    the joint. *)
Definition getWorldAnchor1 (joint : Joint) (st : Store) : vec2 :=
  match Joint.proto joint with
  | Joint.RopeJoint => RopeJoint.getWorldAnchor1 joint st
  | _ => OtherJoint_getWorldAnchor1 joint st
  end.

Definition getWorldAnchor2 (joint : Joint) (st : Store) : vec2 :=
  match Joint.proto joint with
  | Joint.RopeJoint => RopeJoint.getWorldAnchor2 joint st
  | _ => OtherJoint_getWorldAnchor2 joint st
  end.

(** The id the loop body of [findJointByPoint] gives a joint: that of its
    first anchor when it is within [minDist] of [p], else that of its second
    anchor when that one is, else -1. *)
Definition jointIdAt (p : vec2) (dsq : float) (joint : Joint) (this : t) : Z :=
  if (vec2.distsq p (getWorldAnchor1 joint (bodyHash this)) <? dsq)%float
  then packId (Joint.id joint) 0
  else if (vec2.distsq p (getWorldAnchor2 joint (bodyHash this)) <? dsq)%float
  then packId (Joint.id joint) 1
  else -1.

Definition findJointByPoint (p : vec2) (minDist : float)
    (refJointId : option Z) (this : t) : Z :=
  let firstJointId := -1 in
  let dsq := (minDist * minDist)%float in
  let refJointId := JS.or_else refJointId (-1) in
  match
    loop_until (fun joint s =>
      let jointId := jointIdAt p dsq joint this in
      if negb (jointId =? -1) then pickNext jointId s else inr s)
      (values (jointHash this)) (refJointId, firstJointId)
  with
  | inl jointId => jointId
  | inr (_, firstJointId) => firstJointId
  end.

End queries.

End Space.

Abbreviation Space := Space.t.

(** ** The states of the registry *)

(** The Spaces that [new Space()] and the registry operations produce. *)
Inductive registry_reachable {host : Host} {opaque : Opaque} {extern : Extern}
    : Space -> Prop :=
  | reach_new : registry_reachable Space.new
  | reach_addBody body this :
      registry_reachable this -> registry_reachable (Space.addBody body this)
  | reach_removeBody body this :
      registry_reachable this -> registry_reachable (Space.removeBody body this)
  | reach_addJoint joint this :
      registry_reachable this -> registry_reachable (Space.addJoint joint this)
  | reach_removeJoint joint this :
      registry_reachable this -> registry_reachable (Space.removeJoint joint this)
  | reach_clear g this :
      registry_reachable this -> registry_reachable (Space.clear g this).2.

(** ** What the authoring queries range over *)

(** The shapes of the Space in the order the loops of the queries meet
    them: body after body by id, and the shapes of a body in the order of
    its [shapeArr]. *)
Definition allShapes {opaque : Opaque} (this : Space) : list Shape :=
  concat (map Body.shapeArr (values (Space.bodyHash this))).

(** The ids of the vertices within [minDist] of [p], in that order. *)
Definition vertexHits {opaque : Opaque} {queries : Queries}
    (p : vec2) (minDist : float) (this : Space) : list Z :=
  omap (fun shape =>
          let index := Shape_findVertexByPoint shape p minDist in
          if Z.eqb index (-1) then None
          else Some (Space.packId (Shape.id shape) index))
       (allShapes this).

(** The ids of the edges of polygons within [minDist] of [p], in that
    order. *)
Definition edgeHits {opaque : Opaque} {queries : Queries}
    (p : vec2) (minDist : float) (this : Space) : list Z :=
  omap (fun shape =>
          match Shape.type shape with
          | Shape.TYPE_POLY =>
              let index := Shape_findEdgeByPoint shape p minDist in
              if Z.eqb index (-1) then None
              else Some (Space.packId (Shape.id shape) index)
          | _ => None
          end)
       (allShapes this).

(** The ids of the joints with an anchor within [minDist] of [p], joint
    after joint by id. *)
Definition jointHits {host : Host} {opaque : Opaque} {extern : Extern}
    {queries : Queries} (p : vec2) (minDist : float) (this : Space) : list Z :=
  omap (fun joint =>
          let jointId := Space.jointIdAt p (minDist * minDist)%float joint this in
          if Z.eqb jointId (-1) then None else Some jointId)
       (values (Space.jointHash this)).

(** What the loop body of [findShapeByPoint] does with a shape that
    contains the point. *)
Definition pickNextShape {opaque : Opaque} (shape : Shape)
    (s : option Shape * option Shape) : Shape + option Shape * option Shape :=
  let '(refShape, firstShape) := s in
  match refShape with
  | None => inl shape
  | Some ref =>
      inr (if N.eqb (Shape.id shape) (Shape.id ref) then None else Some ref,
           match firstShape with
           | None => Some shape
           | Some first => Some first
           end)
  end.

(** A finder of ids cycles through [hits]: without a reference id, or with
    the reference 0, it gives the first hit (-1 when there is none); with a
    reference that is not a hit, the first hit; with a reference that is a
    hit, the hit that follows its first occurrence, or the first hit when
    none follows. *)
Definition cycles_through (hits : list Z) (find : option Z -> Z) : Prop :=
  (forall ref, ref = None \/ ref = Some 0%Z -> find ref = hd (-1)%Z hits)
  /\ (forall r, r ∉ hits -> find (Some r) = hd (-1)%Z hits)
  /\ (forall r l1 l2, r <> 0%Z -> hits = l1 ++ r :: l2 -> r ∉ l1 ->
        find (Some r) = hd (hd r l1) l2).

(** ** Well-formed registries *)

(** The joints of the Space are registered under their own ids. *)
Definition joints_keyed {opaque : Opaque} (this : Space) : Prop :=
  forall i joint, Space.jointHash this !! i = Some joint -> Joint.id joint = i.

(** The bodies of the Space are registered under their own ids. *)
Definition bodies_keyed {opaque : Opaque} (this : Space) : Prop :=
  forall k body, Space.bodyHash this !! k = Some body -> Body.id body = k.

(** [body'] is [body] after joints were unlinked from it, all of them the
    joint [i]: the same id, and a set of joints that lost at most [i]. *)
Definition unlinks {opaque : Opaque} (i : N) (body body' : Body) : Prop :=
  Body.id body' = Body.id body
  /\ Body.jointHash body' ⊆ Body.jointHash body
  /\ forall x, x ∈ Body.jointHash body -> x ∈ Body.jointHash body' \/ x = i.

(** The Space [this'] is [this] after bodies and joints were removed from
    it, the joints all among those that [D] allows: every joint and every
    body of [this'] is one of [this]; a body has the same id, and a set of
    joints that lost only joints that are gone. *)
Definition shrunk {opaque : Opaque} (D : N -> Prop) (this this' : Space) : Prop :=
  (forall i joint, Space.jointHash this' !! i = Some joint ->
     Space.jointHash this !! i = Some joint)
  /\ (forall i, is_Some (Space.jointHash this !! i) ->
        Space.jointHash this' !! i = None -> D i)
  /\ (forall k body', Space.bodyHash this' !! k = Some body' ->
        exists body, Space.bodyHash this !! k = Some body
          /\ Body.id body' = Body.id body
          /\ Body.jointHash body' ⊆ Body.jointHash body
          /\ forall i, i ∈ Body.jointHash body ->
               i ∈ Body.jointHash body' \/ Space.jointHash this' !! i = None).

(** What the loop of [clear] keeps, from the Space [this0] it starts from:
    the joints are registered under their ids; only joints listed in a body
    of [this0] are gone; the joints listed in a body that is gone are gone;
    and [numBodies] went down by the number of bodies gone. *)
Definition clearing {opaque : Opaque} (this0 this : Space) : Prop :=
  joints_keyed this
  /\ shrunk (fun i => exists k body, Space.bodyHash this0 !! k = Some body
                                     /\ i ∈ Body.jointHash body) this0 this
  /\ (forall k body, Space.bodyHash this0 !! k = Some body ->
        Space.bodyHash this !! k = None ->
        forall i, i ∈ Body.jointHash body -> Space.jointHash this !! i = None)
  /\ (Space.numBodies this0 - Space.numBodies this
      = Z.of_nat (size (Space.bodyHash this0))
        - Z.of_nat (size (Space.bodyHash this)))%Z.

(** [body'] is [body], or [body] after [awake(true)]. *)
Definition woken {opaque : Opaque} (body body' : Body) : Prop :=
  body' = body \/ body' = Body.awake true body.

(** ** A round of the position solver, call by call *)

(** One loop over the contact solvers, call by call:
    [solvePositionConstraints] is called on every solver of the array, in
    the order of the array, each call on the bodies as the call before left
    them.  [oks] are the values the calls return; [arr'] are the solvers and
    [st'] the bodies after the last call. *)
Inductive contacts_solved {host : Host} {opaque : Opaque} {extern : Extern}
    : list ContactSolver -> Store -> list bool -> list ContactSolver -> Store
      -> Prop :=
  | contacts_solved_nil st : contacts_solved [] st [] [] st
  | contacts_solved_cons contactSolver arr st contactOk contactSolver' st1
                         oks arr' st' :
      ContactSolver_solvePositionConstraints contactSolver st
        = (contactOk, (contactSolver', st1)) ->
      contacts_solved arr st1 oks arr' st' ->
      contacts_solved (contactSolver :: arr) st (contactOk :: oks)
                      (contactSolver' :: arr') st'.

(** One loop over the joints of the ids [l], call by call:
    [solvePositionConstraints] is called on the joint that [jointHash0], the
    table at the start of the loop, holds under each id, on the bodies as
    the call before left them, and the joint as the call leaves it takes its
    place in the table. *)
Inductive joints_solved {host : Host} {opaque : Opaque} {extern : Extern}
    (jointHash0 : gmap N Joint)
    : list N -> gmap N Joint -> Store -> list bool -> gmap N Joint -> Store
      -> Prop :=
  | joints_solved_nil jointHash st :
      joints_solved jointHash0 [] jointHash st [] jointHash st
  | joints_solved_cons i l jointHash st joint jointOk joint' st1
                       oks jointHash' st' :
      jointHash0 !! i = Some joint ->
      Dispatch.solvePositionConstraints joint st = (jointOk, (joint', st1)) ->
      joints_solved jointHash0 l (<[i := joint']> jointHash) st1
                    oks jointHash' st' ->
      joints_solved jointHash0 (i :: l) jointHash st (jointOk :: oks)
                    jointHash' st'.

(** ** What a step leaves alone *)

(** The fields of a Space that no part of [step] after the increment of
    [stepCount] assigns. *)
Definition settings {opaque : Opaque} (this : Space)
    : vec2 * float * Z * JS.value :=
  (Space.gravity this, Space.damping this, Space.numBodies this,
   Space.stepCount this).

(** The fields of a Space that the parts of [step] that only work on bodies
    and contacts leave alone: the settings and the registry of joints. *)
Definition registry {opaque : Opaque} (this : Space)
    : vec2 * float * Z * JS.value * gmap N Joint * Z :=
  (settings this, Space.jointHash this, Space.numJoints this).

(** What a joint is made with and the solvers of the rope joint never
    assign: identity, kind, bodies, flags, anchors and length. *)
Definition makeup {opaque : Opaque} (joint : Joint)
    : N * Joint.proto_t * N * N * bool * float * bool * vec2 * vec2 * float :=
  (Joint.id joint, Joint.proto joint, Joint.body1 joint, Joint.body2 joint,
   Joint.collideConnected joint, Joint.maxForce joint, Joint.breakable joint,
   Joint.anchor1 joint, Joint.anchor2 joint, Joint.maxDistance joint).

(** The joints of [this'] are joints of [this] with the same makeup, no
    joint of [this] that is not breakable is missing, and [numJoints] went
    down by the number of joints missing. *)
Definition joints_kept {opaque : Opaque} (this this' : Space) : Prop :=
  (forall k joint', Space.jointHash this' !! k = Some joint' ->
     exists joint, Space.jointHash this !! k = Some joint
                   /\ makeup joint' = makeup joint)
  /\ (forall k joint, Space.jointHash this !! k = Some joint ->
        Joint.breakable joint = false -> is_Some (Space.jointHash this' !! k))
  /\ (Space.numJoints this - Space.numJoints this'
      = Z.of_nat (size (Space.jointHash this))
        - Z.of_nat (size (Space.jointHash this')))%Z.

(** ** The canvas renderer *)

(** The functions of the vector library that only the renderer calls, and
    the method [toAngle] of a vector; the sources do not contain them. *)
Class Drawing : Type := {
  vec2_toAngle : vec2 -> float;
  vec2_prototype_toAngle : vec2 -> float;
  vec2_rotation : float -> vec2;
  vec2_normalize : vec2 -> vec2;
  vec2_perp : vec2 -> vec2;
}.

Module RendererCanvas.

Local Open Scope float_scope.

(** [Math.PI]. *)
Definition Math_PI : float := 0x1.921fb54442d18p+1.

(** A fill or stroke style handed to the renderer: a string, or
    [undefined]. *)
Definition style := option string.

(** [if (style)]: the style is a string that is not empty. *)
Definition given (s : style) : bool :=
  match s with
  | Some s => negb (String.eqb s EmptyString)
  | None => false
  end.

(** The calls the renderer makes on the 2D context of the canvas, and the
    properties of the context it assigns. *)
Inductive call : Type :=
  | beginPath
  | closePath
  | clip
  | stroke
  | fill
  | save
  | restore
  | rect (x y width height : float)
  | moveTo (x y : float)
  | lineTo (x y : float)
  | translate (x y : float)
  | rotate (angle : float)
  | arc (x y radius startAngle endAngle : float) (anticlockwise : bool)
  | set_strokeStyle (s : style)
  | set_fillStyle (s : style)
  | set_lineJoint (s : string).

(** The context: the calls made on it so far, oldest first. *)
Definition context := list call.

Section functions.
Context {drawing : Drawing}.

Definition scissorRect (ctx : context) (x y width height : float) : context :=
  ctx ++ [beginPath; rect x y width height; closePath; clip].

Definition drawLine (ctx : context) (p1 p2 : vec2) (strokeStyle : style)
    : context :=
  ctx ++ [beginPath;
          moveTo (vec2.x p1) (vec2.y p1);
          lineTo (vec2.x p2) (vec2.y p2);
          set_strokeStyle strokeStyle;
          stroke].

Definition drawArrow (ctx : context) (p1 p2 : vec2) (strokeStyle : style)
    : context :=
  let angle := vec2_toAngle (vec2.sub p2 p1) - Math_PI in
  ctx ++ [beginPath;
          moveTo (vec2.x p1) (vec2.y p1);
          lineTo (vec2.x p2) (vec2.y p2);
          save;
          translate (vec2.x p2) (vec2.y p2);
          rotate (angle - Math_PI * 0.15);
          moveTo 6 0;
          lineTo 0 0;
          rotate (Math_PI * 0.3);
          lineTo 6 0;
          restore;
          set_lineJoint "miter";
          set_strokeStyle strokeStyle;
          stroke].

(** The two blocks that end the functions that draw a shape. *)
Definition fillWith (fillStyle : style) (ctx : context) : context :=
  if given fillStyle then ctx ++ [closePath; set_fillStyle fillStyle; fill]
  else ctx.

Definition strokeWith (strokeStyle : style) (ctx : context) : context :=
  if given strokeStyle then ctx ++ [set_strokeStyle strokeStyle; stroke]
  else ctx.

Definition drawBox (ctx : context) (mins maxs : vec2)
    (fillStyle strokeStyle : style) : context :=
  let ctx := ctx ++ [beginPath;
                     rect (vec2.x mins) (vec2.y mins)
                          (vec2.x maxs - vec2.x mins)
                          (vec2.y maxs - vec2.y mins)] in
  let ctx := fillWith fillStyle ctx in
  strokeWith strokeStyle ctx.

Definition drawCircle (ctx : context) (center : vec2) (radius angle : float)
    (fillStyle strokeStyle : style) : context :=
  let ctx := ctx ++ [beginPath;
                     arc (vec2.x center) (vec2.y center) radius 0
                         (Math_PI * 2) true] in
  let ctx := fillWith fillStyle ctx in
  if given strokeStyle then
    let rt := vec2.add center (vec2.scale (vec2_rotation angle) radius) in
    ctx ++ [moveTo (vec2.x center) (vec2.y center);
            lineTo (vec2.x rt) (vec2.y rt);
            set_strokeStyle strokeStyle;
            stroke]
  else ctx.

Definition drawSegment (ctx : context) (a b : vec2) (radius : float)
    (fillStyle strokeStyle : style) : context :=
  let dn := vec2_normalize (vec2_perp (vec2.sub b a)) in
  let start_angle := vec2_prototype_toAngle dn in
  let ds := vec2.scale dn (- radius) in
  let bp := vec2.add b ds in
  let start_angle' := start_angle + Math_PI in
  let ds' := vec2.scale dn radius in
  let ap := vec2.add a ds' in
  let ctx := ctx ++ [beginPath;
                     arc (vec2.x a) (vec2.y a) radius start_angle
                         (start_angle + Math_PI) false;
                     lineTo (vec2.x bp) (vec2.y bp);
                     arc (vec2.x b) (vec2.y b) radius start_angle'
                         (start_angle' + Math_PI) false;
                     lineTo (vec2.x ap) (vec2.y ap)] in
  let ctx := fillWith fillStyle ctx in
  strokeWith strokeStyle ctx.

(** [verts[0]] of an empty array is [undefined], and reading its [x]
    throws. *)
Definition drawPolygon (ctx : context) (verts : list vec2)
    (fillStyle strokeStyle : style) : Space.completion * context :=
  let ctx := ctx ++ [beginPath] in
  match verts with
  | [] => (Space.TypeError, ctx)
  | first :: _ =>
      let ctx := ctx ++ [moveTo (vec2.x first) (vec2.y first)] in
      let ctx := foldl (fun ctx v => ctx ++ [lineTo (vec2.x v) (vec2.y v)])
                       ctx verts in
      let final := List.last verts first in
      let ctx := ctx ++ [lineTo (vec2.x final) (vec2.y final)] in
      let ctx := fillWith fillStyle ctx in
      (Space.Normal, strokeWith strokeStyle ctx)
  end.

End functions.

End RendererCanvas.

(** ** A closed instance for the examples *)

(** The examples below run the embedding on concrete scenes.  They need a
    value for each parameter: the host's cosine and sine are taken at angle
    0 and its power at exponent 1, the only arguments the examples give
    them; the opaque data is [unit]; two distinct bodies are collidable,
    all bounds overlap and every pair of shapes touches in one contact; the
    absent methods leave their objects as they are. *)
Module Demo.

Local Open Scope float_scope.

#[global] Instance host : Host := {|
  Math_cos := fun _ => 1;
  Math_sin := fun _ => 0;
  Math_pow := fun base _ => base;
|}.

#[global] Instance opaque : Opaque := {|
  Bounds := unit;
  Geometry := unit;
  Contact := unit;
  SolverData := unit;
  JointData := unit;
  JointExtra := unit;
  Bounds_empty := tt;
  SolverData_new := tt;
  JointData_new := tt;
|}.

Definition serializeBody (b : Body) : Config.body :=
  Config.mk_body _
    (match Body.type b with Body.STATIC => "static" | _ => "dynamic" end)
    (Body.p b) (Body.a b)
    (map (fun s => Config.mk_shape _
                     (match Shape.type s with
                      | Shape.TYPE_CIRCLE => "ShapeCircle"
                      | Shape.TYPE_SEGMENT => "ShapeSegment"
                      | Shape.TYPE_POLY => "ShapePoly"
                      end)
                     (Shape.geometry s) (Shape.e s) (Shape.u s) (Shape.density s))
         (Body.shapeArr b)).

#[global] Instance extern : Extern := {|
  deg2rad := fun d => d / 180 * 0x1.921fb54442d18p+1;
  Joint_LINEAR_SLOP := 0.005;
  Joint_MAX_LINEAR_CORRECTION := 0.2;
  Bounds_intersectsBounds := fun _ _ => true;
  Body_isCollidable := fun _ b1 b2 => negb (N.eqb (Body.id b1) (Body.id b2));
  Body_cacheData := fun b => b;
  Body_syncTransform := fun b => b;
  Body_resetMassData := fun b => b;
  Body_getWorldPoint := fun b pt => vec2.add (Body.p b) pt;
  Body_getLocalPoint := fun b pt => vec2.sub pt (Body.p b);
  Joint_maxForce := 9999999999;
  Joint_breakable := false;
  Body_serialize := serializeBody;
  collision_collide := fun _ _ => (true, [tt]);
  ContactSolver_update := fun c arr =>
    ContactSolver.mk _ (ContactSolver.shape1 c) (ContactSolver.shape2 c) arr
      (ContactSolver.e c) (ContactSolver.u c) (ContactSolver.data c);
  ContactSolver_initSolver := fun _ c _ => c;
  ContactSolver_warmStart := fun _ st => st;
  ContactSolver_solveVelocityConstraints := fun c st => (c, st);
  ContactSolver_solvePositionConstraints := fun c st => (true, (c, st));
  OtherJoint_data := fun _ _ _ _ => tt;
  OtherJoint_initSolver := fun _ _ j st => (j, st);
  OtherJoint_solveVelocityConstraints := fun j st => (j, st);
  OtherJoint_solvePositionConstraints := fun j st => (true, (j, st));
  OtherJoint_getReactionForce := fun _ _ => vec2.zero;
  OtherJoint_serialize := fun j _ =>
    Config.mk_joint _ "WeldJoint" (Joint.body1 j) (Joint.body2 j)
      (Some vec2.zero) None None (Joint.collideConnected j) (Joint.maxForce j)
      (Joint.breakable j) None;
  postSolve := fun _ st => st;
|}.

(** For the queries: every shape contains every point; the vertex within
    reach of a shape is its vertex 1 and the edge within reach its edge 0;
    the joints of the other kinds are anchored like the rope. *)
#[global] Instance queries : Queries := {|
  Shape_pointQuery := fun _ _ => true;
  Shape_findVertexByPoint := fun _ _ _ => 1%Z;
  Shape_findEdgeByPoint := fun _ _ _ => 0%Z;
  OtherJoint_getWorldAnchor1 := fun j st => RopeJoint.getWorldAnchor1 j st;
  OtherJoint_getWorldAnchor2 := fun j st => RopeJoint.getWorldAnchor2 j st;
|}.

(** A dynamic body of unit mass and inertia at [(x, y)], with one circle. *)
Definition ball (id : N) (x y : float) : Body :=
  Body.mk _ id Body.DYNAMIC (vec2.mk x y) 0 vec2.zero 0 vec2.zero 0 1 1
    vec2.zero true 0 (Some 0) tt
    [Shape.mk _ id Shape.TYPE_CIRCLE 0 0.5 1 tt] ∅.

(** A rope joint [id] between the bodies [b1] and [b2], anchored at their
    centroids, of length [len], as [initSolver] leaves it when the anchors
    are [len] apart along the x axis. *)
Definition rope (id b1 b2 : N) (len : float) : Joint :=
  Joint.mk _ id Joint.RopeJoint b1 b2 true 1000 false
    vec2.zero vec2.zero len 0 0 vec2.zero vec2.zero len 0
    Joint.LIMIT_STATE_INACTIVE (vec2.mk 1 0) 0 0 0.5 tt.

(** A Space made with [new Space()] to which two balls are added. *)
Definition two_balls (x1 y1 x2 y2 : float) : Space :=
  Space.addBody (ball 1 x2 y2) (Space.addBody (ball 0 x1 y1) Space.new).

Definition globals0 : Globals := Globals.mk 0 0 0 0.

(** Two balls joined by a rope of length 2. *)
Definition roped : Space :=
  Space.addJoint (rope 0 0 1 2) (two_balls 0 0 2 0).

Definition scene_body (x y : float) : Config.body :=
  Config.mk_body _ "dynamic" (vec2.mk x y) 0
    [Config.mk_shape _ "ShapeCircle" tt 0 0.5 1].

Definition scene_joint (type : string) (body1 body2 : N) : Config.joint :=
  Config.mk_joint _ type body1 body2 (Some vec2.zero) (Some vec2.zero)
    (Some vec2.zero) false 1000 false None.

(** A scene of two bodies whose only joint is of no kind [create] knows. *)
Definition scene_unknown_joint : Config :=
  Config.mk _ [scene_body 0 0; scene_body 2 0] [scene_joint "SpringJoint" 0 1].

(** A scene of two bodies with a weld between them and then a distance
    joint to a body 7 that the scene does not have. *)
Definition scene_missing_body : Config :=
  Config.mk _ [scene_body 0 0; scene_body 2 0]
    [scene_joint "WeldJoint" 0 1; scene_joint "DistanceJoint" 0 7].

(** Two balls that have been put to sleep, in a Space at step 1 whose first
    ball carries the stamp of the step: the broad phase at the pair (0, 1). *)
Definition asleep_pair : Space.gen_state :=
  Space.mk_gen
    (Space.mk _ {[ 0%N := Body.set_stepCount (Body.awake false (ball 0 0 0)) (Some 1);
                   1%N := Body.awake false (ball 1 0 0) ]}
       2 ∅ 0 [] 0 vec2.zero 1 (Some 1))
    [] [].

(** A cleared Space holding one ball at rest that has been quiet for
    0.49 s. *)
Definition drowsy : Space :=
  Space.mk _ {[ 0%N := Body.set_sleepTime (ball 0 0 0) 0.49 ]}
    1 ∅ 0 [] 0 vec2.zero 1 (Some 0).

(** A Space with damping coefficient 2 and no gravity, holding one awake
    ball that moves at velocity (1, 0) and spins at 1. *)
Definition overdamped : Space :=
  Space.mk _ {[ 0%N := Body.set_w (Body.set_v (ball 0 0 0) (vec2.mk 1 0)) 1 ]}
    1 ∅ 0 [] 0 vec2.zero 2 (Some 0).

(** Two balls joined by a rope that breaks under any force. *)
Definition brittle : Space :=
  Space.addJoint (Joint.set_flags (rope 0 0 1 2) true 0 true)
                 (two_balls 0 0 2 0).

(** A cleared Space holding one ball that is asleep. *)
Definition sleeper : Space :=
  Space.mk _ {[ 0%N := Body.awake false (ball 0 0 0) ]}
    1 ∅ 0 [] 0 (vec2.mk 0 (-10)) 1 (Some 0).

(** A scene of two bodies and no joint. *)
Definition scene_two_bodies : Config :=
  Config.mk _ [scene_body 0 0; scene_body 2 0] [].

(** A cleared Space holding one ball that has been quiet for 0.49 s and
    whose angular velocity is NaN. *)
Definition giddy : Space :=
  Space.mk _ {[ 0%N := Body.set_w (Body.set_sleepTime (ball 0 0 0) 0.49)
                         nan ]}
    1 ∅ 0 [] 0 vec2.zero 1 (Some 0).

(** A Space that [clear] would leave with a joint: the rope 0 is listed by
    no body. *)
Definition haunted : Space :=
  Space.mk _ ∅ 0 {[ 0%N := rope 0 5 6 2 ]} 1 [] 0 vec2.zero 1 (Some 0).

(** A scene of two bodies with a weld between them and then a joint of an
    unknown kind. *)
Definition scene_weld_unknown : Config :=
  Config.mk _ [scene_body 0 0; scene_body 2 0]
    [scene_joint "WeldJoint" 0 1; scene_joint "SpringJoint" 0 1].

End Demo.

(** * Properties *)

(** ** Facts about the order of numbers *)

Section float_order.
Local Open Scope float_scope.

Lemma SFcompare_antisym (a b : spec_float) (c : comparison) :
  SFcompare a b = Some c -> SFcompare b a = Some (CompOpp c).
Proof.
  destruct a as [sa|sa| |sa ma ea], b as [sb|sb| |sb mb eb]; simpl;
    try discriminate; intros [= <-]; f_equal;
    try (destruct sa; reflexivity); try (destruct sb; reflexivity);
    try (destruct sa, sb; reflexivity).
  destruct sa, sb; try reflexivity;
    rewrite (Z.compare_antisym ea eb); destruct (ea ?= eb)%Z; simpl;
    try reflexivity;
    change (PosDef.Pos.compare_cont Eq mb ma)
      with (Pos.compare_cont (CompOpp Eq) mb ma);
    rewrite <- (Pos.compare_cont_antisym ma mb Eq); reflexivity.
Qed.

Lemma SFcompare_refl (a : spec_float) :
  a <> S754_nan -> SFcompare a a = Some Eq.
Proof.
  destruct a as [s|s| |s m e]; simpl; try congruence; intros _; f_equal.
  - destruct s; reflexivity.
  - rewrite Z.compare_refl.
    change (PosDef.Pos.compare_cont Eq m m) with (Pos.compare m m).
    rewrite Pos.compare_refl. destruct s; reflexivity.
Qed.

Lemma float_ltb_asym (a b : float) : (a <? b) = true -> (b <? a) = false.
Proof.
  rewrite !ltb_spec. unfold SFltb.
  destruct (SFcompare (Prim2SF a) (Prim2SF b)) as [c|] eqn:E; [|discriminate].
  rewrite (SFcompare_antisym _ _ _ E). destruct c; simpl; congruence.
Qed.

Lemma float_leb_not_gt (a b : float) : (a <=? b) = true -> JS.gt a b = false.
Proof.
  unfold JS.gt. rewrite leb_spec, ltb_spec. unfold SFleb, SFltb.
  destruct (SFcompare (Prim2SF a) (Prim2SF b)) as [c|] eqn:E; [|discriminate].
  rewrite (SFcompare_antisym _ _ _ E). destruct c; simpl; congruence.
Qed.

Lemma float_ltb_not_gt (a b : float) : (a <? b) = true -> JS.gt a b = false.
Proof. apply float_ltb_asym. Qed.

Lemma float_is_nan_spec (a : float) :
  is_nan a = true <-> Prim2SF a = S754_nan.
Proof.
  unfold is_nan. rewrite FloatAxioms.eqb_spec. unfold SFeqb. split.
  - destruct (Prim2SF a) eqn:E; try reflexivity;
      rewrite SFcompare_refl by discriminate; discriminate.
  - intros ->. reflexivity.
Qed.

Lemma float_leb_nan_r (c a : float) : is_nan a = true -> (c <=? a) = false.
Proof.
  intros Hn. apply float_is_nan_spec in Hn. rewrite leb_spec, Hn.
  unfold SFleb. destruct (Prim2SF c); reflexivity.
Qed.

(** [Math.min(a, b)] is NaN or one of its arguments. *)
Lemma Math_min_cases (a b : float) :
  (is_nan (JS.Math_min a b) = true /\ (is_nan a || is_nan b) = true)
  \/ (JS.Math_min a b = a /\ (b <? a) = false)
  \/ (JS.Math_min a b = b /\ (a <? b) = false).
Proof.
  unfold JS.Math_min.
  destruct (is_nan a || is_nan b) eqn:En; [left; split; reflexivity|].
  destruct (a <? b) eqn:Eab.
  - right; left. split; [reflexivity|]. now apply float_ltb_asym.
  - destruct (b <? a) eqn:Eba; [right; right; now split|].
    destruct (classify a); (right; left; now split) || (right; right; now split).
Qed.

(** The result of [Math.min(a, 0)] is never above zero. *)
Lemma Math_min_zero_not_positive (a : float) :
  JS.gt (JS.Math_min a 0) 0 = false.
Proof.
  unfold JS.gt.
  destruct (Math_min_cases a 0) as [[Hn _]|[[-> H]|[-> _]]].
  - apply float_is_nan_spec in Hn. rewrite ltb_spec, Hn. reflexivity.
  - exact H.
  - reflexivity.
Qed.

(** A lower bound of both arguments is a lower bound of [Math.min]. *)
Lemma Math_min_glb (c a b : float) :
  (c <=? a) = true -> (c <=? b) = true -> (c <=? JS.Math_min a b) = true.
Proof.
  intros Ha Hb.
  destruct (Math_min_cases a b) as [[_ Hn]|[[-> _]|[-> _]]]; try assumption.
  apply orb_true_iff in Hn as [Hn|Hn].
  - rewrite (float_leb_nan_r c a Hn) in Ha. discriminate.
  - rewrite (float_leb_nan_r c b Hn) in Hb. discriminate.
Qed.

Lemma float_eqb_refl (c : float) : is_nan c = false -> (c =? c) = true.
Proof. unfold is_nan. now destruct (c =? c). Qed.

(** The order of the numbers, NaN apart, is transitive. *)
Lemma SFcompare_le_trans (a b c : spec_float) :
  (SFcompare a b = Some Lt \/ SFcompare a b = Some Eq) ->
  (SFcompare b c = Some Lt \/ SFcompare b c = Some Eq) ->
  SFcompare a c = Some Lt \/ SFcompare a c = Some Eq.
Proof.
  destruct a as [sa|sa| |sa ma ea], b as [sb|sb| |sb mb eb],
           c as [sc|sc| |sc mc ec]; cbn [SFcompare];
    try (intros [H|H] [H'|H']; discriminate);
    try (destruct sa); try (destruct sb); try (destruct sc);
    try (intros [H|H] [H'|H']; (discriminate || (now left) || (now right)));
    try (intros _ _; (now left) || (now right)).
  all: intros Hab Hbc;
    change (PosDef.Pos.compare_cont Eq) with Pos.compare in *;
    destruct (Z.compare_spec ea eb), (Z.compare_spec eb ec),
      (Z.compare_spec ea ec);
    try lia; subst;
    try (now left); try (now right);
    try (destruct Hab as [Hab|Hab]; discriminate Hab);
    try (destruct Hbc as [Hbc|Hbc]; discriminate Hbc);
    destruct (Pos.compare_spec ma mb), (Pos.compare_spec mb mc),
      (Pos.compare_spec ma mc);
    try lia; subst; cbn [CompOpp] in *;
    try (now left); try (now right);
    try (destruct Hab as [Hab|Hab]; discriminate Hab);
    try (destruct Hbc as [Hbc|Hbc]; discriminate Hbc).
Qed.

Lemma float_leb_compare (a b : float) :
  (a <=? b) = true
  <-> SFcompare (Prim2SF a) (Prim2SF b) = Some Lt
      \/ SFcompare (Prim2SF a) (Prim2SF b) = Some Eq.
Proof.
  rewrite leb_spec. unfold SFleb.
  destruct (SFcompare (Prim2SF a) (Prim2SF b)) as [[]|]; split;
    try discriminate; try reflexivity; auto; intros [H|H]; discriminate.
Qed.

Lemma float_leb_trans (a b c : float) :
  (a <=? b) = true -> (b <=? c) = true -> (a <=? c) = true.
Proof. rewrite !float_leb_compare. apply SFcompare_le_trans. Qed.

Lemma float_ltb_leb (a b : float) : (a <? b) = true -> (a <=? b) = true.
Proof.
  rewrite ltb_spec, leb_spec. unfold SFltb, SFleb.
  now destruct (SFcompare (Prim2SF a) (Prim2SF b)) as [[]|].
Qed.

(** Of two numbers neither of which is NaN, one is at most the other. *)
Lemma float_leb_total (a b : float) :
  is_nan a = false -> is_nan b = false -> (a <? b) = false ->
  (b <=? a) = true.
Proof.
  intros Ha Hb. rewrite ltb_spec, leb_spec. unfold SFltb, SFleb.
  destruct (SFcompare (Prim2SF a) (Prim2SF b)) as [c|] eqn:E.
  - rewrite (SFcompare_antisym _ _ _ E). now destruct c.
  - exfalso.
    assert (Ha' : Prim2SF a <> S754_nan).
    { intros H. apply float_is_nan_spec in H. congruence. }
    assert (Hb' : Prim2SF b <> S754_nan).
    { intros H. apply float_is_nan_spec in H. congruence. }
    destruct (Prim2SF a), (Prim2SF b); simpl in E; congruence.
Qed.

(** A number is at most [Math.min(a, b)] exactly when it is at most [a] and
    at most [b]. *)
Lemma Math_min_leb (c a b : float) :
  (c <=? JS.Math_min a b) = (c <=? a) && (c <=? b).
Proof.
  destruct (c <=? JS.Math_min a b) eqn:E.
  - symmetry. apply andb_true_iff. revert E. unfold JS.Math_min.
    destruct (is_nan a || is_nan b) eqn:En.
    { intros E. now rewrite float_leb_nan_r in E. }
    apply orb_false_iff in En as [Ha Hb].
    destruct (a <? b) eqn:Eab.
    { intros E. split; [exact E|].
      exact (float_leb_trans _ _ _ E (float_ltb_leb _ _ Eab)). }
    destruct (b <? a) eqn:Eba.
    { intros E. split; [|exact E].
      exact (float_leb_trans _ _ _ E (float_ltb_leb _ _ Eba)). }
    assert (Hba := float_leb_total a b Ha Hb Eab).
    assert (Hab := float_leb_total b a Hb Ha Eba).
    destruct (classify a); intros E;
      (split; [exact E|exact (float_leb_trans _ _ _ E Hab)])
      || (split; [exact (float_leb_trans _ _ _ E Hba)|exact E]).
  - symmetry. apply not_true_iff_false. intros H.
    apply andb_true_iff in H as [Ha Hb].
    now rewrite (Math_min_glb c a b Ha Hb) in E.
Qed.

End float_order.

(** ** The rope joint *)

Section rope_joint.
Context {host : Host} {opaque : Opaque} {extern : Extern}.
Local Open Scope float_scope.

(** The four writes of a solver method, read back: the first body. *)
Lemma lookup_four_writes_1 (st : Store) (i1 i2 : N) (f1 g1 f2 g2 : Body -> Body)
    (b1 : Body) :
  i1 <> i2 -> st !! i1 = Some b1 ->
  alter g2 i2 (alter f2 i2 (alter g1 i1 (alter f1 i1 st))) !! i1
  = Some (g1 (f1 b1)).
Proof.
  intros Hne Hb1.
  rewrite !(lookup_alter_ne _ _ i2 i1) by congruence.
  rewrite !lookup_alter_eq, Hb1. reflexivity.
Qed.

(** The second body. *)
Lemma lookup_four_writes_2 (st : Store) (i1 i2 : N) (f1 g1 f2 g2 : Body -> Body)
    (b2 : Body) :
  i1 <> i2 -> st !! i2 = Some b2 ->
  alter g2 i2 (alter f2 i2 (alter g1 i1 (alter f1 i1 st))) !! i2
  = Some (g2 (f2 b2)).
Proof.
  intros Hne Hb2.
  rewrite !lookup_alter_eq.
  rewrite !(lookup_alter_ne _ _ i1 i2) by congruence.
  rewrite Hb2. reflexivity.
Qed.

(** Every other body. *)
Lemma lookup_four_writes_other (st : Store) (i1 i2 k : N)
    (f1 g1 f2 g2 : Body -> Body) :
  k <> i1 -> k <> i2 ->
  alter g2 i2 (alter f2 i2 (alter g1 i1 (alter f1 i1 st))) !! k = st !! k.
Proof.
  intros Hk1 Hk2.
  rewrite !(lookup_alter_ne _ _ i2 k) by congruence.
  rewrite !(lookup_alter_ne _ _ i1 k) by congruence.
  reflexivity.
Qed.

(** C2.  [RopeJoint.solveVelocityConstraints] on a joint between two distinct
    bodies [b1] and [b2]: with [Cdot = u.(v2 - v1) + s2 w2 - s1 w1] and
    [dlambda = -em (Cdot + cdt)], the accumulator becomes
    [min(lambda_acc + dlambda, 0)] and nothing else of the joint changes; the
    clamped difference [delta] of the accumulator is what is applied, along
    [u], to the velocities of the two bodies ([-delta] times the inverse mass
    and [s1] times the inverse inertia on the first, [+delta] on the second);
    no other body changes; and the accumulator is not above zero after the
    call. *)
Theorem RopeJoint_solveVelocityConstraints_clamped
    (this : Joint) (st : Store) (b1 b2 : Body) :
  Joint.body1 this <> Joint.body2 this ->
  st !! Joint.body1 this = Some b1 ->
  st !! Joint.body2 this = Some b2 ->
  let Cdot := vec2.dot (Joint.u this) (vec2.sub (Body.v b2) (Body.v b1))
              + Joint.s2 this * Body.w b2 - Joint.s1 this * Body.w b1 in
  let dlambda := - Joint.em this * (Cdot + Joint.cdt this) in
  let acc := JS.Math_min (Joint.lambda_acc this + dlambda) 0 in
  let delta := acc - Joint.lambda_acc this in
  let j := vec2.scale (Joint.u this) delta in
  let this' := (RopeJoint.solveVelocityConstraints this st).1 in
  let st' := (RopeJoint.solveVelocityConstraints this st).2 in
  this' = Joint.set_lambda_acc this acc
  /\ st' !! Joint.body1 this =
       Some (Body.set_w
               (Body.set_v b1 (vec2.mad (Body.v b1) j (- Body.m_inv b1)))
               (Body.w b1 - Joint.s1 this * delta * Body.i_inv b1))
  /\ st' !! Joint.body2 this =
       Some (Body.set_w
               (Body.set_v b2 (vec2.mad (Body.v b2) j (Body.m_inv b2)))
               (Body.w b2 + Joint.s2 this * delta * Body.i_inv b2))
  /\ (forall k, k <> Joint.body1 this -> k <> Joint.body2 this ->
        st' !! k = st !! k)
  /\ JS.gt (Joint.lambda_acc this') 0 = false.
Proof.
  intros Hne Hb1 Hb2 Cdot dlambda acc delta j this' st'.
  subst this' st'. unfold RopeJoint.solveVelocityConstraints.
  rewrite (lookup_total_correct _ _ _ Hb1), (lookup_total_correct _ _ _ Hb2).
  cbn [fst snd Joint.set_lambda_acc Joint.lambda_acc Joint.u Joint.s1 Joint.s2
       Joint.body1 Joint.body2].
  fold Cdot. fold dlambda. fold acc. fold delta. fold j.
  repeat split.
  - rewrite (lookup_four_writes_1 _ _ _ _ _ _ _ b1 Hne Hb1). reflexivity.
  - rewrite (lookup_four_writes_2 _ _ _ _ _ _ _ b2 Hne Hb2). reflexivity.
  - intros k Hk1 Hk2. now apply lookup_four_writes_other.
  - apply Math_min_zero_not_positive.
Qed.

(** C3.  [RopeJoint.initSolver] with time step [dt] on a joint whose bodies
    are [b1] and [b2]: with [distance] the length of the vector between the
    two world anchors and [C = distance - maxDistance], the joint records
    [distance]; when [C > 0] the limit state is [AT_UPPER] and [cdt] is 0;
    when [C <= 0] the limit state is [INACTIVE] and [cdt] is [C / dt]; and
    when [distance] is below [Joint.LINEAR_SLOP] the direction [u] is the
    zero vector.  This holds with and without warm starting. *)
Theorem RopeJoint_initSolver_limit_state
    (dt : float) (warmStarting : bool) (this : Joint) (st : Store)
    (b1 b2 : Body) :
  st !! Joint.body1 this = Some b1 ->
  st !! Joint.body2 this = Some b2 ->
  let r1 := vec2.rotate (vec2.sub (Joint.anchor1 this) (Body.centroid b1))
                        (Body.a b1) in
  let r2 := vec2.rotate (vec2.sub (Joint.anchor2 this) (Body.centroid b2))
                        (Body.a b2) in
  let distance :=
    vec2.length (vec2.sub (vec2.add (Body.p b2) r2) (vec2.add (Body.p b1) r1)) in
  let C := distance - Joint.maxDistance this in
  let this' := (RopeJoint.initSolver dt warmStarting this st).1 in
  Joint.distance this' = distance
  /\ (JS.gt C 0 = true ->
        Joint.limitState this' = Joint.LIMIT_STATE_AT_UPPER
        /\ Joint.cdt this' = 0)
  /\ ((C <=? 0) = true ->
        Joint.limitState this' = Joint.LIMIT_STATE_INACTIVE
        /\ Joint.cdt this' = C / dt)
  /\ ((distance <? Joint_LINEAR_SLOP) = true -> Joint.u this' = vec2.zero).
Proof.
  intros Hb1 Hb2 r1 r2 distance C this'.
  subst this'. unfold RopeJoint.initSolver.
  rewrite (lookup_total_correct _ _ _ Hb1), (lookup_total_correct _ _ _ Hb2).
  fold r1. fold r2. fold distance. fold C.
  assert (Hfst : forall (A B : Type) (c : bool) (x y : A) (p q : B),
             (if c then (x, p) else (y, q)).1 = if c then x else y)
    by (intros ? ? []; reflexivity).
  rewrite Hfst. clear Hfst.
  destruct warmStarting; cbn [Joint.distance Joint.limitState Joint.cdt Joint.u];
    (split; [reflexivity|]); (split; [|split]).
  all: try (intros ->; split; reflexivity).
  all: try (intros Hle; rewrite (float_leb_not_gt _ _ Hle); split; reflexivity).
  all: intros Hlt; rewrite (float_ltb_not_gt _ _ Hlt); reflexivity.
Qed.

End rope_joint.

(** The call at a concrete joint: a taut rope along the x axis whose second
    body moves away at speed 2.  The accumulator goes from 0 to -1 and each
    body ends with velocity 1 along x. *)
Lemma RopeJoint_solveVelocityConstraints_clamped_witness :
  let this := Demo.rope 0 0 1 2 in
  let b1 := Demo.ball 0 0 0 in
  let b2 := Body.set_v (Demo.ball 1 2 0) (vec2.mk 2 0) in
  let st : Store := <[1%N := b2]> (<[0%N := b1]> ∅) in
  JS.gt (Joint.lambda_acc (RopeJoint.solveVelocityConstraints this st).1) 0 = false
  /\ Joint.lambda_acc (RopeJoint.solveVelocityConstraints this st).1 = (-1)%float
  /\ Body.v <$> (RopeJoint.solveVelocityConstraints this st).2 !! 0%N
     = Some (vec2.mk 1 0)
  /\ Body.v <$> (RopeJoint.solveVelocityConstraints this st).2 !! 1%N
     = Some (vec2.mk 1 0).
Proof.
  intros this b1 b2 st.
  split; [| vm_compute; repeat split].
  apply (RopeJoint_solveVelocityConstraints_clamped this st b1 b2);
    [ vm_compute; discriminate | reflexivity | reflexivity ].
Defined.

(** The call at three concrete joints.  A rope of length 2 whose anchors
    are 2 apart ([C = 0]) is reported slack with [cdt = 0 / dt = 0]; with the
    anchors 3 apart ([C = 1]) the limit is at its upper bound; with the
    anchors at the same point the direction is the zero vector. *)
Lemma RopeJoint_initSolver_limit_state_witness :
  let this := Demo.rope 0 0 1 2 in
  let slack : Store := <[1%N := Demo.ball 1 2 0]> (<[0%N := Demo.ball 0 0 0]> ∅) in
  let taut : Store := <[1%N := Demo.ball 1 3 0]> (<[0%N := Demo.ball 0 0 0]> ∅) in
  let point : Store := <[1%N := Demo.ball 1 0 0]> (<[0%N := Demo.ball 0 0 0]> ∅) in
  (Joint.distance (RopeJoint.initSolver (1 / 60) true this slack).1 = 2%float
   /\ Joint.limitState (RopeJoint.initSolver (1 / 60) true this slack).1
      = Joint.LIMIT_STATE_INACTIVE
   /\ Joint.cdt (RopeJoint.initSolver (1 / 60) true this slack).1 = 0%float)
  /\ (Joint.limitState (RopeJoint.initSolver (1 / 60) true this taut).1
      = Joint.LIMIT_STATE_AT_UPPER
      /\ Joint.cdt (RopeJoint.initSolver (1 / 60) true this taut).1 = 0%float)
  /\ Joint.u (RopeJoint.initSolver (1 / 60) false this point).1 = vec2.zero.
Proof.
  intros this slack taut point.
  destruct (RopeJoint_initSolver_limit_state (1 / 60) true this slack
              (Demo.ball 0 0 0) (Demo.ball 1 2 0) eq_refl eq_refl)
    as (Hd & _ & Hslack & _).
  destruct (RopeJoint_initSolver_limit_state (1 / 60) true this taut
              (Demo.ball 0 0 0) (Demo.ball 1 3 0) eq_refl eq_refl)
    as (_ & Htaut & _ & _).
  destruct (RopeJoint_initSolver_limit_state (1 / 60) false this point
              (Demo.ball 0 0 0) (Demo.ball 1 0 0) eq_refl eq_refl)
    as (_ & _ & _ & Hpoint).
  split; [|split].
  - split; [rewrite Hd; vm_compute; reflexivity|].
    destruct Hslack as [-> ->]; [vm_compute; reflexivity|].
    split; vm_compute; reflexivity.
  - apply Htaut. vm_compute. reflexivity.
  - apply Hpoint. vm_compute. reflexivity.
Defined.

(** C6.  [RopeJoint.solvePositionConstraints] on coincident anchors.  Two
    balls of unit mass and inertia lie at the same point and a rope joint is
    anchored at their centroids, so that the two world anchors coincide (a
    rope made there has [maxDistance = 0]).  The call divides by the zero
    distance: [1 / dist] is infinite, [u = d * (1 / dist)] is NaN in both
    components, and the positions and angles of both bodies are NaN after the
    call, which still reports the constraint as satisfied.  [initSolver] on
    the same input takes the direction as zero and leaves both velocities as
    they are. *)
Lemma RopeJoint_solvePositionConstraints_coincident_nan :
  let this := Demo.rope 0 0 1 0 in
  let st : Store := <[1%N := Demo.ball 1 0 0]> (<[0%N := Demo.ball 0 0 0]> ∅) in
  let after := RopeJoint.solvePositionConstraints this st in
  Joint.maxDistance
    (RopeJoint.new 0 (Demo.ball 0 0 0) (Demo.ball 1 0 0) vec2.zero vec2.zero)
    = 0%float
  /\ after.1 = true
  /\ Body.p <$> after.2.2 !! 0%N = Some (vec2.mk nan nan)
  /\ Body.a <$> after.2.2 !! 0%N = Some nan
  /\ Body.p <$> after.2.2 !! 1%N = Some (vec2.mk nan nan)
  /\ Body.a <$> after.2.2 !! 1%N = Some nan
  /\ Joint.u (RopeJoint.initSolver (1 / 60) true this st).1 = vec2.zero
  /\ Body.v <$> (RopeJoint.initSolver (1 / 60) true this st).2 !! 0%N
     = Some vec2.zero
  /\ Body.v <$> (RopeJoint.initSolver (1 / 60) true this st).2 !! 1%N
     = Some vec2.zero.
Proof. vm_compute. repeat split. Qed.

(** ** Iterating a hash *)

Section iteration.
Context {A : Type}.

Lemma keys_Permutation (m : gmap N A) : keys m ≡ₚ elements (dom m).
Proof. unfold keys. apply merge_sort_Permutation. Qed.

Lemma keys_NoDup (m : gmap N A) : NoDup (keys m).
Proof. rewrite keys_Permutation. apply NoDup_elements. Qed.

Lemma elem_of_keys (m : gmap N A) (i : N) : i ∈ keys m <-> is_Some (m !! i).
Proof.
  rewrite keys_Permutation, elem_of_elements. apply elem_of_dom.
Qed.

Lemma keys_empty : keys (∅ : gmap N A) = [].
Proof.
  apply Permutation_nil_r. rewrite keys_Permutation, dom_empty_L, elements_empty.
  reflexivity.
Qed.

Lemma elem_of_values (m : gmap N A) (a : A) :
  a ∈ values m <-> exists i, m !! i = Some a.
Proof.
  unfold values. rewrite list_elem_of_omap. split.
  - intros (i & _ & Hi). eauto.
  - intros (i & Hi). exists i. split; [|assumption].
    apply elem_of_keys. eauto.
Qed.

(** A property of the loop state that every turn keeps holds after the
    loop. *)
Lemma for_in_invariant {S : Type} (get : S -> gmap N A)
    (body : N -> A -> S -> S) (P : S -> Prop) (s : S) :
  P s ->
  (forall i a s, P s -> get s !! i = Some a -> P (body i a s)) ->
  P (for_in get body s).
Proof.
  intros Hs Hbody. unfold for_in. generalize (keys (get s)) as l.
  intros l. revert s Hs. induction l as [|i l IH]; intros s Hs; simpl.
  - exact Hs.
  - apply IH. destruct (get s !! i) eqn:E; [now apply Hbody | exact Hs].
Qed.

End iteration.

Section body_loops.
Context {host : Host} {opaque : Opaque} {extern : Extern}.

(** The loop over a list of keys that rewrites the body under each key. *)
Lemma rewrite_bodies_lookup (f : Body -> Body) (l : list N) (this : Space) :
  NoDup l ->
  let this' :=
    foldl (fun s i => match Space.bodyHash s !! i with
                      | Some a => Space.set_bodyHash s (<[i := f a]> (Space.bodyHash s))
                      | None => s
                      end) this l in
  this' = Space.set_bodyHash this (Space.bodyHash this')
  /\ forall j, Space.bodyHash this' !! j =
               if decide (j ∈ l) then f <$> Space.bodyHash this !! j
               else Space.bodyHash this !! j.
Proof.
  intros Hnd. revert this. induction Hnd as [|i l Hi Hnd IH]; intros this; simpl.
  - split; [now destruct this|]. intros j.
    destruct (decide (j ∈ [])) as [Hin|_]; [|reflexivity].
    now apply elem_of_nil in Hin.
  - specialize (IH (match Space.bodyHash this !! i with
                    | Some a => Space.set_bodyHash this
                                  (<[i := f a]> (Space.bodyHash this))
                    | None => this
                    end)).
    simpl in IH. destruct IH as [IH1 IH2]. split.
    + rewrite IH1 at 1. destruct (Space.bodyHash this !! i); reflexivity.
    + intros j. rewrite IH2.
      destruct (decide (j = i)) as [->|Hne].
      * rewrite (decide_False (P := i ∈ l)) by assumption.
        rewrite (decide_True (P := i ∈ i :: l)) by (apply elem_of_cons; now left).
        destruct (Space.bodyHash this !! i) eqn:E; simpl.
        -- now rewrite lookup_insert_eq.
        -- now rewrite E.
      * assert (Hl : Space.bodyHash
                  (match Space.bodyHash this !! i with
                   | Some a => Space.set_bodyHash this
                                 (<[i := f a]> (Space.bodyHash this))
                   | None => this
                   end) !! j = Space.bodyHash this !! j).
        { destruct (Space.bodyHash this !! i); simpl; [|reflexivity].
          now rewrite lookup_insert_ne. }
        rewrite Hl.
        destruct (decide (j ∈ l)) as [Hin|Hnin].
        -- rewrite decide_True by (apply elem_of_cons; now right).
           reflexivity.
        -- rewrite decide_False; [reflexivity|].
           intros Hin. apply elem_of_cons in Hin as [?|?]; congruence.
Qed.

(** [each_body f] rewrites every registered body by [f] and nothing else. *)
Lemma each_body_fmap (f : Body -> Body) (this : Space) :
  Space.each_body f this = Space.set_bodyHash this (f <$> Space.bodyHash this).
Proof.
  unfold Space.each_body, for_in.
  destruct (rewrite_bodies_lookup f (keys (Space.bodyHash this)) this
              (keys_NoDup _)) as [E1 E2].
  simpl in E1, E2. rewrite E1. f_equal. apply map_eq. intros j.
  rewrite E2, lookup_fmap.
  destruct (decide (j ∈ keys (Space.bodyHash this))) as [Hin|Hnin];
    [reflexivity|].
  destruct (Space.bodyHash this !! j) eqn:E; [|reflexivity].
  exfalso. apply Hnin, elem_of_keys. eauto.
Qed.

End body_loops.

(** ** Arithmetic with zeros *)

Section float_zeros.
Local Open Scope float_scope.

Lemma float_is_finite_spec (a : float) :
  is_finite a = true ->
  (exists s, Prim2SF a = S754_zero s)
  \/ (exists s m e, Prim2SF a = S754_finite s m e).
Proof.
  unfold is_finite, is_infinity. intros Hf.
  apply negb_true_iff, orb_false_iff in Hf as [Hn Hi].
  rewrite FloatAxioms.eqb_spec, abs_spec in Hi.
  destruct (Prim2SF a) as [s|s| |s m e] eqn:E.
  - left. eauto.
  - exfalso. revert Hi. vm_compute. discriminate.
  - exfalso. apply float_is_nan_spec in E. congruence.
  - right. eauto.
Qed.

Lemma float_mul_finite_zero (a z : float) (s : bool) :
  is_finite a = true -> Prim2SF z = S754_zero s ->
  exists s', Prim2SF (a * z) = S754_zero s'.
Proof.
  intros Hf Hz. rewrite mul_spec, Hz. unfold SF64mul.
  destruct (float_is_finite_spec a Hf) as [[sa ->]|(sa & m & e & ->)];
    simpl; eauto.
Qed.

Lemma float_mul_zero_finite (a z : float) (s : bool) :
  is_finite a = true -> Prim2SF z = S754_zero s ->
  exists s', Prim2SF (z * a) = S754_zero s'.
Proof.
  intros Hf Hz. rewrite mul_spec, Hz. unfold SF64mul.
  destruct (float_is_finite_spec a Hf) as [[sa ->]|(sa & m & e & ->)];
    simpl; eauto.
Qed.

Lemma float_zero_add_zero (z : float) (s : bool) :
  Prim2SF z = S754_zero s -> 0 + z = 0.
Proof.
  intros Hz. apply Prim2SF_inj. rewrite add_spec, Hz.
  destruct s; reflexivity.
Qed.

(** Adding a zero leaves a number as it is, except that the sum of two
    zeros is a zero whose sign may differ. *)
Lemma float_add_zero (a z : float) (s : bool) :
  Prim2SF z = S754_zero s ->
  a + z = a
  \/ (exists sa s', Prim2SF a = S754_zero sa /\ Prim2SF (a + z) = S754_zero s').
Proof.
  intros Hz. destruct (Prim2SF a) as [sa|sa| |sa m e] eqn:E.
  - right. exists sa. rewrite add_spec, Hz, E.
    destruct sa, s; simpl; eauto.
  - left. apply Prim2SF_inj. rewrite add_spec, Hz, E. reflexivity.
  - left. apply Prim2SF_inj. rewrite add_spec, Hz, E. reflexivity.
  - left. apply Prim2SF_inj. rewrite add_spec, Hz, E. reflexivity.
Qed.

(** The products of a number with two zeros are the same number. *)
Lemma float_mul_zeros (k a b : float) (sa sb : bool) :
  Prim2SF a = S754_zero sa -> Prim2SF b = S754_zero sb ->
  JS.same_number (k * a) (k * b).
Proof.
  intros Ha Hb. unfold JS.same_number.
  destruct (Prim2SF k) as [sk|sk| |sk m e] eqn:E.
  - right. rewrite FloatAxioms.eqb_spec, !mul_spec, Ha, Hb, E. reflexivity.
  - left. apply Prim2SF_inj. rewrite !mul_spec, Ha, Hb, E. reflexivity.
  - left. apply Prim2SF_inj. rewrite !mul_spec, Ha, Hb, E. reflexivity.
  - right. rewrite FloatAxioms.eqb_spec, !mul_spec, Ha, Hb, E. reflexivity.
Qed.

(** With a zero increment, [k * (a + dt * z)] is the number [k * a]. *)
Lemma float_damped_zero_increment (k a dt z : float) (s : bool) :
  is_finite dt = true -> Prim2SF z = S754_zero s ->
  JS.same_number (k * (a + dt * z)) (k * a).
Proof.
  intros Hdt Hz.
  destruct (float_mul_finite_zero dt z s Hdt Hz) as [s' Hz'].
  destruct (float_add_zero a (dt * z) s' Hz') as [->|(sa & s'' & Ha & Hs)].
  - now left.
  - eapply float_mul_zeros; eassumption.
Qed.

End float_zeros.

(** ** Velocity integration and damping *)

Section damping.
Context {host : Host} {opaque : Opaque} {extern : Extern}.
Local Open Scope float_scope.

(** The velocity block of [step] rewrites each body on its own. *)
Lemma integrateVelocity_lookup (dt : float) (this : Space) (i : N) :
  Space.bodyHash (Space.integrateVelocity dt this) !! i =
  (fun body => if Body.isDynamic body && Body.isAwake body
               then Body.updateVelocity (Space.gravity this)
                      (Space.dampingFactor dt this) dt body
               else body) <$> Space.bodyHash this !! i.
Proof.
  unfold Space.integrateVelocity. rewrite each_body_fmap. simpl.
  now rewrite lookup_fmap.
Qed.

(** C9, as the code has it.  In the velocity block of [step], with no
    gravity, every awake dynamic body that carries no force and no torque
    (time step, inverse mass and inverse inertia finite) has each component
    of its velocity and its angular velocity multiplied by the factor [k]
    that is [Math.pow(damping, dt)] when the damping coefficient of the
    Space is below 1, and exactly 1 when it is not.  The products are equal
    as numbers: a zero may come out with the other sign. *)
Theorem Space_integrateVelocity_damping_factor
    (dt : float) (this : Space) (i : N) (b : Body) :
  Space.bodyHash this !! i = Some b ->
  Body.isDynamic b = true -> Body.isAwake b = true ->
  Space.gravity this = vec2.zero ->
  Body.f b = vec2.zero -> Body.t_ b = 0 ->
  is_finite dt = true ->
  is_finite (Body.m_inv b) = true -> is_finite (Body.i_inv b) = true ->
  let k := Space.dampingFactor dt this in
  ((Space.damping this <? 1) = true -> k = Math_pow (Space.damping this) dt)
  /\ ((Space.damping this <? 1) = false -> k = 1)
  /\ exists b', Space.bodyHash (Space.integrateVelocity dt this) !! i = Some b'
       /\ JS.same_number (vec2.x (Body.v b')) (k * vec2.x (Body.v b))
       /\ JS.same_number (vec2.y (Body.v b')) (k * vec2.y (Body.v b))
       /\ JS.same_number (Body.w b') (k * Body.w b).
Proof.
  intros Hb Hdyn Hawake Hg Hf Ht Hdt Hm Hi k. subst k.
  split; [|split].
  - unfold Space.dampingFactor. now intros ->.
  - unfold Space.dampingFactor. now intros ->.
  - rewrite integrateVelocity_lookup, Hb. simpl. rewrite Hdyn, Hawake. simpl.
    eexists. split; [reflexivity|].
    unfold Body.updateVelocity. rewrite Hg, Hf, Ht. simpl.
    destruct (float_mul_zero_finite (Body.m_inv b) 0 false Hm eq_refl)
      as [s1 Hz1].
    rewrite (float_zero_add_zero _ _ Hz1).
    destruct (float_mul_zero_finite (Body.i_inv b) 0 false Hi eq_refl)
      as [s2 Hz2].
    repeat split.
    + now apply (float_damped_zero_increment _ _ _ _ false).
    + now apply (float_damped_zero_increment _ _ _ _ false).
    + now apply (float_damped_zero_increment _ _ _ _ s2).
Qed.

End damping.

(** The ball of [Demo.overdamped], with a damping coefficient of 0.5
    instead: over a step of 1 its velocity (1, 0) becomes (0.5, 0). *)
Lemma Space_integrateVelocity_damping_factor_witness :
  let this := Space.mk _ (Space.bodyHash Demo.overdamped) 1 ∅ 0 [] 0
                vec2.zero 0.5%float (Some 0%float) in
  exists b',
    Space.bodyHash (Space.integrateVelocity 1%float this) !! 0%N = Some b'
    /\ JS.same_number (vec2.x (Body.v b')) (0.5 * 1)%float.
Proof.
  intros this.
  destruct (Space_integrateVelocity_damping_factor 1%float this 0
              (Body.set_w (Body.set_v (Demo.ball 0 0 0) (vec2.mk 1 0)) 1))
    as (Hk & _ & b' & Hb' & Hx & _); try reflexivity.
  exists b'. split; [exact Hb'|]. rewrite Hk in Hx by reflexivity. exact Hx.
Defined.

(** C9 as stated fails when the damping coefficient is 1 or more.  With a
    coefficient of 2 and a step of 1, [damping ^ dt] is 2, and the ball that
    spins at 1 and moves at (1, 0) leaves the velocity block as it entered
    it: its angular velocity is not the number 2 * 1. *)
Lemma Space_integrateVelocity_damping_above_one :
  ~ (exists b',
       Space.bodyHash (Space.integrateVelocity 1%float Demo.overdamped) !! 0%N
         = Some b'
       /\ JS.same_number (Body.w b')
            (Math_pow (Space.damping Demo.overdamped) 1 * 1)%float).
Proof.
  intros (b' & Hb' & Hw).
  assert (E : Space.bodyHash (Space.integrateVelocity 1%float Demo.overdamped)
                !! 0%N
              = Some (Body.set_w (Body.set_v (Demo.ball 0 0 0) (vec2.mk 1 0)) 1))
    by (vm_compute; reflexivity).
  rewrite E in Hb'. injection Hb' as <-.
  destruct Hw as [Hw|Hw].
  - apply (f_equal (fun a => (a =? 1)%float)) in Hw. vm_compute in Hw.
    discriminate.
  - vm_compute in Hw. discriminate.
Qed.

(** ** Sleep accounting *)

Section sleep.
Context {host : Host} {opaque : Opaque} {extern : Extern}.
Local Open Scope float_scope.

(** What the loop of "Process sleeping" makes of a body does not depend on
    [minSleepTime]. *)
Lemma sleepAccount_body (dt : float) (b : Body) (m : float) :
  (Space.sleepAccount dt b m).1 = (Space.sleepAccount dt b 0).1.
Proof.
  unfold Space.sleepAccount. destruct (negb (Body.isDynamic b)); [reflexivity|].
  destruct (JS.gt _ _ || JS.gt _ _); reflexivity.
Qed.

Lemma omap_lookup_insert_notin (i : N) (a : Body) (m : gmap N Body) (l : list N) :
  i ∉ l -> omap (M := list) (fun j => <[i := a]> m !! j) l = omap (M := list) (fun j => m !! j) l.
Proof.
  induction l as [|j l IH]; intros Hi; [reflexivity|].
  apply not_elem_of_cons in Hi as [Hne Hi]. simpl.
  rewrite lookup_insert_ne by congruence.
  destruct (m !! j); [f_equal|]; now apply IH.
Qed.

(** The loop over a list of keys: the bodies are rewritten one by one and
    [minSleepTime] is folded over them in the same order. *)
Lemma sleepAccounting_fold (dt : float) (l : list N) :
  NoDup l -> forall (this : Space) (m : float),
  foldl (fun (s : Space * float) i =>
           match Space.bodyHash s.1 !! i with
           | Some body =>
               let '(this, minSleepTime) := s in
               let '(body, minSleepTime) :=
                 Space.sleepAccount dt body minSleepTime in
               (Space.set_bodyHash this (<[i := body]> (Space.bodyHash this)),
                minSleepTime)
           | None => s
           end) (this, m) l
  = (foldl (fun s i =>
              match Space.bodyHash s !! i with
              | Some a => Space.set_bodyHash s
                            (<[i := (Space.sleepAccount dt a 0).1]> (Space.bodyHash s))
              | None => s
              end) this l,
     foldl (fun m b => (Space.sleepAccount dt b m).2) m
           (omap (M := list) (fun i => Space.bodyHash this !! i) l)).
Proof.
  induction 1 as [|i l Hi Hnd IH]; intros this m; [reflexivity|].
  cbn [foldl fst].
  change (omap (M := list) (fun i0 => Space.bodyHash this !! i0) (i :: l))
    with (match Space.bodyHash this !! i with
          | Some a => a :: omap (M := list) (fun i0 => Space.bodyHash this !! i0) l
          | None => omap (M := list) (fun i0 => Space.bodyHash this !! i0) l
          end).
  destruct (Space.bodyHash this !! i) as [a|] eqn:E.
  - destruct (Space.sleepAccount dt a m) as [a' m'] eqn:Ea.
    rewrite IH. cbn [Space.bodyHash Space.set_bodyHash foldl].
    rewrite omap_lookup_insert_notin by assumption.
    replace a' with (Space.sleepAccount dt a m).1 by now rewrite Ea.
    replace m' with (Space.sleepAccount dt a m).2 by now rewrite Ea.
    rewrite sleepAccount_body. reflexivity.
  - apply IH.
Qed.

(** The loop of "Process sleeping" as a whole. *)
Lemma sleepAccounting_spec (dt : float) (this : Space) :
  Space.sleepAccounting dt this
  = (Space.set_bodyHash this
       ((fun b => (Space.sleepAccount dt b 0).1) <$> Space.bodyHash this),
     foldl (fun m b => (Space.sleepAccount dt b m).2) 999999
           (values (Space.bodyHash this))).
Proof.
  unfold Space.sleepAccounting, for_in. cbn [fst].
  rewrite (sleepAccounting_fold dt _ (keys_NoDup _)).
  f_equal.
  change (Space.each_body (fun b => (Space.sleepAccount dt b 0).1) this = 
          Space.set_bodyHash this
            ((fun b => (Space.sleepAccount dt b 0).1) <$> Space.bodyHash this)).
  apply each_body_fmap.
Qed.

(** When every dynamic body comes out of the accounting with a [sleepTime]
    of [TIME_TO_SLEEP] or more, so does [minSleepTime]. *)
Lemma minSleepTime_bound (dt : float) (l : list Body) (m : float) :
  (Space.TIME_TO_SLEEP <=? m) = true ->
  (forall b, b ∈ l -> Body.isDynamic b = true ->
     (Space.TIME_TO_SLEEP <=? Body.sleepTime (Space.sleepAccount dt b 0).1) = true) ->
  (Space.TIME_TO_SLEEP
   <=? foldl (fun m b => (Space.sleepAccount dt b m).2) m l) = true.
Proof.
  revert m. induction l as [|b l IH]; intros m Hm Hall; [exact Hm|].
  simpl. apply IH.
  - assert (Hb := Hall b (list_elem_of_here _ _)).
    unfold Space.sleepAccount in *.
    destruct (Body.isDynamic b); simpl in *; [|exact Hm].
    specialize (Hb eq_refl).
    destruct (JS.gt _ _ || JS.gt _ _); simpl in *.
    + revert Hb. vm_compute. discriminate.
    + now apply Math_min_glb.
  - intros b' Hb'. apply Hall. now apply list_elem_of_further.
Qed.

(** The test of the loop of "Process sleeping" on a body. *)
Local Abbreviation moving b :=
  (JS.gt (Body.w b * Body.w b)
         (Space.SLEEP_ANGULAR_TOLERANCE * Space.SLEEP_ANGULAR_TOLERANCE)
   || JS.gt (vec2.dot (Body.v b) (Body.v b))
            (Space.SLEEP_LINEAR_TOLERANCE * Space.SLEEP_LINEAR_TOLERANCE)).

(** A body that does not keep the world awake: it is not dynamic, or it was
    not reset and has been quiet for [TIME_TO_SLEEP] or more. *)
Local Abbreviation rested dt b :=
  (negb (Body.isDynamic b)
   || (negb (moving b)
       && JS.ge (Body.sleepTime b + dt) Space.TIME_TO_SLEEP)).

Lemma sleepAccount_accounted (dt : float) (b : Body) (m : float) :
  (Space.sleepAccount dt b m).1
  = if Body.isDynamic b
    then Body.set_sleepTime b (if moving b then 0 else Body.sleepTime b + dt)
    else b.
Proof.
  unfold Space.sleepAccount. destruct (Body.isDynamic b); [|reflexivity].
  cbn [negb]. now destruct (moving b).
Qed.

(** [minSleepTime] is [TIME_TO_SLEEP] or more at the end of the loop exactly
    when it was at the start and every body met is rested. *)
Lemma minSleepTime_rested (dt : float) (l : list Body) (m : float) :
  JS.ge (foldl (fun m b => (Space.sleepAccount dt b m).2) m l)
        Space.TIME_TO_SLEEP
  = JS.ge m Space.TIME_TO_SLEEP && forallb (fun b => rested dt b) l.
Proof.
  revert m. induction l as [|b l IH]; intros m; cbn [foldl forallb].
  - now rewrite andb_true_r.
  - rewrite IH. unfold Space.sleepAccount.
    destruct (Body.isDynamic b); cbn [negb orb fst snd]; [|reflexivity].
    destruct (moving b); cbn [negb andb snd].
    + change (JS.ge 0 Space.TIME_TO_SLEEP) with false.
      now rewrite andb_false_r.
    + cbn [Body.sleepTime Body.set_sleepTime]. unfold JS.ge.
      rewrite Math_min_leb. now rewrite andb_assoc.
Qed.

(** C5, as the code has it.  A call of [step] with [allowSleep] set, on the
    Space as the solvers leave it.  A dynamic body is moving when
    [w * w > angTol^2] or [v . v > linTol^2]; it is not when
    [w * w <= angTol^2] and [v . v <= linTol^2], and neither when one of
    the two squares is NaN and the other is not above its tolerance.  The
    [sleepTime] of a dynamic body that is moving is zero when
    the call returns, and [minSleepTime] is set to zero in its turn,
    whatever it was; the [sleepTime] of a dynamic body that is not moving
    has grown by [dt].  When the position solver reported solved and every
    dynamic body is not moving and has a new [sleepTime] of [TIME_TO_SLEEP]
    or more, every body of the Space, dynamic or not, gets [awake(false)]
    after the accounting and is asleep when the call returns.  In every
    other case (the solver did not report solved, a dynamic body is moving,
    which sets the minimum to zero, or a dynamic body has not been quiet
    for [TIME_TO_SLEEP]) no body is put to sleep: the bodies are as the
    accounting left them. *)
Theorem Space_step_sleep_accounting
    (dt : float) (vel_iteration pos_iteration : Z) (warmStarting : bool)
    (g : Globals) (this : Space) :
  let positionSolved :=
    (Space.stepSolve dt vel_iteration pos_iteration warmStarting g this).1 in
  let solved :=
    (Space.stepSolve dt vel_iteration pos_iteration warmStarting g this).2.2 in
  let final :=
    (Space.step dt vel_iteration pos_iteration warmStarting true g this).2 in
  let linTolSqr :=
    Space.SLEEP_LINEAR_TOLERANCE * Space.SLEEP_LINEAR_TOLERANCE in
  let angTolSqr :=
    Space.SLEEP_ANGULAR_TOLERANCE * Space.SLEEP_ANGULAR_TOLERANCE in
  let moving b :=
    JS.gt (Body.w b * Body.w b) angTolSqr
    || JS.gt (vec2.dot (Body.v b) (Body.v b)) linTolSqr in
  let accounted b :=
    if Body.isDynamic b
    then Body.set_sleepTime b (if moving b then 0 else Body.sleepTime b + dt)
    else b in
  let rested b :=
    negb (Body.isDynamic b)
    || (negb (moving b)
        && JS.ge (Body.sleepTime b + dt) Space.TIME_TO_SLEEP) in
  (forall b,
     (Body.w b * Body.w b <=? angTolSqr) = true ->
     (vec2.dot (Body.v b) (Body.v b) <=? linTolSqr) = true ->
     moving b = false)
  /\ (forall i b,
        Space.bodyHash solved !! i = Some b -> Body.isDynamic b = true ->
        Body.sleepTime <$> Space.bodyHash final !! i
          = Some (if moving b then 0 else Body.sleepTime b + dt))
  /\ (forall b minSleepTime,
        Body.isDynamic b = true -> moving b = true ->
        (Space.sleepAccount dt b minSleepTime).2 = 0)
  /\ (positionSolved = true ->
      (forall i b, Space.bodyHash solved !! i = Some b -> rested b = true) ->
      (forall i, Space.bodyHash final !! i
                 = (fun b => Body.awake false (accounted b))
                     <$> Space.bodyHash solved !! i)
      /\ forall i b', Space.bodyHash final !! i = Some b' ->
                      Body.isAwake b' = false)
  /\ (positionSolved = false
      \/ (exists i b, Space.bodyHash solved !! i = Some b /\ rested b = false) ->
      forall i, Space.bodyHash final !! i
                = accounted <$> Space.bodyHash solved !! i).
Proof.
  intros positionSolved solved final linTolSqr angTolSqr moving accounted rested.
  subst positionSolved solved final. unfold Space.step.
  destruct (Space.stepSolve dt vel_iteration pos_iteration warmStarting g this)
    as [positionSolved [g' solved]].
  cbn [fst snd]. unfold Space.processSleep.
  rewrite sleepAccounting_spec.
  set (m := foldl _ _ _).
  assert (Hm : JS.ge m Space.TIME_TO_SLEEP
               = forallb rested (values (Space.bodyHash solved))).
  { subst m. rewrite minSleepTime_rested. reflexivity. }
  rewrite Hm.
  assert (Hall : forallb rested (values (Space.bodyHash solved)) = true
                 <-> forall i b, Space.bodyHash solved !! i = Some b ->
                                 rested b = true).
  { rewrite forallb_forall. split.
    - intros H i b Hb. apply H, list_elem_of_In, elem_of_values. eauto.
    - intros H b Hb. apply list_elem_of_In, elem_of_values in Hb as [i Hi].
      eauto. }
  split; [|split; [|split; [|split]]].
  - intros b Hw Hv. subst moving. cbv beta.
    now rewrite (float_leb_not_gt _ _ Hw), (float_leb_not_gt _ _ Hv).
  - intros i b Hb Hdyn.
    destruct (positionSolved && forallb rested (values (Space.bodyHash solved))).
    + rewrite each_body_fmap. cbn [Space.bodyHash Space.set_bodyHash].
      rewrite !lookup_fmap, Hb. cbn [fmap option_fmap option_map].
      rewrite sleepAccount_accounted, Hdyn. reflexivity.
    + cbn [Space.bodyHash Space.set_bodyHash].
      rewrite !lookup_fmap, Hb. cbn [fmap option_fmap option_map].
      rewrite sleepAccount_accounted, Hdyn. reflexivity.
  - intros b minSleepTime Hdyn Hmoving. unfold Space.sleepAccount.
    rewrite Hdyn. cbn [negb]. subst moving. cbv beta in Hmoving.
    subst angTolSqr linTolSqr. rewrite Hmoving. reflexivity.
  - intros -> Hrested. apply Hall in Hrested. rewrite Hrested. cbn [andb].
    rewrite each_body_fmap. cbn [Space.bodyHash Space.set_bodyHash].
    split.
    + intros i. rewrite !lookup_fmap.
      destruct (Space.bodyHash solved !! i); [|reflexivity].
      cbn [fmap option_fmap option_map]. now rewrite sleepAccount_accounted.
    + intros i b'. rewrite !lookup_fmap.
      destruct (Space.bodyHash solved !! i); [|discriminate].
      cbn [fmap option_fmap option_map]. now intros [= <-].
  - intros Hnot.
    assert (E : positionSolved
                && forallb rested (values (Space.bodyHash solved)) = false).
    { destruct Hnot as [->|(i & b & Hb & Hr)]; [reflexivity|].
      apply andb_false_iff. right. apply not_true_iff_false. intros H.
      rewrite (proj1 Hall H i b Hb) in Hr. discriminate. }
    rewrite E. cbn [Space.bodyHash Space.set_bodyHash]. intros i.
    rewrite lookup_fmap.
    destruct (Space.bodyHash solved !! i); [|reflexivity].
    cbn [fmap option_fmap option_map]. now rewrite sleepAccount_accounted.
Qed.

End sleep.

(** A quiet ball that has been at rest for 0.49 s is asleep after a step of
    1/60 s; a ball that is not at rest restarts from zero and stays awake. *)
Lemma Space_step_sleep_accounting_witness :
  Body.isAwake <$>
    Space.bodyHash
      (Space.step (1 / 60) 8 3 true true Demo.globals0 Demo.drowsy).2 !! 0%N
    = Some false
  /\ Body.sleepTime <$>
       Space.bodyHash
         (Space.step 1 8 3 true true Demo.globals0 Demo.overdamped).2 !! 0%N
     = Some 0%float
  /\ Body.isAwake <$>
       Space.bodyHash
         (Space.step 1 8 3 true true Demo.globals0 Demo.overdamped).2 !! 0%N
     = Some true.
Proof.
  pose proof (Space_step_sleep_accounting (1 / 60) 8 3 true Demo.globals0
                Demo.drowsy) as (_ & _ & _ & Hsleep & _).
  pose proof (Space_step_sleep_accounting 1 8 3 true Demo.globals0
                Demo.overdamped) as (_ & Hacc & _ & _ & Hawake).
  cbv zeta in *. split; [|split].
  - destruct (Space.bodyHash
                (Space.step (1 / 60) 8 3 true true Demo.globals0 Demo.drowsy).2
              !! 0%N) as [b'|] eqn:E; [|revert E; vm_compute; discriminate].
    simpl. f_equal.
    assert (Hs : (Space.stepSolve (1 / 60) 8 3 true Demo.globals0
                    Demo.drowsy).1 = true) by (vm_compute; reflexivity).
    destruct (Hsleep Hs) as [_ H]; [|exact (H 0%N b' E)].
    intros i b.
    replace (Space.bodyHash
               (Space.stepSolve (1 / 60) 8 3 true Demo.globals0
                  Demo.drowsy).2.2)
      with ({[ 0%N := Body.set_stepCount
                        (Body.set_sleepTime (Demo.ball 0 0 0) 0.49)
                        (Some 1%float) ]}
              : gmap N Body)
      by (vm_compute; reflexivity).
    intros [_ <-]%lookup_singleton_Some. vm_compute. reflexivity.
  - destruct (Space.bodyHash
                (Space.stepSolve 1 8 3 true Demo.globals0 Demo.overdamped).2.2
              !! 0%N) as [b|] eqn:E; [|revert E; vm_compute; discriminate].
    rewrite (Hacc 0%N b E); vm_compute in E; injection E as <-;
      vm_compute; reflexivity.
  - rewrite Hawake; [vm_compute; reflexivity|].
    right.
    destruct (Space.bodyHash
                (Space.stepSolve 1 8 3 true Demo.globals0 Demo.overdamped).2.2
              !! 0%N) as [b|] eqn:E; [|revert E; vm_compute; discriminate].
    exists 0%N, b. split; [exact E|].
    vm_compute in E. injection E as <-. vm_compute. reflexivity.
Defined.

(** C5 as stated fails.  A dynamic body whose angular velocity is NaN:
    [w * w <= angTol^2] does not hold, and yet its [sleepTime] is not reset
    to zero: it grows by [dt], and the body is put to sleep. *)
Lemma Space_step_sleep_nan_velocity :
  let solved :=
    (Space.stepSolve (1 / 60) 8 3 true Demo.globals0 Demo.giddy).2.2 in
  let final :=
    (Space.step (1 / 60) 8 3 true true Demo.globals0 Demo.giddy).2 in
  exists b b',
    Space.bodyHash solved !! 0%N = Some b
    /\ Space.bodyHash final !! 0%N = Some b'
    /\ Body.isDynamic b = true
    /\ (Body.w b * Body.w b
        <=? Space.SLEEP_ANGULAR_TOLERANCE * Space.SLEEP_ANGULAR_TOLERANCE)%float
       = false
    /\ Body.sleepTime b' = (Body.sleepTime b + 1 / 60)%float
    /\ (Body.sleepTime b' =? 0)%float = false
    /\ Body.isAwake b' = false.
Proof.
  cbv zeta.
  destruct (Space.bodyHash
              (Space.stepSolve (1 / 60) 8 3 true Demo.globals0 Demo.giddy).2.2
            !! 0%N) as [b|] eqn:E; [|revert E; vm_compute; discriminate].
  destruct (Space.bodyHash
              (Space.step (1 / 60) 8 3 true true Demo.globals0 Demo.giddy).2
            !! 0%N) as [b'|] eqn:E'; [|revert E'; vm_compute; discriminate].
  exists b, b'. vm_compute in E, E'. injection E as <-. injection E' as <-.
  repeat split; vm_compute; reflexivity.
Qed.

(** ** The registry of bodies and joints *)

Section registry.
Context {host : Host} {opaque : Opaque} {extern : Extern}.

(** The two counters agree with the two tables. *)
Local Abbreviation counted this :=
  (Space.numBodies this = Z.of_nat (size (Space.bodyHash this))
   /\ Space.numJoints this = Z.of_nat (size (Space.jointHash this))).

Lemma map_size_lookup_Some {A : Type} (m : gmap N A) (i : N) (a : A) :
  m !! i = Some a -> size m = S (size (delete i m)).
Proof.
  intros Hi. rewrite <- (insert_id m i a Hi) at 1.
  rewrite <- insert_delete_eq.
  apply map_size_insert_None, lookup_delete_eq.
Qed.

Lemma on_body_size (ref : N) (f : Body -> Body) (this : Space) :
  size (Space.bodyHash (Space.on_body ref f this)) = size (Space.bodyHash this).
Proof.
  simpl. now rewrite <- !(size_dom (D := gset N)), dom_alter_L.
Qed.

Lemma on_body_lookup_is_Some (ref i : N) (f : Body -> Body) (this : Space) :
  is_Some (Space.bodyHash (Space.on_body ref f this) !! i)
  <-> is_Some (Space.bodyHash this !! i).
Proof. simpl. now rewrite <- !elem_of_dom, dom_alter_L. Qed.

Lemma on_body_counted (ref : N) (f : Body -> Body) (this : Space) :
  counted this -> counted (Space.on_body ref f this).
Proof. intros [Hb Hj]. rewrite on_body_size. now split. Qed.

Lemma addBody_counted (body : Body) (this : Space) :
  counted this -> counted (Space.addBody body this).
Proof.
  intros [Hb Hj]. unfold Space.addBody.
  destruct (Space.bodyHash this !! Body.id body) eqn:E; [now split|].
  do 2 apply on_body_counted. simpl. split; [|exact Hj].
  rewrite map_size_insert_None by assumption. lia.
Qed.

Lemma addJoint_counted (joint : Joint) (this : Space) :
  counted this -> counted (Space.addJoint joint this).
Proof.
  intros Hc. unfold Space.addJoint.
  destruct (Space.jointHash this !! Joint.id joint) eqn:E; [exact Hc|].
  do 2 apply on_body_counted.
  assert (Hc' := on_body_counted (Joint.body2 joint) (Body.awake true) _
                   (on_body_counted (Joint.body1 joint) (Body.awake true) _ Hc)).
  destruct Hc' as [Hb Hj]. simpl in *. split; [exact Hb|].
  rewrite map_size_insert_None by assumption. lia.
Qed.

Lemma removeJoint_counted (joint : Joint) (this : Space) :
  counted this -> counted (Space.removeJoint joint this).
Proof.
  intros Hc. unfold Space.removeJoint.
  destruct (Space.jointHash this !! Joint.id joint) as [j|] eqn:E; [|exact Hc].
  assert (Hc' : counted
            (Space.on_body (Joint.body2 joint)
               (fun b => Body.set_jointHash b (Body.jointHash b ∖ {[Joint.id joint]}))
               (Space.on_body (Joint.body1 joint)
                  (fun b => Body.set_jointHash b (Body.jointHash b ∖ {[Joint.id joint]}))
                  (Space.on_body (Joint.body2 joint) (Body.awake true)
                     (Space.on_body (Joint.body1 joint) (Body.awake true) this)))))
    by now do 4 apply on_body_counted.
  destruct Hc' as [Hb Hj]. simpl in *. split; [exact Hb|].
  rewrite (map_size_lookup_Some _ _ _ E) in Hj. lia.
Qed.

Lemma removeJoint_lookup_is_Some (joint : Joint) (this : Space) (i : N) :
  is_Some (Space.bodyHash (Space.removeJoint joint this) !! i)
  <-> is_Some (Space.bodyHash this !! i).
Proof.
  unfold Space.removeJoint.
  destruct (Space.jointHash this !! Joint.id joint); [|reflexivity].
  cbn [Space.bodyHash Space.set_numJoints Space.set_jointHash].
  now rewrite !on_body_lookup_is_Some.
Qed.

(** The loop of [removeBody] over the joints of the body keeps the counters
    right and the body registered. *)
Lemma removeLinkedJoints_counted (ref : N) (this : Space) :
  counted this ->
  counted (Space.removeLinkedJoints ref this)
  /\ (is_Some (Space.bodyHash (Space.removeLinkedJoints ref this) !! ref)
      <-> is_Some (Space.bodyHash this !! ref)).
Proof.
  unfold Space.removeLinkedJoints.
  generalize (set_keys (Body.jointHash (Space.bodyHash this !!! ref))) as l.
  intros l. revert this. induction l as [|i l IH]; intros this Hc; cbn [foldl].
  - now split.
  - match goal with |- context [foldl _ ?s l] => set (this1 := s) end.
    assert (H1 : counted this1
                 /\ (is_Some (Space.bodyHash this1 !! ref)
                     <-> is_Some (Space.bodyHash this !! ref))).
    { subst this1.
      destruct (Space.bodyHash this !! ref) as [body|] eqn:Eb;
        [|split; [exact Hc|now rewrite Eb]].
      destruct (decide (i ∈ Body.jointHash body));
        [|split; [exact Hc|now rewrite Eb]].
      destruct (Space.jointHash this !! i) as [joint|];
        [|split; [exact Hc|now rewrite Eb]].
      split; [now apply removeJoint_counted|].
      rewrite <- Eb. apply removeJoint_lookup_is_Some. }
    destruct H1 as [Hc1 Hs1]. destruct (IH this1 Hc1) as [Hc2 Hs2].
    split; [exact Hc2|]. now rewrite Hs2.
Qed.

Lemma removeBody_counted (body : Body) (this : Space) :
  counted this -> counted (Space.removeBody body this).
Proof.
  intros Hc. unfold Space.removeBody.
  destruct (Space.bodyHash this !! Body.id body) as [b|] eqn:E; [|exact Hc].
  destruct (removeLinkedJoints_counted (Body.id body) this Hc) as [[Hb Hj] Hs].
  assert (Hsome : is_Some (Space.bodyHash
                    (Space.removeLinkedJoints (Body.id body) this)
                    !! Body.id body)) by (apply Hs; rewrite E; eauto).
  destruct Hsome as [b' Hb']. simpl. split; [|exact Hj].
  rewrite (map_size_lookup_Some _ _ _ Hb') in Hb. lia.
Qed.

Lemma clear_counted (g : Globals) (this : Space) :
  counted this -> counted (Space.clear g this).2.
Proof.
  intros Hc. unfold Space.clear. simpl.
  apply (for_in_invariant Space.bodyHash
           (fun _ body this => Space.removeBody body this)
           (fun this => counted this)); [exact Hc|].
  intros i a s Hs _. now apply removeBody_counted.
Qed.

Lemma registry_reachable_counted (this : Space) :
  registry_reachable this -> counted this.
Proof.
  induction 1.
  - split; reflexivity.
  - now apply addBody_counted.
  - now apply removeBody_counted.
  - now apply addJoint_counted.
  - now apply removeJoint_counted.
  - now apply clear_counted.
Qed.

(** C10.  In every Space that [new Space()] and the registry operations
    produce: [addBody] of a body whose id is registered and [addJoint] of a
    joint whose id is registered return the Space as it was; so do
    [removeBody] of a body and [removeJoint] of a joint whose id is not
    registered; and [numBodies] and [numJoints] are the numbers of entries of
    [bodyHash] and [jointHash]. *)
Theorem Space_registry_guarded (this : Space) :
  registry_reachable this ->
  (forall body, is_Some (Space.bodyHash this !! Body.id body) ->
                Space.addBody body this = this)
  /\ (forall joint, is_Some (Space.jointHash this !! Joint.id joint) ->
                    Space.addJoint joint this = this)
  /\ (forall body, Space.bodyHash this !! Body.id body = None ->
                   Space.removeBody body this = this)
  /\ (forall joint, Space.jointHash this !! Joint.id joint = None ->
                    Space.removeJoint joint this = this)
  /\ Space.numBodies this = Z.of_nat (size (Space.bodyHash this))
  /\ Space.numJoints this = Z.of_nat (size (Space.jointHash this)).
Proof.
  intros Hr. repeat split.
  - intros body [b Hb]. unfold Space.addBody. now rewrite Hb.
  - intros joint [j Hj]. unfold Space.addJoint. now rewrite Hj.
  - intros body Hb. unfold Space.removeBody. now rewrite Hb.
  - intros joint Hj. unfold Space.removeJoint. now rewrite Hj.
  - now apply registry_reachable_counted.
  - now apply registry_reachable_counted.
Qed.

End registry.

(** Two balls joined by a rope, after the second ball is removed: the rope
    went with it, one body and no joint are counted, and adding the first
    ball again or removing the second again changes nothing. *)
Lemma Space_registry_guarded_witness :
  let this := Space.removeBody (Demo.ball 1 2 0)
                (Space.addJoint (Demo.rope 0 0 1 2) (Demo.two_balls 0 0 2 0)) in
  Space.addBody (Demo.ball 0 5 5) this = this
  /\ Space.removeBody (Demo.ball 1 2 0) this = this
  /\ Space.removeJoint (Demo.rope 0 0 1 2) this = this
  /\ Space.numBodies this = 1%Z /\ Space.numJoints this = 0%Z.
Proof.
  intros this.
  destruct (Space_registry_guarded this) as (Hab & _ & Hrb & Hrj & Hnb & Hnj).
  { subst this. apply reach_removeBody, reach_addJoint.
    unfold Demo.two_balls. apply reach_addBody, reach_addBody, reach_new. }
  split; [apply Hab; vm_compute; eauto|].
  split; [apply Hrb; vm_compute; reflexivity|].
  split; [apply Hrj; vm_compute; reflexivity|].
  split; [rewrite Hnb|rewrite Hnj]; vm_compute; reflexivity.
Defined.

(** ** The position solver *)

Section position_solver.
Context {host : Host} {opaque : Opaque} {extern : Extern}.

(** The flag of the loop over the contact solvers is the conjunction of what
    the solvers return; the solvers and bodies it leaves do not depend on
    the flag it starts from. *)
Lemma contactsPosition_flag (arr : list ContactSolver) (st : Store) (ok : bool) :
  Space.contactsPosition arr st ok
  = (ok && forallb id (Space.contactReports arr st),
     (Space.contactsPosition arr st true).2).
Proof.
  revert st ok. induction arr as [|c arr IH]; intros st ok; simpl.
  - now rewrite andb_true_r.
  - destruct (ContactSolver_solvePositionConstraints c st) as [cok [c' st']].
    rewrite (IH st' (cok && ok)), (IH st' (cok && true)).
    destruct (Space.contactsPosition arr st' true) as [ok' [arr' st'']].
    simpl. f_equal. destruct cok, ok; reflexivity.
Qed.

(** The loop over the joints, with its flag and with its reports, run on
    the same keys from the same Space. *)
Lemma jointsPosition_fold (l : list N) (this : Space) (ok : bool)
    (reports : list bool) :
  let flagged :=
    foldl (fun (s : bool * Space) i =>
             match Space.jointHash s.2 !! i with
             | Some joint =>
                 let '(jointsOk, this) := s in
                 let '(jointOk, (joint, st)) :=
                   Dispatch.solvePositionConstraints joint (Space.bodyHash this) in
                 (jointOk && jointsOk,
                  Space.set_bodyHash
                    (Space.set_jointHash this (<[i := joint]> (Space.jointHash this)))
                    st)
             | None => s
             end) (ok, this) l in
  let reported :=
    foldl (fun (s : list bool * Space) i =>
             match Space.jointHash s.2 !! i with
             | Some joint =>
                 let '(reports, this) := s in
                 let '(jointOk, (joint, st)) :=
                   Dispatch.solvePositionConstraints joint (Space.bodyHash this) in
                 (reports ++ [jointOk],
                  Space.set_bodyHash
                    (Space.set_jointHash this (<[i := joint]> (Space.jointHash this)))
                    st)
             | None => s
             end) (reports, this) l in
  flagged.2 = reported.2
  /\ exists more, reported.1 = reports ++ more
                  /\ flagged.1 = ok && forallb id more.
Proof.
  revert this ok reports. induction l as [|i l IH]; intros this ok reports.
  - simpl. split; [reflexivity|]. exists []. now rewrite app_nil_r, andb_true_r.
  - cbn [foldl snd]. destruct (Space.jointHash this !! i) as [joint|].
    + destruct (Dispatch.solvePositionConstraints joint (Space.bodyHash this))
        as [jok [joint' st]].
      destruct (IH (Space.set_bodyHash
                      (Space.set_jointHash this
                         (<[i := joint']> (Space.jointHash this))) st)
                   (jok && ok) (reports ++ [jok])) as [E (more & E1 & E2)].
      split; [exact E|]. exists (jok :: more). split.
      * rewrite E1, <- app_assoc. reflexivity.
      * rewrite E2. simpl. destruct jok, ok; reflexivity.
    + apply IH.
Qed.

(** A round ends OK exactly when every contact solver and then every joint
    returned true. *)
Lemma positionRound_flag (this : Space) :
  (Space.positionRound this).1
  = forallb id (Space.contactReports (Space.contactSolverArr this)
                                     (Space.bodyHash this))
    && forallb id
         (Space.jointReports
            (Space.set_bodyHash
               (Space.set_contactSolverArr this
                  (Space.contactsPosition (Space.contactSolverArr this)
                     (Space.bodyHash this) true).2.1)
               (Space.contactsPosition (Space.contactSolverArr this)
                  (Space.bodyHash this) true).2.2)).
Proof.
  unfold Space.positionRound. rewrite contactsPosition_flag.
  destruct (Space.contactsPosition _ _ true) as [ok' [arr st]]. cbn [fst snd].
  unfold Space.jointsPosition, Space.jointReports, for_in. cbn [snd].
  match goal with
  | |- context [foldl _ (true, ?s) ?l] =>
      destruct (jointsPosition_fold l s true []) as [E (more & E1 & E2)]
  end.
  cbv zeta in E, E1, E2.
  match goal with
  | |- context [let '(_, _) := ?p in _] => destruct p as [jok this'] eqn:Ep
  end.
  cbn [fst snd] in *. rewrite E1. cbn [app fst]. rewrite E2. reflexivity.
Qed.

Lemma positionRounds_succ (k : nat) (this : Space) :
  Space.positionRounds (S k) this
  = Space.positionRounds k (Space.positionRound this).2.
Proof.
  unfold Space.positionRounds. induction k as [|k IH]; [reflexivity|].
  change (Nat.iter (S (S k)) (fun s => (Space.positionRound s).2) this)
    with ((Space.positionRound
             (Nat.iter (S k) (fun s => (Space.positionRound s).2) this)).2).
  rewrite IH. reflexivity.
Qed.

(** The loop over the contact solvers makes the calls one by one. *)
Lemma contactsPosition_solved (arr : list ContactSolver) (st : Store) (ok : bool) :
  exists oks arr' st',
    contacts_solved arr st oks arr' st'
    /\ Space.contactsPosition arr st ok = (forallb id oks && ok, (arr', st')).
Proof.
  revert st ok. induction arr as [|c arr IH]; intros st ok.
  - exists [], [], st. split; [constructor|reflexivity].
  - cbn [Space.contactsPosition].
    destruct (ContactSolver_solvePositionConstraints c st) as [cok [c' st1]] eqn:E.
    destruct (IH st1 (cok && ok)) as (oks & arr' & st' & Hs & Hc).
    exists (cok :: oks), (c' :: arr'), st'. split.
    + econstructor; eassumption.
    + rewrite Hc. cbn [forallb id]. f_equal.
      destruct (forallb id oks), cok, ok; reflexivity.
Qed.

(** So does the loop over the joints: the joint solved under an id is the
    one the table held under it when the loop started. *)
Lemma jointsPosition_solved (jointHash0 : gmap N Joint) (l : list N) :
  NoDup l ->
  forall (this : Space) (ok : bool),
  (forall i, i ∈ l -> is_Some (jointHash0 !! i)
                      /\ Space.jointHash this !! i = jointHash0 !! i) ->
  exists oks jointHash' st',
    joints_solved jointHash0 l (Space.jointHash this) (Space.bodyHash this)
                  oks jointHash' st'
    /\ foldl (fun (s : bool * Space) i =>
                match Space.jointHash s.2 !! i with
                | Some joint =>
                    let '(jointsOk, this) := s in
                    let '(jointOk, (joint, st)) :=
                      Dispatch.solvePositionConstraints joint
                        (Space.bodyHash this) in
                    (jointOk && jointsOk,
                     Space.set_bodyHash
                       (Space.set_jointHash this
                          (<[i := joint]> (Space.jointHash this))) st)
                | None => s
                end) (ok, this) l
       = (forallb id oks && ok,
          Space.set_bodyHash (Space.set_jointHash this jointHash') st').
Proof.
  induction 1 as [|i l Hi Hnd IH]; intros this ok Hl.
  - exists [], (Space.jointHash this), (Space.bodyHash this).
    split; [constructor|]. cbn [foldl forallb andb]. f_equal.
    now destruct this.
  - destruct (Hl i) as [[joint Hj] Hthis]; [apply list_elem_of_here|].
    cbn [foldl snd]. rewrite Hthis, Hj.
    destruct (Dispatch.solvePositionConstraints joint (Space.bodyHash this))
      as [jok [joint' st1]] eqn:E.
    set (this1 := Space.set_bodyHash
                    (Space.set_jointHash this
                       (<[i := joint']> (Space.jointHash this))) st1).
    destruct (IH this1 (jok && ok)) as (oks & jh' & st' & Hs & Hf).
    { intros k Hk. destruct (Hl k) as [Hk1 Hk2]; [now apply list_elem_of_further|].
      split; [exact Hk1|]. subst this1. cbn [Space.jointHash Space.set_bodyHash
        Space.set_jointHash]. rewrite lookup_insert_ne; [exact Hk2|].
      intros ->. contradiction. }
    exists (jok :: oks), jh', st'. split.
    + econstructor; [exact Hj|exact E|exact Hs].
    + rewrite Hf. cbn [forallb id]. f_equal.
      destruct (forallb id oks), jok, ok; reflexivity.
Qed.

(** A round, call by call: the contact solvers, then the joints. *)
Lemma positionRound_solved (s : Space) :
  exists contactOks arr' st1 jointOks jointHash' st2,
    contacts_solved (Space.contactSolverArr s) (Space.bodyHash s)
                    contactOks arr' st1
    /\ joints_solved (Space.jointHash s) (keys (Space.jointHash s))
                     (Space.jointHash s) st1 jointOks jointHash' st2
    /\ (Space.positionRound s).2
       = Space.set_bodyHash
           (Space.set_jointHash (Space.set_contactSolverArr s arr') jointHash')
           st2
    /\ (Space.positionRound s).1
       = forallb id contactOks && forallb id jointOks.
Proof.
  unfold Space.positionRound.
  destruct (contactsPosition_solved (Space.contactSolverArr s) (Space.bodyHash s)
              true) as (coks & arr' & st1 & Hc & Ec).
  rewrite Ec. unfold Space.jointsPosition, for_in. cbn [snd].
  set (s1 := Space.set_bodyHash (Space.set_contactSolverArr s arr') st1).
  destruct (jointsPosition_solved (Space.jointHash s)
              (keys (Space.jointHash s)) (keys_NoDup _) s1 true)
    as (joks & jh' & st2 & Hj & Ej).
  { intros i Hi. split; [now apply elem_of_keys|reflexivity]. }
  change (Space.jointHash s1) with (Space.jointHash s) in Hj |- *.
  change (Space.bodyHash s1) with st1 in Hj.
  rewrite Ej.
  exists coks, arr', st1, joks, jh', st2.
  split; [exact Hc|]. split; [exact Hj|]. split; [reflexivity|].
  cbn [fst]. now rewrite !andb_true_r.
Qed.

(** The loop of [positionSolver] from any round on: [r] is the number of
    rounds it runs. *)
Lemma positionLoop_rounds (rounds : nat) (g : Globals) (this : Space) :
  exists r : nat,
    (r <= rounds)%nat
    /\ (Space.positionLoop rounds g this).2.2 = Space.positionRounds r this
    /\ (forall k, (S k < r)%nat ->
          (Space.positionRound (Space.positionRounds k this)).1 = false)
    /\ ((Space.positionLoop rounds g this).1 = true ->
        (1 <= r)%nat
        /\ (Space.positionRound (Space.positionRounds (r - 1) this)).1 = true
        /\ Globals.stats_positionIterations (Space.positionLoop rounds g this).2.1
           = (Globals.stats_positionIterations g + Z.of_nat r - 1)%Z)
    /\ ((Space.positionLoop rounds g this).1 = false ->
        r = rounds
        /\ (forall k, (k < r)%nat ->
              (Space.positionRound (Space.positionRounds k this)).1 = false)
        /\ Globals.stats_positionIterations (Space.positionLoop rounds g this).2.1
           = (Globals.stats_positionIterations g + Z.of_nat r)%Z).
Proof.
  revert g this. induction rounds as [|rounds IH]; intros g this.
  - exists 0%nat. simpl. repeat split; try lia; try discriminate;
      intros; lia.
  - cbn [Space.positionLoop].
    destruct (Space.positionRound this) as [ok this1] eqn:E.
    destruct ok.
    + exists 1%nat. cbn [fst snd]. split; [lia|]. split.
      { simpl. now rewrite E. }
      split; [intros; lia|]. split; [|discriminate].
      intros _. split; [lia|]. split; [simpl; now rewrite E|lia].
    + set (g1 := Globals.set_positionIterations g
                   (Globals.stats_positionIterations g + 1)).
      destruct (IH g1 this1) as (r & Hr & Hst & Hbefore & Htrue & Hfalse).
      assert (E1 : (Space.positionRound this).2 = this1) by now rewrite E.
      assert (E0 : (Space.positionRound (Space.positionRounds 0 this)).1 = false)
        by (simpl; now rewrite E).
      exists (S r). split; [lia|]. split.
      { rewrite positionRounds_succ, E1. exact Hst. }
      split.
      { intros [|k] Hk; [exact E0|].
        rewrite positionRounds_succ, E1. apply Hbefore. lia. }
      split.
      * intros Hs. destruct (Htrue Hs) as (H1 & Hok & Hn).
        split; [lia|]. split.
        -- replace (S r - 1)%nat with (S (r - 1)) by lia.
           rewrite positionRounds_succ, E1. exact Hok.
        -- rewrite Hn. subst g1. simpl. lia.
      * intros Hs. destruct (Hfalse Hs) as (-> & Hall & Hn).
        split; [reflexivity|]. split.
        -- intros [|k] Hk; [exact E0|].
           rewrite positionRounds_succ, E1. apply Hall. lia.
        -- rewrite Hn. subst g1. simpl. lia.
Qed.

(** C4.  [positionSolver(iteration)] runs some number [r] of rounds, at most
    [iteration], and leaves the Space as [r] rounds in a row leave it.  A
    round runs every contact solver and then every joint, and ends OK when
    all of them returned true: it calls [solvePositionConstraints] on every
    contact solver in the order of the array and then on every joint in the
    order of the ids, each call on the bodies as the call before left them,
    and the Space after the round holds the solvers, the joints and the
    bodies as the calls left them and is otherwise as before.  No round
    before the last one run ended OK.
    The value returned is true exactly when one of the [iteration] rounds
    would end OK; the solver then stops at the first such round, and
    [stats.positionIterations] counts the rounds before it.  When the value
    is false all [iteration] rounds were run, none ended OK, and
    [stats.positionIterations] is their number. *)
Theorem Space_positionSolver_rounds (iteration : Z) (g : Globals) (this : Space) :
  let positionSolved := (Space.positionSolver iteration g this).1 in
  let g' := (Space.positionSolver iteration g this).2.1 in
  let this' := (Space.positionSolver iteration g this).2.2 in
  let roundOk k := (Space.positionRound (Space.positionRounds k this)).1 in
  (forall s, (Space.positionRound s).1
     = forallb id (Space.contactReports (Space.contactSolverArr s)
                                        (Space.bodyHash s))
       && forallb id
            (Space.jointReports
               (Space.set_bodyHash
                  (Space.set_contactSolverArr s
                     (Space.contactsPosition (Space.contactSolverArr s)
                        (Space.bodyHash s) true).2.1)
                  (Space.contactsPosition (Space.contactSolverArr s)
                     (Space.bodyHash s) true).2.2)))
  /\ (forall s, exists contactOks arr' st1 jointOks jointHash' st2,
        contacts_solved (Space.contactSolverArr s) (Space.bodyHash s)
                        contactOks arr' st1
        /\ joints_solved (Space.jointHash s) (keys (Space.jointHash s))
                         (Space.jointHash s) st1 jointOks jointHash' st2
        /\ (Space.positionRound s).2
           = Space.set_bodyHash
               (Space.set_jointHash (Space.set_contactSolverArr s arr')
                                    jointHash')
               st2
        /\ (Space.positionRound s).1
           = forallb id contactOks && forallb id jointOks)
  /\ (positionSolved = true <->
      exists k, (k < Z.to_nat iteration)%nat /\ roundOk k = true)
  /\ exists r : nat,
      (r <= Z.to_nat iteration)%nat
      /\ this' = Space.positionRounds r this
      /\ (forall k, (S k < r)%nat -> roundOk k = false)
      /\ (positionSolved = true ->
          (1 <= r)%nat /\ roundOk (r - 1)%nat = true
          /\ Globals.stats_positionIterations g' = (Z.of_nat r - 1)%Z)
      /\ (positionSolved = false ->
          r = Z.to_nat iteration
          /\ (forall k, (k < r)%nat -> roundOk k = false)
          /\ Globals.stats_positionIterations g' = Z.of_nat r).
Proof.
  intros positionSolved g' this' roundOk.
  subst positionSolved g' this' roundOk. unfold Space.positionSolver.
  set (g0 := Globals.set_positionIterations g 0).
  destruct (positionLoop_rounds (Z.to_nat iteration) g0 this)
    as (r & Hr & Hst & Hbefore & Htrue & Hfalse).
  split; [exact positionRound_flag|]. split; [exact positionRound_solved|].
  split.
  - split.
    + intros Hs. destruct (Htrue Hs) as (H1 & Hok & _).
      exists (r - 1)%nat. split; [lia|exact Hok].
    + intros (k & Hk & Hok).
      destruct (Space.positionLoop (Z.to_nat iteration) g0 this).1 eqn:Es;
        [reflexivity|].
      destruct (Hfalse eq_refl) as (-> & Hall & _).
      rewrite (Hall k Hk) in Hok. discriminate.
  - exists r. split; [exact Hr|]. split; [exact Hst|].
    split; [exact Hbefore|]. split.
    + intros Hs. destruct (Htrue Hs) as (H1 & Hok & Hn).
      repeat split; try assumption; rewrite Hn; subst g0; simpl; lia.
    + intros Hs. destruct (Hfalse Hs) as (-> & Hall & Hn).
      repeat split; try assumption; rewrite Hn; subst g0; simpl; lia.
Qed.

End position_solver.

(** A rope of length 2 between two balls 3 apart.  Each round pulls the
    balls 0.2 closer, so five rounds end not OK and the sixth ends OK: with
    3 rounds allowed the solver reports false after 3 counted rounds, with
    10 allowed it reports true and has counted 5. *)
Example positionSolver_stretched_rope :
  let this := Space.addJoint (Demo.rope 0 0 1 2) (Demo.two_balls 0 0 3 0) in
  let short := Space.positionSolver 3 Demo.globals0 this in
  let long := Space.positionSolver 10 Demo.globals0 this in
  short.1 = false
  /\ Globals.stats_positionIterations short.2.1 = 3%Z
  /\ long.1 = true
  /\ Globals.stats_positionIterations long.2.1 = 5%Z
  /\ long.2.2 = Space.positionRounds 6 this.
Proof. vm_compute. repeat split. Qed.

(** ** Loading and saving a scene *)

Section scenes.
Context {host : Host} {opaque : Opaque} {extern : Extern}.

(** The joint loop stops with the host's error at a joint of a kind [create]
    makes that names a body the Space does not register; the Space is then
    the one the joints before it left. *)
Lemma createJoints_missing_body (pre post : list Config.joint)
    (cj : Config.joint) (k : Joint.proto_t) :
  Space.joint_case (Config.joint_type cj) = Some k ->
  forall (joint : option (Joint * bool)) (g g2 : Globals) (this this2 : Space),
  Space.createJoints pre joint g this = (Space.Normal, (g2, this2)) ->
  Space.bodyHash this2 !! Config.joint_body1 cj = None
  \/ Space.bodyHash this2 !! Config.joint_body2 cj = None ->
  exists g', Space.createJoints (pre ++ cj :: post) joint g this
             = (Space.TypeError, (g', this2)).
Proof.
  intros Hk. induction pre as [|c pre IH]; intros joint g g2 this this2 Hpre Hmiss.
  - injection Hpre as <- <-. cbn [app Space.createJoints]. rewrite Hk.
    destruct Hmiss as [-> | Hm2].
    + eauto.
    + rewrite Hm2. destruct (Space.bodyHash this !! Config.joint_body1 cj); eauto.
  - cbn [app Space.createJoints] in *.
    destruct (Space.joint_case (Config.joint_type c)) as [kc|].
    + destruct (Space.bodyHash this !! Config.joint_body1 c) as [b1|];
        [|discriminate].
      destruct (Space.bodyHash this !! Config.joint_body2 c) as [b2|];
        [|discriminate].
      eapply IH; eassumption.
    + destruct joint as [[j registered]|]; [|discriminate].
      eapply IH; eassumption.
Qed.

(** C7, as the code has it.  [Space.create] checks nothing and raises no
    error of its own.  (a) When the joints before it load and a joint is of
    a kind [create] makes but names a body id that is not registered, or
    when the first joint of the scene is of an unknown kind, the load ends
    with the host's [TypeError] and the Space is left as the bodies and the
    joints loaded before left it.  (b) When the first shape of the first
    body is of an unknown kind, the load ends with the host's [TypeError]
    on the cleared Space. *)
Theorem Space_create_invalid_scene (config : Config) (g : Globals) (this : Space) :
  (forall pre cj post g1 this1 g2 this2,
     Config.joints config = pre ++ cj :: post ->
     Space.createBodies (Config.bodies config) None
       (Space.clear g this).1 (Space.clear g this).2
       = (Space.Normal, (g1, this1)) ->
     Space.createJoints pre None g1 this1 = (Space.Normal, (g2, this2)) ->
     (exists k, Space.joint_case (Config.joint_type cj) = Some k
                /\ (Space.bodyHash this2 !! Config.joint_body1 cj = None
                    \/ Space.bodyHash this2 !! Config.joint_body2 cj = None))
     \/ (Space.joint_case (Config.joint_type cj) = None /\ pre = []) ->
     exists g', Space.create config g this = (Space.TypeError, (g', this2)))
  /\ (forall cb rest cs shapes,
        Config.bodies config = cb :: rest ->
        Config.body_shapes cb = cs :: shapes ->
        Space.shape_case (Config.shape_type cs) = None ->
        exists g', Space.create config g this
                   = (Space.TypeError, (g', (Space.clear g this).2))).
Proof.
  split.
  - intros pre cj post g1 this1 g2 this2 Hj Hb Hpre Hbad.
    unfold Space.create. destruct (Space.clear g this) as [g0 this0].
    cbn [fst snd] in Hb. rewrite Hb, Hj.
    destruct Hbad as [(k & Hk & Hmiss) | [Hk ->]].
    + eapply createJoints_missing_body; eassumption.
    + injection Hpre as <- <-. cbn [app Space.createJoints]. rewrite Hk. eauto.
  - intros cb rest cs shapes Hb Hs Hk.
    unfold Space.create. destruct (Space.clear g this) as [g0 this0].
    rewrite Hb. cbn [Space.createBodies]. rewrite Hs.
    cbn [Space.createShapes]. rewrite Hk. cbn [snd]. eauto.
Qed.

(** C8.  The scene that a Space whose first joint is a rope joint serializes
    to does not load: [create] has no case for the type "RopeJoint" that
    [RopeJoint.serialize] writes, the variable [joint] is still [undefined]
    when its properties are assigned, and the load ends with the host's
    [TypeError], from any Space and any counters. *)
Theorem Space_create_toJSON_rope_throws
    (W : Space) (joint : Joint) (rest : list Joint)
    (g : Globals) (this : Space) :
  values (Space.jointHash W) = joint :: rest ->
  Joint.proto joint = Joint.RopeJoint ->
  (Space.create (Space.toJSON W) g this).1 = Space.TypeError.
Proof.
  intros Hv Hp. unfold Space.create, Space.toJSON.
  destruct (Space.clear g this) as [g0 this0]. cbn [Config.bodies Config.joints].
  rewrite Hv. cbn [map].
  destruct (Space.createBodies _ None g0 this0) as [[|] [g1 this1]];
    [|reflexivity].
  cbn [Space.createJoints]. unfold Dispatch.serialize. rewrite Hp.
  reflexivity.
Qed.

End scenes.

(** The scene of [Demo.scene_missing_body]: the load throws at the distance
    joint, and the two bodies and the weld stay registered. *)
Lemma Space_create_invalid_scene_witness :
  let after := Space.create Demo.scene_missing_body Demo.globals0 Space.new in
  after.1 = Space.TypeError
  /\ Space.numBodies after.2.2 = 2%Z
  /\ Space.numJoints after.2.2 = 1%Z.
Proof.
  intros after. subst after.
  destruct (Space_create_invalid_scene Demo.scene_missing_body Demo.globals0
              Space.new) as [Hjoint _].
  match eval vm_compute in
        (Space.createBodies (Config.bodies Demo.scene_missing_body) None
           (Space.clear Demo.globals0 Space.new).1
           (Space.clear Demo.globals0 Space.new).2) with
  | (_, (?g1, ?this1)) =>
      match eval vm_compute in
            (Space.createJoints [Demo.scene_joint "WeldJoint" 0 1] None
               g1 this1) with
      | (_, (?g2, ?this2)) =>
          destruct (Hjoint [Demo.scene_joint "WeldJoint" 0 1]
                      (Demo.scene_joint "DistanceJoint" 0 7) []
                      g1 this1 g2 this2) as [g' Hthrow];
            [ reflexivity
            | vm_compute; reflexivity
            | vm_compute; reflexivity
            | left; exists Joint.DistanceJoint; split; [reflexivity|];
              right; vm_compute; reflexivity
            | ]
      end
  end.
  rewrite Hthrow.
  split; [reflexivity|split; vm_compute; reflexivity].
Defined.

(** C7 as stated fails.  A scene of two bodies whose only joint is of an
    unknown kind: the load ends with the host's [TypeError], the only error
    there is, and the two bodies stay registered. *)
Lemma Space_create_unknown_joint_not_cleared :
  let after := Space.create Demo.scene_unknown_joint Demo.globals0 Space.new in
  after.1 = Space.TypeError
  /\ Space.numBodies after.2.2 = 2%Z
  /\ Space.bodyHash after.2.2 <> ∅.
Proof.
  intros after. subst after. split; [vm_compute; reflexivity|].
  split; [vm_compute; reflexivity|].
  intros Hempty. apply (f_equal (fun m : gmap N Body => size m)) in Hempty.
  vm_compute in Hempty. discriminate.
Qed.

(** Two balls joined by a rope: the scene they serialize to throws on
    loading, and the Space is left with the two bodies and no joint. *)
Lemma Space_create_toJSON_rope_throws_witness :
  let after := Space.create (Space.toJSON Demo.roped) Demo.globals0 Demo.roped in
  after.1 = Space.TypeError
  /\ Space.numBodies after.2.2 = 2%Z
  /\ Space.numJoints after.2.2 = 0%Z
  /\ Space.numJoints Demo.roped = 1%Z.
Proof.
  intros after. subst after. split.
  - apply (Space_create_toJSON_rope_throws Demo.roped (Demo.rope 0 0 1 2) []);
      [vm_compute|]; reflexivity.
  - vm_compute. repeat split.
Defined.

(** A joint that [clear] leaves keeps its place: the weld that the scene
    loads takes the id 0 again, [addJoint] finds the id taken and returns,
    and the writes of the turn of the unknown kind go to the weld, which is
    not registered.  The rope is still the joint 0, with its [maxForce], and
    no body lists it. *)
Example create_keeps_surviving_joint :
  let after := Space.create Demo.scene_weld_unknown Demo.globals0 Demo.haunted in
  after.1 = Space.Normal
  /\ Space.jointHash after.2.2 = Space.jointHash Demo.haunted
  /\ Space.numJoints after.2.2 = 1%Z
  /\ Body.jointHash <$> Space.bodyHash after.2.2 !! 0%N = Some ∅.
Proof. vm_compute. repeat split. Qed.

(** ** The broad phase *)

(** C1.  A Space made with [new Space()] to which two touching balls are
    added, and never cleared.  The constructor assigns no [stepCount], so the
    increment in [step] makes it NaN; every body is stamped with NaN, and
    [body1.stepCount == body2.stepCount] is false for every pair, a body with
    itself included.  The broad phase gets past the step-count test for all
    four ordered pairs, makes a contact solver for (0, 1) and another for
    (1, 0), and [step] ends with both in [contactSolverArr].  With
    [stepCount] at 0 before the step, as [clear] leaves it, the only pair is
    (0, 1) and there is one solver. *)
Lemma Space_genTemporalContactSolvers_uncleared_pairs :
  let this := Demo.two_balls 0 0 0 0 in
  let stepped := Space.set_stepCount this (JS.incr (Space.stepCount this)) in
  let cleared := Space.set_stepCount this (Some 0%float) in
  Space.stepCount stepped = Some nan
  /\ Space.gen_examined (Space.genTemporalContactSolvers_run stepped)
     = [(0, 0); (0, 1); (1, 0); (1, 1)]%N
  /\ map (fun c => (ContactSolver.shape1 c, ContactSolver.shape2 c))
         (Space.contactSolverArr
            (Space.step (1 / 60) 8 3 true false Demo.globals0 this).2)
     = [(0, 1); (1, 0)]%N
  /\ Space.gen_examined
       (Space.genTemporalContactSolvers_run
          (Space.set_stepCount cleared (JS.incr (Space.stepCount cleared))))
     = [(0, 1)]%N
  /\ map (fun c => (ContactSolver.shape1 c, ContactSolver.shape2 c))
         (Space.contactSolverArr
            (Space.step (1 / 60) 8 3 true false Demo.globals0 cleared).2)
     = [(0, 1)]%N.
Proof. vm_compute. repeat split. Qed.

Section broad_phase.
Context {host : Host} {opaque : Opaque} {extern : Extern}.

(** The stamp of the body under a key, when the key is registered. *)
Local Abbreviation stamp_of g k :=
  (Body.stepCount <$> Space.bodyHash (Space.gen_space g) !! k).

(** Two loop states with the same stamps on the same bodies and the same
    [stepCount] of the Space. *)
Local Abbreviation same_stamps g g' :=
  (Space.stepCount (Space.gen_space g') = Space.stepCount (Space.gen_space g)
   /\ forall k : N, stamp_of g' k = stamp_of g k).

Lemma awake_stepCount (flag : bool) (b : Body) :
  Body.stepCount (Body.awake flag b) = Body.stepCount b.
Proof. now destruct flag. Qed.

Lemma on_body_awake_stamp (ref k : N) (this : Space) :
  Body.stepCount <$> Space.bodyHash (Space.on_body ref (Body.awake true) this) !! k
  = Body.stepCount <$> Space.bodyHash this !! k.
Proof.
  simpl. destruct (decide (ref = k)) as [->|Hne].
  - rewrite lookup_alter_eq. now destruct (Space.bodyHash this !! k).
  - now rewrite lookup_alter_ne.
Qed.

(** The loop body over two shapes stamps no body and examines no pair. *)
Lemma collideShapes_frame (i j : N) (shape1 shape2 : Shape) (g : Space.gen_state) :
  same_stamps g (Space.collideShapes i j shape1 shape2 g)
  /\ Space.gen_examined (Space.collideShapes i j shape1 shape2 g)
     = Space.gen_examined g.
Proof.
  unfold Space.collideShapes.
  destruct (collision_collide shape1 shape2) as [hit contactArr].
  destruct hit; cbn [negb]; [|now repeat split].
  destruct (N.ltb _ _);
    destruct (Space.findContactSolver _ _ _) as [[k c]|];
    cbn [Space.gen_push Space.gen_set_space Space.gen_space Space.gen_examined
         Space.set_contactSolverArr Space.set_numContacts Space.bodyHash
         Space.stepCount];
    repeat split; try reflexivity;
    intros k'; rewrite !on_body_awake_stamp; reflexivity.
Qed.

Lemma collideShapes_fold_frame (i j : N) (l1 l2 : list Shape)
    (g : Space.gen_state) :
  let g' := foldl (fun g shape1 =>
                     foldl (fun g shape2 =>
                              Space.collideShapes i j shape1 shape2 g) g l2)
                  g l1 in
  same_stamps g g' /\ Space.gen_examined g' = Space.gen_examined g.
Proof.
  cbv zeta. revert g. induction l1 as [|s1 l1 IH]; intros g; cbn [foldl].
  - now repeat split.
  - assert (Hin : forall g,
      same_stamps g (foldl (fun g shape2 => Space.collideShapes i j s1 shape2 g) g l2)
      /\ Space.gen_examined
           (foldl (fun g shape2 => Space.collideShapes i j s1 shape2 g) g l2)
         = Space.gen_examined g).
    { clear. induction l2 as [|s2 l2 IH2]; intros g; cbn [foldl].
      - now repeat split.
      - destruct (collideShapes_frame i j s1 s2 g) as [[E1 E2] E3].
        destruct (IH2 (Space.collideShapes i j s1 s2 g)) as [[F1 F2] F3].
        repeat split.
        + now rewrite F1.
        + intros k. now rewrite F2.
        + now rewrite F3. }
    destruct (Hin g) as [[E1 E2] E3].
    destruct (IH (foldl (fun g shape2 => Space.collideShapes i j s1 shape2 g) g l2))
      as [[F1 F2] F3].
    repeat split.
    + now rewrite F1.
    + intros k. now rewrite F2.
    + now rewrite F3.
Qed.

(** The loop body over two bodies stamps no body, and examines the pair
    exactly when the two stamps differ. *)
Lemma collideBodies_frame (i j : N) (g : Space.gen_state) :
  same_stamps g (Space.collideBodies i j g)
  /\ Space.gen_examined (Space.collideBodies i j g)
     = Space.gen_examined g
       ++ (if JS.loose_eq
                (Body.stepCount (Space.bodyHash (Space.gen_space g) !!! i))
                (Body.stepCount (Space.bodyHash (Space.gen_space g) !!! j))
           then [] else [(i, j)]).
Proof.
  unfold Space.collideBodies.
  destruct (JS.loose_eq _ _); [now rewrite app_nil_r|].
  destruct (negb _ && negb _); [now repeat split|].
  destruct (negb (Body_isCollidable _ _ _)); [now repeat split|].
  destruct (negb (Bounds_intersectsBounds _ _)); [now repeat split|].
  destruct (collideShapes_fold_frame i j
              (Body.shapeArr (Space.bodyHash (Space.gen_space g) !!! i))
              (Body.shapeArr (Space.bodyHash (Space.gen_space g) !!! j))
              (Space.gen_log g (i, j))) as [[E1 E2] E3].
  cbv zeta in E1, E2, E3. repeat split.
  - rewrite E1. reflexivity.
  - intros k. rewrite E2. reflexivity.
  - rewrite E3. reflexivity.
Qed.

Lemma keys_dom {A B : Type} (m : gmap N A) (m' : gmap N B) :
  dom m = dom m' -> keys m = keys m'.
Proof. unfold keys. now intros ->. Qed.

Lemma same_stamps_keys (g g' : Space.gen_state) :
  (forall k : N, stamp_of g' k = stamp_of g k) ->
  keys (Space.bodyHash (Space.gen_space g'))
  = keys (Space.bodyHash (Space.gen_space g)).
Proof.
  intros Hs. apply keys_dom. apply set_eq. intros k.
  rewrite !elem_of_dom. specialize (Hs k).
  destruct (Space.bodyHash (Space.gen_space g') !! k),
           (Space.bodyHash (Space.gen_space g) !! k);
    try discriminate; split; intros [? ?]; try discriminate; eauto.
Qed.

(** The inner loop under the body [i], stamped with the number [c]: the
    pairs it examines are pairs of [i] with bodies that do not carry the
    stamp [c], each at most once. *)
Lemma inner_loop_examined (c : float) (i : N) (L : list N) :
  is_nan c = false -> NoDup L -> forall g : Space.gen_state,
  stamp_of g i = Some (Some c) ->
  let g' := foldl (fun g j =>
                     match Space.bodyHash (Space.gen_space g) !! j with
                     | Some _ => Space.collideBodies i j g
                     | None => g
                     end) g L in
  same_stamps g g'
  /\ exists E, Space.gen_examined g' = Space.gen_examined g ++ E
       /\ NoDup E
       /\ Forall (fun p => p.1 = i /\ p.2 ∈ L
                           /\ stamp_of g p.2 <> Some (Some c)) E.
Proof.
  intros Hc Hnd. cbv zeta.
  induction Hnd as [|j L Hj Hnd IH]; intros g Hi; cbn [foldl].
  - repeat split. exists []. rewrite app_nil_r. repeat split; constructor.
  - set (g1 := match Space.bodyHash (Space.gen_space g) !! j with
               | Some _ => Space.collideBodies i j g
               | None => g
               end).
    assert (H1 : same_stamps g g1
                 /\ (Space.gen_examined g1 = Space.gen_examined g
                     \/ (Space.gen_examined g1 = Space.gen_examined g ++ [(i, j)]
                         /\ stamp_of g j <> Some (Some c)))).
    { subst g1. destruct (Space.bodyHash (Space.gen_space g) !! j) as [bj|] eqn:Ej;
        [|repeat split; now left].
      destruct (collideBodies_frame i j g) as [Hs He]. split; [exact Hs|].
      rewrite He.
      destruct (Space.bodyHash (Space.gen_space g) !! i) as [bi|] eqn:Ei;
        [|discriminate].
      rewrite (lookup_total_correct _ _ _ Ei), (lookup_total_correct _ _ _ Ej).
      injection Hi as Hi. rewrite Hi.
      destruct (JS.loose_eq (Some c) (Body.stepCount bj)) eqn:El.
      - left. now rewrite app_nil_r.
      - right. split; [reflexivity|]. cbn. intros [= Hbj].
        rewrite Hbj in El. cbn in El. rewrite float_eqb_refl in El by assumption.
        discriminate. }
    destruct H1 as [[Hs1 Hs2] He1].
    destruct (IH g1) as [[Ht1 Ht2] (E & HE & HndE & HallE)].
    { rewrite Hs2. exact Hi. }
    split; [split; [now rewrite Ht1|intros k; now rewrite Ht2]|].
    assert (HallE' : Forall (fun p => p.1 = i /\ p.2 ∈ j :: L
                                       /\ stamp_of g p.2 <> Some (Some c)) E).
    { eapply Forall_impl; [exact HallE|]. intros p (Hp1 & Hp2 & Hp3).
      split; [exact Hp1|]. split; [now apply list_elem_of_further|].
      now rewrite <- Hs2. }
    destruct He1 as [He1|[He1 Hnot]].
    + exists E. rewrite HE, He1. now repeat split.
    + exists ((i, j) :: E). rewrite HE, He1, <- app_assoc. split; [reflexivity|].
      split.
      * constructor; [|exact HndE]. intros Hin.
        rewrite Forall_forall in HallE. destruct (HallE _ Hin) as (_ & HinL & _).
        contradiction.
      * constructor; [|exact HallE']. repeat split; [apply list_elem_of_here|].
        exact Hnot.
Qed.

(** The outer loop from any point on: [done] are the keys whose turn is
    over, [todo] those to come. *)
Lemma outer_loop_examined (c : float) (K : list N) :
  is_nan c = false -> StronglySorted N.le K -> NoDup K ->
  forall (todo done : list N) (g : Space.gen_state),
  K = done ++ todo ->
  Space.stepCount (Space.gen_space g) = Some c ->
  keys (Space.bodyHash (Space.gen_space g)) = K ->
  (forall k, k ∈ done -> stamp_of g k = Some (Some c)) ->
  NoDup (Space.gen_examined g) ->
  Forall (fun p => p.1 ∈ done /\ (p.1 < p.2)%N) (Space.gen_examined g) ->
  let g' := foldl (fun g i =>
                     match Space.bodyHash (Space.gen_space g) !! i with
                     | Some _ => Space.stampAndCollide i g
                     | None => g
                     end) g todo in
  NoDup (Space.gen_examined g')
  /\ Forall (fun p => (p.1 < p.2)%N) (Space.gen_examined g').
Proof.
  intros Hc Hsorted HndK. cbv zeta.
  induction todo as [|i todo IH]; intros done g HK Hsc Hkeys Hst Hnd Hall;
    cbn [foldl].
  - split; [exact Hnd|]. eapply Forall_impl; [exact Hall|]. now intros p [_ ?].
  - assert (HiK : i ∈ K) by (rewrite HK, elem_of_app, elem_of_cons; auto).
    assert (Hi : is_Some (Space.bodyHash (Space.gen_space g) !! i))
      by (apply elem_of_keys; now rewrite Hkeys).
    destruct Hi as [bi Hbi]. rewrite Hbi. unfold Space.stampAndCollide, for_in.
    set (g0 := Space.gen_set_space g
                 (Space.on_body i
                    (fun b => Body.set_stepCount b
                                (Space.stepCount (Space.gen_space g)))
                    (Space.gen_space g))).
    assert (Hg0i : stamp_of g0 i = Some (Some c)).
    { subst g0. cbn. now rewrite lookup_alter_eq, Hbi, Hsc. }
    assert (Hg0k : forall k, k <> i -> stamp_of g0 k = stamp_of g k).
    { intros k Hk. subst g0. cbn. now rewrite lookup_alter_ne by congruence. }
    assert (Hkeys0 : keys (Space.bodyHash (Space.gen_space g0)) = K).
    { rewrite <- Hkeys. apply keys_dom. subst g0. cbn. apply dom_alter_L. }
    rewrite Hkeys0.
    destruct (inner_loop_examined c i K Hc HndK g0 Hg0i)
      as [[Hs1 Hs2] (E & HE & HndE & HallE)].
    cbv zeta in Hs1, Hs2, HE.
    set (g1 := foldl _ g0 K) in *.
    assert (HndK' : NoDup (done ++ i :: todo)) by now rewrite <- HK.
    apply NoDup_app in HndK' as (_ & Hdisj & Hnd_it).
    apply NoDup_cons in Hnd_it as [Hi_todo _].
    assert (Hi_done : i ∉ done).
    { intros Hin. apply (Hdisj i Hin). apply list_elem_of_here. }
    rewrite Forall_forall in HallE.
    assert (Hnew : forall p, p ∈ E -> p.1 = i /\ (p.1 < p.2)%N).
    { intros p Hp. destruct (HallE p Hp) as (Hp1 & Hp2 & Hp3).
      split; [exact Hp1|]. rewrite Hp1.
      rewrite HK, elem_of_app, elem_of_cons in Hp2.
      destruct Hp2 as [Hin|[Heq|Hin]].
      - exfalso. apply Hp3. rewrite Hg0k; [now apply Hst|].
        intros Heq. rewrite Heq in Hin. contradiction.
      - exfalso. apply Hp3. now rewrite Heq.
      - assert (Hle : (i <= p.2)%N).
        { rewrite HK in Hsorted. apply StronglySorted_app_1_r in Hsorted.
          apply StronglySorted_cons in Hsorted as [Hle _].
          rewrite Forall_forall in Hle. now apply Hle. }
        assert (i <> p.2) by (intros Heq; rewrite <- Heq in Hin; contradiction).
        lia. }
    apply (IH (done ++ [i]) g1).
    + now rewrite <- app_assoc.
    + rewrite Hs1. subst g0. exact Hsc.
    + rewrite (same_stamps_keys g0 g1 Hs2). exact Hkeys0.
    + intros k Hk. rewrite Hs2. apply elem_of_app in Hk as [Hk|Hk].
      * rewrite Hg0k; [now apply Hst|]. intros ->. contradiction.
      * apply list_elem_of_singleton in Hk as ->. exact Hg0i.
    + rewrite HE. subst g0. cbn [Space.gen_examined Space.gen_set_space].
      apply NoDup_app. split; [exact Hnd|]. split; [|exact HndE].
      intros p Hp HpE. rewrite Forall_forall in Hall.
      destruct (Hall p Hp) as [Hp1 _]. destruct (Hnew p HpE) as [Hp1' _].
      rewrite Hp1' in Hp1. contradiction.
    + rewrite HE. subst g0. cbn [Space.gen_examined Space.gen_set_space].
      apply Forall_app. split.
      * eapply Forall_impl; [exact Hall|]. intros p [Hp1 Hp2].
        split; [|exact Hp2]. apply elem_of_app. now left.
      * apply Forall_forall. intros p Hp. destruct (Hnew p Hp) as [Hp1 Hp2].
        split; [|exact Hp2]. rewrite Hp1, elem_of_app, list_elem_of_singleton.
        now right.
Qed.

Lemma keys_StronglySorted {A : Type} (m : gmap N A) :
  StronglySorted N.le (keys m).
Proof. unfold keys. apply StronglySorted_merge_sort; apply _. Qed.

(** X1.  The broad phase on a Space whose [stepCount] is a number: no pair
    of keys is examined twice, no body is paired with itself, and of (i, j)
    and (j, i) at most one is examined.  When the ids of the bodies are
    below 2^32 - 1, the ids that [for (i in hash)] visits in ascending
    order, every pair examined has the lower id first. *)
Theorem Space_genTemporalContactSolvers_pairs_once (this : Space) (c : float) :
  Space.stepCount this = Some c -> is_nan c = false ->
  let examined := Space.gen_examined (Space.genTemporalContactSolvers_run this) in
  NoDup examined
  /\ (forall i j, (i, j) ∈ examined -> i <> j /\ (j, i) ∉ examined)
  /\ ((forall k, is_Some (Space.bodyHash this !! k) -> (k < 2 ^ 32 - 1)%N) ->
      forall i j, (i, j) ∈ examined -> (i < j)%N).
Proof.
  intros Hsc Hc examined. subst examined.
  unfold Space.genTemporalContactSolvers_run, for_in.
  set (g0 := Space.mk_gen (Space.set_numContacts this 0) [] []).
  destruct (outer_loop_examined c (keys (Space.bodyHash (Space.gen_space g0)))
              Hc (keys_StronglySorted _) (keys_NoDup _)
              (keys (Space.bodyHash (Space.gen_space g0))) [] g0)
    as [Hnd Hall]; try reflexivity.
  - exact Hsc.
  - intros k Hk. now apply elem_of_nil in Hk.
  - constructor.
  - constructor.
  - cbv zeta in Hnd, Hall. split; [exact Hnd|].
    rewrite Forall_forall in Hall. split.
    + intros i j Hij. assert (Hlt := Hall _ Hij). cbn in Hlt.
      split; [lia|]. intros Hji. assert (Hlt' := Hall _ Hji). cbn in Hlt'. lia.
    + intros _ i j Hij. exact (Hall _ Hij).
Qed.

(** X2.  When both bodies are asleep or static, or the two are not collidable, or
    their bounds do not intersect, the loop body over two bodies makes no
    contact solver and leaves the Space as it is. *)
Theorem Space_collideBodies_filtered (i j : N) (g : Space.gen_state) :
  let body1 := Space.bodyHash (Space.gen_space g) !!! i in
  let body2 := Space.bodyHash (Space.gen_space g) !!! j in
  let active1 := Body.isAwake body1 && negb (Body.isStatic body1) in
  let active2 := Body.isAwake body2 && negb (Body.isStatic body2) in
  (active1 = false /\ active2 = false)
  \/ Body_isCollidable (Space.jointHash (Space.gen_space g)) body1 body2 = false
  \/ Bounds_intersectsBounds (Body.bounds body1) (Body.bounds body2) = false ->
  Space.gen_new (Space.collideBodies i j g) = Space.gen_new g
  /\ Space.gen_space (Space.collideBodies i j g) = Space.gen_space g.
Proof.
  intros body1 body2 active1 active2 Hskip. unfold Space.collideBodies.
  fold body1 body2. fold active1 active2.
  destruct (JS.loose_eq _ _); [now split|].
  destruct Hskip as [[-> ->]|[Hc|Hb]]; cbn [negb andb]; [now split| |].
  - rewrite Hc. cbn [negb]. destruct (negb active1 && negb active2); now split.
  - rewrite Hb. cbn [negb]. destruct (negb active1 && negb active2);
      [now split|]. destruct (negb (Body_isCollidable _ _ _)); now split.
Qed.

End broad_phase.

(** A check of the ids of the bodies that runs. *)
Lemma body_ids_below_check {opaque : Opaque} (this : Space) (n : N) :
  forallb (fun p : N * Body => N.ltb p.1 n)
          (map_to_list (Space.bodyHash this)) = true ->
  forall k, is_Some (Space.bodyHash this !! k) -> (k < n)%N.
Proof.
  intros H k [body Hk]. rewrite forallb_forall in H.
  apply elem_of_map_to_list, list_elem_of_In in Hk.
  apply N.ltb_lt. exact (H _ Hk).
Qed.

(** The broad phase of the two balls when the Space is at step 1: the one
    pair examined is (0, 1). *)
Lemma Space_genTemporalContactSolvers_pairs_once_witness :
  let this := Space.set_stepCount (Demo.two_balls 0 0 0 0) (Some 1%float) in
  let examined :=
    Space.gen_examined (Space.genTemporalContactSolvers_run this) in
  NoDup examined
  /\ examined = [(0, 1)]%N
  /\ forall i j, (i, j) ∈ examined -> (i < j)%N.
Proof.
  intros this examined.
  destruct (Space_genTemporalContactSolvers_pairs_once this 1%float)
    as (Hnd & _ & Hlt); [reflexivity|reflexivity|].
  split; [exact Hnd|]. split; [vm_compute; reflexivity|].
  apply Hlt. apply body_ids_below_check. vm_compute. reflexivity.
Defined.

(** Two sleeping balls: the pair is examined and no solver is made. *)
Lemma Space_collideBodies_filtered_witness :
  Space.gen_new (Space.collideBodies 0 1 Demo.asleep_pair) = []
  /\ Space.gen_examined (Space.collideBodies 0 1 Demo.asleep_pair) = [(0, 1)]%N.
Proof.
  split; [|vm_compute; reflexivity].
  apply (Space_collideBodies_filtered 0 1 Demo.asleep_pair).
  left. split; vm_compute; reflexivity.
Defined.

(** ** Loops with an early return *)

Section loops.

Lemma loop_until_app {A S R : Type} (body : A -> S -> R + S) (l1 l2 : list A) (s : S) :
  loop_until body (l1 ++ l2) s
  = match loop_until body l1 s with
    | inl r => inl r
    | inr s => loop_until body l2 s
    end.
Proof.
  revert s. induction l1 as [|a l1 IH]; intros s; simpl; [reflexivity|].
  destruct (body a s); [reflexivity|apply IH].
Qed.

Lemma loop_until_concat {A B S R : Type} (body : B -> S -> R + S) (g : A -> list B)
    (l : list A) (s : S) :
  loop_until (fun a s => loop_until body (g a) s) l s
  = loop_until body (concat (map g l)) s.
Proof.
  revert s. induction l as [|a l IH]; intros s; [reflexivity|].
  cbn [map concat]. rewrite loop_until_app. cbn [loop_until].
  destruct (loop_until body (g a) s); [reflexivity|apply IH].
Qed.

Lemma loop_until_omap {A B S R : Type} (body : B -> S -> R + S) (h : A -> option B)
    (l : list A) (s : S) :
  loop_until (fun a s => match h a with Some b => body b s | None => inr s end) l s
  = loop_until body (omap h l) s.
Proof.
  revert s. induction l as [|a l IH]; intros s; [reflexivity|].
  cbn [loop_until].
  change (omap h (a :: l)) with (match h a with Some b => b :: omap h l | None => omap h l end).
  destruct (h a) as [b|]; [|apply IH].
  cbn [loop_until]. destruct (body b s); [reflexivity|apply IH].
Qed.

Lemma loop_until_ext {A S R : Type} (f g : A -> S -> R + S) (l : list A) (s : S) :
  (forall a s, f a s = g a s) -> loop_until f l s = loop_until g l s.
Proof.
  intros E. revert s. induction l as [|a l IH]; intros s; simpl; [reflexivity|].
  rewrite E. destruct (g a s); [reflexivity|apply IH].
Qed.

End loops.

Section picking.
Local Open Scope Z_scope.

Lemma pickNext_none (hits : list Z) (first : Z) :
  loop_until Space.pickNext hits (-1, first)
  = match hits with [] => inr (-1, first) | h :: _ => inl h end.
Proof. destruct hits; reflexivity. Qed.

Lemma pickNext_absent (hits : list Z) (r first : Z) :
  r <> -1 -> r ∉ hits -> -1 ∉ hits ->
  loop_until Space.pickNext hits (r, first)
  = inr (r, if first =? -1 then hd (-1) hits else first).
Proof.
  intros Hr. revert first. induction hits as [|h hits IH]; intros first Hin Hm.
  - simpl. destruct (first =? -1) eqn:E; [|reflexivity].
    apply Z.eqb_eq in E. now subst.
  - apply not_elem_of_cons in Hin as [Hne Hin].
    apply not_elem_of_cons in Hm as [Hm1 Hm].
    cbn [loop_until Space.pickNext].
    rewrite (proj2 (Z.eqb_neq r (-1))) by assumption.
    rewrite (proj2 (Z.eqb_neq h r)) by congruence.
    rewrite IH by assumption. cbn [hd].
    destruct (first =? -1) eqn:E; [|now rewrite E].
    rewrite (proj2 (Z.eqb_neq h (-1))) by congruence. reflexivity.
Qed.

Lemma pickNext_found (l1 l2 : list Z) (r first : Z) :
  r <> -1 -> r ∉ l1 -> -1 ∉ l1 ->
  loop_until Space.pickNext (l1 ++ r :: l2) (r, first)
  = match l2 with
    | h :: _ => inl h
    | [] => inr (-1, if first =? -1 then hd r l1 else first)
    end.
Proof.
  intros Hr Hin Hm. rewrite loop_until_app, pickNext_absent by assumption.
  cbn [loop_until Space.pickNext].
  rewrite (proj2 (Z.eqb_neq r (-1))) by assumption.
  rewrite Z.eqb_refl, pickNext_none.
  destruct l2 as [|h l2]; [|reflexivity].
  destruct (first =? -1) eqn:E; [|now rewrite E].
  destruct l1 as [|h1 l1]; cbn [hd].
  - now rewrite Z.eqb_refl.
  - apply not_elem_of_cons in Hm as [Hm1 _].
    now rewrite (proj2 (Z.eqb_neq h1 (-1))) by congruence.
Qed.

End picking.

(** ** The authoring queries *)

Lemma loop_until_filter {A S R : Type} (body : A -> S -> R + S) (c : A -> bool)
    (l : list A) (s : S) :
  loop_until (fun a s => if c a then body a s else inr s) l s
  = loop_until body (List.filter c l) s.
Proof.
  revert s. induction l as [|a l IH]; intros s; [reflexivity|].
  cbn [loop_until List.filter]. destruct (c a); [|apply IH].
  cbn [loop_until]. destruct (body a s); [reflexivity|apply IH].
Qed.

Section int32.
Local Open Scope Z_scope.

Lemma ToInt32_small (n : Z) : - 2 ^ 31 <= n < 2 ^ 31 -> JS.ToInt32 n = n.
Proof.
  intros H. unfold JS.ToInt32. rewrite Z.mod_small by lia. lia.
Qed.

Lemma ToInt32_mod (a b : Z) :
  a mod 2 ^ 32 = b mod 2 ^ 32 -> JS.ToInt32 a = JS.ToInt32 b.
Proof.
  intros H. unfold JS.ToInt32. f_equal.
  rewrite <- (Zplus_mod_idemp_l a), <- (Zplus_mod_idemp_l b), H. reflexivity.
Qed.

Lemma ToInt32_congr (a : Z) : JS.ToInt32 a mod 2 ^ 32 = a mod 2 ^ 32.
Proof.
  unfold JS.ToInt32.
  rewrite <- Zminus_mod_idemp_l, Z.mod_mod by lia.
  rewrite Zminus_mod_idemp_l. f_equal. lia.
Qed.

Lemma packId_add (id : N) (index : Z) :
  (id < 2 ^ 15)%N -> 0 <= index < 2 ^ 16 ->
  Space.packId id index = Z.of_N id * 2 ^ 16 + index.
Proof.
  intros Hid Hindex. unfold Space.packId, JS.bor, JS.shl.
  change (2 ^ 15)%N with 32768%N in Hid. change (2 ^ 16) with 65536 in *.
  change (Z.land 16 31) with 16.
  rewrite (ToInt32_small (Z.of_N id)) by (change (2 ^ 31) with 2147483648; lia).
  rewrite Z.shiftl_mul_pow2 by lia. change (2 ^ 16) with 65536.
  rewrite (ToInt32_small (Z.of_N id * 65536))
    by (change (2 ^ 31) with 2147483648; lia).
  rewrite (ToInt32_small (Z.of_N id * 65536))
    by (change (2 ^ 31) with 2147483648; lia).
  rewrite (ToInt32_small index) by (change (2 ^ 31) with 2147483648; lia).
  change 65536 with (2 ^ 16). rewrite <- Z.shiftl_mul_pow2 by lia.
  rewrite <- Z.add_nocarry_lor.
  - reflexivity.
  - apply Z.bits_inj'. intros n Hn. rewrite Z.land_spec, Z.bits_0.
    destruct (Z.ltb_spec n 16).
    + rewrite Z.shiftl_spec_low by assumption. reflexivity.
    + rewrite (Z.bits_above_log2 index n); [apply andb_false_r|lia|].
      destruct (Z.eq_dec index 0) as [->|Hne]; [simpl; lia|].
      assert (Z.log2 index < 16) by (apply Z.log2_lt_pow2; lia). lia.
Qed.

End int32.

Section packing.
Local Open Scope Z_scope.

(** X3.  The id that [findVertexByPoint] and [findEdgeByPoint] return packs
    the id of the shape and the index of the vertex or edge in one 32-bit
    integer.  For a shape id below 2^15 and an index below 2^16 the packed
    id is not negative, and [v >> 16] and [v & 0xFFFF] give the shape id
    and the index back. *)
Theorem Space_packId_decodes (id : N) (index : Z) :
  (id < 2 ^ 15)%N -> 0 <= index < 2 ^ 16 ->
  let v := Space.packId id index in
  0 <= v < 2 ^ 31
  /\ Z.shiftr v 16 = Z.of_N id
  /\ Z.land v 65535 = index.
Proof.
  intros Hid Hindex v. subst v. rewrite packId_add by assumption.
  change (2 ^ 15)%N with 32768%N in Hid.
  change (2 ^ 16) with 65536 in *. change (2 ^ 31) with 2147483648.
  split; [lia|]. split.
  - rewrite Z.shiftr_div_pow2 by lia. change (2 ^ 16) with 65536.
    rewrite Z.div_add_l by lia. rewrite Z.div_small by lia. lia.
  - change 65535 with (Z.ones 16). rewrite Z.land_ones by lia.
    change (2 ^ 16) with 65536.
    rewrite Z.add_comm, Z.mod_add by lia. apply Z.mod_small. lia.
Qed.

(** X4.  The shift of the packing keeps the low 16 bits of the shape id
    only: two shapes whose ids differ by 65536 get the same packed id for
    the same index. *)
Theorem Space_packId_wraps (id : N) (index : Z) :
  Space.packId (id + 65536) index = Space.packId id index.
Proof.
  unfold Space.packId, JS.bor, JS.shl. f_equal. f_equal.
  apply ToInt32_mod. change (Z.land 16 31) with 16.
  rewrite !Z.shiftl_mul_pow2 by lia.
  rewrite <- (Zmult_mod_idemp_l (JS.ToInt32 (Z.of_N (id + 65536)))).
  rewrite <- (Zmult_mod_idemp_l (JS.ToInt32 (Z.of_N id))).
  rewrite !ToInt32_congr, !Zmult_mod_idemp_l.
  rewrite N2Z.inj_add. change (Z.of_N 65536) with (2 ^ 16).
  replace ((Z.of_N id + 2 ^ 16) * 2 ^ 16)
    with (Z.of_N id * 2 ^ 16 + 1 * 2 ^ 32) by (change (2 ^ 32) with (2 ^ 16 * 2 ^ 16); ring).
  apply Z_mod_plus_full.
Qed.

End packing.

Section finders.
Context {host : Host} {opaque : Opaque} {extern : Extern} {queries : Queries}.
Local Open Scope Z_scope.

Lemma elem_of_allShapes (this : Space) (s : Shape) :
  s ∈ allShapes this
  <-> exists i body, Space.bodyHash this !! i = Some body /\ s ∈ Body.shapeArr body.
Proof.
  unfold allShapes. rewrite list_elem_of_In, in_concat. split.
  - intros (l & Hl & Hs). apply in_map_iff in Hl as (body & <- & Hb).
    apply list_elem_of_In, elem_of_values in Hb as [i Hi].
    exists i, body. split; [exact Hi|]. now apply list_elem_of_In.
  - intros (i & body & Hi & Hs). exists (Body.shapeArr body). split.
    + apply in_map, list_elem_of_In, elem_of_values. eauto.
    + now apply list_elem_of_In.
Qed.

Lemma findShapeByPoint_hits (p : vec2) (refShape : option Shape) (this : Space) :
  Space.findShapeByPoint p refShape this
  = match loop_until pickNextShape
            (List.filter (fun s => Shape_pointQuery s p) (allShapes this))
            (refShape, None) with
    | inl shape => Some shape
    | inr (_, firstShape) => firstShape
    end.
Proof.
  unfold Space.findShapeByPoint, allShapes.
  rewrite <- loop_until_filter, <- loop_until_concat.
  match goal with
  | |- match ?a with _ => _ end = match ?b with _ => _ end =>
      replace a with b; [reflexivity|]
  end.
  apply loop_until_ext. intros body s. apply loop_until_ext.
  intros shape [r f]. destruct (Shape_pointQuery shape p); [|reflexivity].
  destruct r; reflexivity.
Qed.

Lemma pickNextShape_none (hits : list Shape) (first : option Shape) :
  loop_until pickNextShape hits (None, first)
  = match hits with [] => inr (None, first) | h :: _ => inl h end.
Proof. destruct hits; reflexivity. Qed.

Lemma pickNextShape_absent (hits : list Shape) (ref : Shape)
    (first : option Shape) :
  Forall (fun s => Shape.id s <> Shape.id ref) hits ->
  loop_until pickNextShape hits (Some ref, first)
  = inr (Some ref, match first with None => head hits | Some f => Some f end).
Proof.
  intros H. revert first. induction H as [|h hits Hh _ IH]; intros first.
  - now destruct first.
  - cbn [loop_until pickNextShape].
    rewrite (proj2 (N.eqb_neq _ _) Hh), IH. now destruct first.
Qed.

Lemma pickNextShape_found (l1 l2 : list Shape) (r ref : Shape)
    (first : option Shape) :
  Shape.id r = Shape.id ref ->
  Forall (fun s => Shape.id s <> Shape.id ref) l1 ->
  loop_until pickNextShape (l1 ++ r :: l2) (Some ref, first)
  = match l2 with
    | h :: _ => inl h
    | [] => inr (None, match first with
                       | None => Some (hd r l1)
                       | Some f => Some f
                       end)
    end.
Proof.
  intros Hr Hl1. rewrite loop_until_app, pickNextShape_absent by assumption.
  cbn [loop_until pickNextShape]. rewrite Hr, N.eqb_refl, pickNextShape_none.
  destruct l2; [|reflexivity]. destruct first; [reflexivity|].
  now destruct l1.
Qed.


Lemma shapeById_find (id : N) (this : Space) :
  Space.shapeById id this
  = List.find (fun s => N.eqb (Shape.id s) id) (allShapes this).
Proof.
  unfold Space.shapeById, allShapes. rewrite loop_until_concat.
  generalize (concat (map Body.shapeArr (values (Space.bodyHash this)))).
  intros l. induction l as [|s l IH]; [reflexivity|].
  cbn [loop_until find]. destruct (N.eqb (Shape.id s) id); [reflexivity|].
  exact IH.
Qed.

(** X6.  [shapeById] returns a shape with the id asked for that belongs to a
    registered body, and returns [undefined] exactly when no shape of a
    registered body has that id. *)
Theorem Space_shapeById_first (id : N) (this : Space) :
  (forall shape, Space.shapeById id this = Some shape ->
     Shape.id shape = id
     /\ exists i body, Space.bodyHash this !! i = Some body
                       /\ shape ∈ Body.shapeArr body)
  /\ (Space.shapeById id this = None <->
      forall i body shape,
        Space.bodyHash this !! i = Some body -> shape ∈ Body.shapeArr body ->
        Shape.id shape <> id).
Proof.
  rewrite shapeById_find. split.
  - intros shape Hf. apply find_some in Hf as [Hin Hid].
    split; [now apply N.eqb_eq|]. now apply elem_of_allShapes, list_elem_of_In.
  - split.
    + intros Hn i body shape Hb Hs Hid.
      assert (Hin : In shape (allShapes this))
        by (apply list_elem_of_In, elem_of_allShapes; eauto).
      apply (find_none _ _ Hn) in Hin. apply N.eqb_neq in Hin. contradiction.
    + intros Hall. destruct (find _ _) as [shape|] eqn:Hf; [|reflexivity].
      apply find_some in Hf as [Hin Hid]. apply N.eqb_eq in Hid.
      apply list_elem_of_In, elem_of_allShapes in Hin as (i & body & Hb & Hs).
      exfalso. exact (Hall i body shape Hb Hs Hid).
Qed.

End finders.

Section finders.
Context {host : Host} {opaque : Opaque} {extern : Extern} {queries : Queries}.
Local Open Scope Z_scope.

Lemma or_else_nonzero (r d : Z) : r <> 0 -> JS.or_else (Some r) d = r.
Proof. intros Hr. unfold JS.or_else. now rewrite (proj2 (Z.eqb_neq r 0)). Qed.

Lemma pickNext_cycles (hits : list Z) (ref : option Z) :
  -1 ∉ hits ->
  let result :=
    match loop_until Space.pickNext hits (JS.or_else ref (-1), -1) with
    | inl id => id
    | inr (_, firstId) => firstId
    end in
  (JS.or_else ref (-1) = -1 -> result = hd (-1) hits)
  /\ (JS.or_else ref (-1) ∉ hits -> result = hd (-1) hits)
  /\ (forall l1 l2,
        hits = l1 ++ JS.or_else ref (-1) :: l2 -> JS.or_else ref (-1) ∉ l1 ->
        result = hd (hd (JS.or_else ref (-1)) l1) l2).
Proof.
  intros Hm result. subst result. set (r := JS.or_else ref (-1)).
  split; [|split].
  - intros ->. rewrite pickNext_none. now destruct hits.
  - intros Habs. destruct (Z.eq_dec r (-1)) as [->|Hr].
    + rewrite pickNext_none. now destruct hits.
    + now rewrite pickNext_absent.
  - intros l1 l2 Hh Hl1.
    assert (Hr : r <> -1).
    { intros Heq. apply Hm. rewrite Hh, <- Heq.
      apply elem_of_app. right. apply list_elem_of_here. }
    assert (Hm1 : -1 ∉ l1).
    { intros Hin. apply Hm. rewrite Hh. apply elem_of_app. now left. }
    rewrite Hh, pickNext_found by assumption. now destruct l2.
Qed.

Lemma pickNext_result (hits : list Z) (s : Z * Z) :
  match loop_until Space.pickNext hits s with
  | inl id => id ∈ hits
  | inr (_, firstId) => firstId = s.2 \/ firstId ∈ hits
  end.
Proof.
  revert s. induction hits as [|h hits IH]; intros [r f]; [now left|].
  cbn [loop_until Space.pickNext]. destruct (r =? -1).
  - apply list_elem_of_here.
  - match goal with |- context [loop_until _ hits ?s] => specialize (IH s) end.
    destruct (loop_until _ hits _) as [id|[r' f']].
    + now apply list_elem_of_further.
    + cbn [snd] in *. destruct IH as [->|IH].
      * destruct (f =? -1); [right; apply list_elem_of_here|now left].
      * right. now apply list_elem_of_further.
Qed.

Lemma findVertexByPoint_hits (p : vec2) (minDist : float) (ref : option Z)
    (this : Space) :
  Space.findVertexByPoint p minDist ref this
  = match loop_until Space.pickNext (vertexHits p minDist this)
            (JS.or_else ref (-1), -1) with
    | inl id => id
    | inr (_, firstId) => firstId
    end.
Proof.
  unfold Space.findVertexByPoint, vertexHits, allShapes.
  rewrite <- loop_until_omap, <- loop_until_concat.
  match goal with
  | |- match ?a with _ => _ end = match ?b with _ => _ end =>
      replace a with b; [reflexivity|]
  end.
  apply loop_until_ext. intros body s. apply loop_until_ext.
  intros shape s'. cbv zeta. now destruct (_ =? -1).
Qed.

Lemma findEdgeByPoint_hits (p : vec2) (minDist : float) (ref : option Z)
    (this : Space) :
  Space.findEdgeByPoint p minDist ref this
  = match loop_until Space.pickNext (edgeHits p minDist this)
            (JS.or_else ref (-1), -1) with
    | inl id => id
    | inr (_, firstId) => firstId
    end.
Proof.
  unfold Space.findEdgeByPoint, edgeHits, allShapes.
  rewrite <- loop_until_omap, <- loop_until_concat.
  match goal with
  | |- match ?a with _ => _ end = match ?b with _ => _ end =>
      replace a with b; [reflexivity|]
  end.
  apply loop_until_ext. intros body s. apply loop_until_ext.
  intros shape s'. cbv zeta. destruct (Shape.type shape); try reflexivity.
  now destruct (_ =? -1).
Qed.

(** X7.  [findEdgeByPoint] looks at polygons only: its result is -1, or the
    packed id of an edge that a polygon of a registered body reports for
    the point. *)
Theorem Space_findEdgeByPoint_polygons (p : vec2) (minDist : float)
    (ref : option Z) (this : Space) :
  let edge := Space.findEdgeByPoint p minDist ref this in
  edge = -1
  \/ exists i body shape,
       Space.bodyHash this !! i = Some body
       /\ shape ∈ Body.shapeArr body
       /\ Shape.type shape = Shape.TYPE_POLY
       /\ Shape_findEdgeByPoint shape p minDist <> -1
       /\ edge = Space.packId (Shape.id shape)
                   (Shape_findEdgeByPoint shape p minDist).
Proof.
  intros edge. subst edge. rewrite findEdgeByPoint_hits.
  assert (H := pickNext_result (edgeHits p minDist this)
                 (JS.or_else ref (-1), -1)).
  assert (Hin : forall id, id ∈ edgeHits p minDist this ->
            exists i body shape,
              Space.bodyHash this !! i = Some body
              /\ shape ∈ Body.shapeArr body
              /\ Shape.type shape = Shape.TYPE_POLY
              /\ Shape_findEdgeByPoint shape p minDist <> -1
              /\ id = Space.packId (Shape.id shape)
                        (Shape_findEdgeByPoint shape p minDist)).
  { intros id Hid. unfold edgeHits in Hid.
    apply list_elem_of_omap in Hid as (shape & Hs & Hid).
    apply elem_of_allShapes in Hs as (i & body & Hb & Hs).
    exists i, body, shape. destruct (Shape.type shape); try discriminate.
    cbv zeta in Hid. destruct (_ =? -1) eqn:E; [discriminate|].
    apply Z.eqb_neq in E. injection Hid as <-. now repeat split. }
  destruct (loop_until _ _ _) as [id|[r f]].
  - right. now apply Hin.
  - cbn [snd] in H. destruct H as [->|H]; [now left|right; now apply Hin].
Qed.

Lemma findJointByPoint_hits (p : vec2) (minDist : float) (ref : option Z)
    (this : Space) :
  Space.findJointByPoint p minDist ref this
  = match loop_until Space.pickNext (jointHits p minDist this)
            (JS.or_else ref (-1), -1) with
    | inl id => id
    | inr (_, firstId) => firstId
    end.
Proof.
  unfold Space.findJointByPoint, jointHits.
  rewrite <- loop_until_omap. cbv zeta.
  match goal with
  | |- match ?a with _ => _ end = match ?b with _ => _ end =>
      replace a with b; [reflexivity|]
  end.
  apply loop_until_ext. intros joint s. now destruct (_ =? -1).
Qed.

(** X8.  [findJointByPoint] returns -1, or the packed id of an anchor of a
    registered joint that lies within [minDist] of the point: index 0 for
    the first anchor, and index 1 for the second anchor only when the first
    anchor is not within [minDist]. *)
Theorem Space_findJointByPoint_anchors (p : vec2) (minDist : float)
    (ref : option Z) (this : Space) :
  let jointId := Space.findJointByPoint p minDist ref this in
  let dsq := (minDist * minDist)%float in
  jointId = -1
  \/ exists i joint,
       Space.jointHash this !! i = Some joint
       /\ (((vec2.distsq p (Space.getWorldAnchor1 joint (Space.bodyHash this))
             <? dsq)%float = true
            /\ jointId = Space.packId (Joint.id joint) 0)
           \/ ((vec2.distsq p (Space.getWorldAnchor1 joint (Space.bodyHash this))
                <? dsq)%float = false
               /\ (vec2.distsq p (Space.getWorldAnchor2 joint (Space.bodyHash this))
                   <? dsq)%float = true
               /\ jointId = Space.packId (Joint.id joint) 1)).
Proof.
  intros jointId dsq. subst jointId. rewrite findJointByPoint_hits.
  assert (H := pickNext_result (jointHits p minDist this)
                 (JS.or_else ref (-1), -1)).
  assert (Hin : forall id, id ∈ jointHits p minDist this ->
    exists i joint,
       Space.jointHash this !! i = Some joint
       /\ (((vec2.distsq p (Space.getWorldAnchor1 joint (Space.bodyHash this))
             <? dsq)%float = true
            /\ id = Space.packId (Joint.id joint) 0)
           \/ ((vec2.distsq p (Space.getWorldAnchor1 joint (Space.bodyHash this))
                <? dsq)%float = false
               /\ (vec2.distsq p (Space.getWorldAnchor2 joint (Space.bodyHash this))
                   <? dsq)%float = true
               /\ id = Space.packId (Joint.id joint) 1))).
  { intros id Hid. unfold jointHits in Hid.
    apply list_elem_of_omap in Hid as (joint & Hj & Hid).
    apply elem_of_values in Hj as [i Hi]. exists i, joint.
    split; [exact Hi|]. cbv zeta in Hid. fold dsq in Hid.
    destruct (_ =? -1) eqn:E; [discriminate|]. injection Hid as <-.
    unfold Space.jointIdAt in *.
    destruct (vec2.distsq p (Space.getWorldAnchor1 _ _) <? dsq)%float;
      [left; now split|].
    destruct (vec2.distsq p (Space.getWorldAnchor2 _ _) <? dsq)%float;
      [right; now repeat split|discriminate]. }
  destruct (loop_until _ _ _) as [id|[r f]].
  - right. now apply Hin.
  - cbn [snd] in H. destruct H as [->|H]; [now left|right; now apply Hin].
Qed.

Lemma jointById_find (id : N) (this : Space) :
  Space.jointById id this
  = List.find (fun j => N.eqb (Joint.id j) id) (values (Space.jointHash this)).
Proof.
  unfold Space.jointById.
  generalize (values (Space.jointHash this)).
  intros l. induction l as [|s l IH]; [reflexivity|].
  cbn [loop_until find]. destruct (N.eqb (Joint.id s) id); [reflexivity|].
  exact IH.
Qed.

Lemma jointById_keyed (id : N) (this : Space) :
  joints_keyed this -> Space.jointById id this = Space.jointHash this !! id.
Proof.
  intros Hk. rewrite jointById_find.
  destruct (find _ _) as [j|] eqn:Hf.
  - apply find_some in Hf as [Hin Hid]. apply N.eqb_eq in Hid.
    apply list_elem_of_In, elem_of_values in Hin as [i Hi].
    rewrite <- Hid, (Hk _ _ Hi). now symmetry.
  - destruct (Space.jointHash this !! id) as [j|] eqn:Hj; [|reflexivity].
    assert (Hin : In j (values (Space.jointHash this)))
      by (apply list_elem_of_In, elem_of_values; eauto).
    apply (find_none _ _ Hf) in Hin. rewrite (Hk _ _ Hj), N.eqb_refl in Hin.
    discriminate.
Qed.

Lemma on_body_jointHash (ref : N) (f : Body -> Body) (this : Space) :
  Space.jointHash (Space.on_body ref f this) = Space.jointHash this.
Proof. reflexivity. Qed.

Lemma addJoint_keyed (joint : Joint) (this : Space) :
  joints_keyed this -> joints_keyed (Space.addJoint joint this).
Proof.
  intros Hk. unfold Space.addJoint.
  destruct (Space.jointHash this !! Joint.id joint) eqn:E; [exact Hk|].
  intros i j. cbn. intros Hj.
  apply lookup_insert_Some in Hj as [[<- <-]|[_ Hj]]; [reflexivity|].
  now apply Hk.
Qed.

Lemma removeJoint_keyed (joint : Joint) (this : Space) :
  joints_keyed this -> joints_keyed (Space.removeJoint joint this).
Proof.
  intros Hk. unfold Space.removeJoint.
  destruct (Space.jointHash this !! Joint.id joint) eqn:E; [|exact Hk].
  intros i j. cbn. intros Hj.
  apply lookup_delete_Some in Hj as [_ Hj]. now apply Hk.
Qed.

Lemma removeLinkedJoints_keyed (ref : N) (this : Space) :
  joints_keyed this -> joints_keyed (Space.removeLinkedJoints ref this).
Proof.
  unfold Space.removeLinkedJoints.
  generalize (set_keys (Body.jointHash (Space.bodyHash this !!! ref))).
  intros l. revert this. induction l as [|i l IH]; intros this Hk; [exact Hk|].
  cbn [foldl]. apply IH.
  destruct (Space.bodyHash this !! ref); [|exact Hk].
  destruct (decide _); [|exact Hk].
  destruct (Space.jointHash this !! i); [|exact Hk].
  now apply removeJoint_keyed.
Qed.

Lemma removeBody_keyed (body : Body) (this : Space) :
  joints_keyed this -> joints_keyed (Space.removeBody body this).
Proof.
  intros Hk. unfold Space.removeBody.
  destruct (Space.bodyHash this !! Body.id body); [|exact Hk].
  intros i j. cbn. apply (removeLinkedJoints_keyed _ _ Hk).
Qed.

Lemma registry_reachable_keyed (this : Space) :
  registry_reachable this -> joints_keyed this.
Proof.
  induction 1.
  - intros i j. cbn. now rewrite lookup_empty.
  - unfold Space.addBody. now destruct (Space.bodyHash this !! Body.id body).
  - now apply removeBody_keyed.
  - now apply addJoint_keyed.
  - now apply removeJoint_keyed.
  - unfold Space.clear. cbn.
    apply (for_in_invariant Space.bodyHash
             (fun _ body this => Space.removeBody body this)
             joints_keyed); [exact IHregistry_reachable|].
    intros i a s Hs _. now apply removeBody_keyed.
Qed.

(** X9.  In every Space that [new Space()] and the registry operations
    produce, [jointById] is the lookup in [jointHash]: it returns the joint
    registered under the id, and [undefined] when there is none. *)
Theorem Space_jointById_registered (id : N) (this : Space) :
  registry_reachable this ->
  Space.jointById id this = Space.jointHash this !! id.
Proof. intros Hr. now apply jointById_keyed, registry_reachable_keyed. Qed.

End finders.

Section more.
Context {host : Host} {opaque : Opaque} {extern : Extern} {queries : Queries}.
Local Open Scope Z_scope.

Lemma pickNext_cycles_through (hits : list Z) :
  -1 ∉ hits ->
  cycles_through hits
    (fun ref => match loop_until Space.pickNext hits (JS.or_else ref (-1), -1) with
                | inl id => id
                | inr (_, firstId) => firstId
                end).
Proof.
  intros Hm. split; [|split].
  - intros ref Href. apply (pickNext_cycles hits ref Hm).
    now destruct Href as [-> | ->].
  - intros r Hr. destruct (Z.eq_dec r 0) as [->|Hr0].
    + now apply (pickNext_cycles hits (Some 0) Hm).
    + apply (pickNext_cycles hits (Some r) Hm). now rewrite or_else_nonzero.
  - intros r l1 l2 Hr0 Hh Hl1.
    destruct (pickNext_cycles hits (Some r) Hm) as (_ & _ & Hc).
    rewrite or_else_nonzero in * by assumption. now apply Hc.
Qed.

Lemma jointHits_valid (p : vec2) (minDist : float) (this : Space) :
  -1 ∉ jointHits p minDist this.
Proof.
  unfold jointHits. intros Hin.
  apply list_elem_of_omap in Hin as (joint & _ & H). cbv zeta in H.
  destruct (_ =? -1) eqn:E; [discriminate|]. injection H as H.
  rewrite H in E. discriminate.
Qed.

(** X10.  The three finders of ids cycle through their hits as
    [findShapeByPoint] does, with the reference 0 counting as no reference:
    [findVertexByPoint] and [findEdgeByPoint] when no packed id is -1, and
    [findJointByPoint] always. *)
Theorem Space_findByPoint_cycles (p : vec2) (minDist : float) (this : Space) :
  (-1 ∉ vertexHits p minDist this ->
   cycles_through (vertexHits p minDist this)
     (fun ref => Space.findVertexByPoint p minDist ref this))
  /\ (-1 ∉ edgeHits p minDist this ->
      cycles_through (edgeHits p minDist this)
        (fun ref => Space.findEdgeByPoint p minDist ref this))
  /\ cycles_through (jointHits p minDist this)
       (fun ref => Space.findJointByPoint p minDist ref this).
Proof.
  split; [|split].
  - intros Hm. apply pickNext_cycles_through in Hm.
    destruct Hm as (H1 & H2 & H3). split; [|split]; intros;
      rewrite findVertexByPoint_hits; eauto.
  - intros Hm. apply pickNext_cycles_through in Hm.
    destruct Hm as (H1 & H2 & H3). split; [|split]; intros;
      rewrite findEdgeByPoint_hits; eauto.
  - destruct (pickNext_cycles_through _ (jointHits_valid p minDist this))
      as (H1 & H2 & H3).
    split; [|split]; intros; rewrite findJointByPoint_hits; eauto.
Qed.

Lemma findContactSolver_from_spec (arr : list ContactSolver)
    (shape1 shape2 : Shape) :
  forall k0 : nat,
  match Space.findContactSolver_from k0 arr shape1 shape2 with
  | Some (k, c) =>
      (k0 <= k)%nat
      /\ arr !! (k - k0)%nat = Some c
      /\ ContactSolver.shape1 c = Shape.id shape1
      /\ ContactSolver.shape2 c = Shape.id shape2
      /\ forall k' c', (k' < k - k0)%nat -> arr !! k' = Some c' ->
           ~ (ContactSolver.shape1 c' = Shape.id shape1
              /\ ContactSolver.shape2 c' = Shape.id shape2)
  | None =>
      forall c, c ∈ arr ->
        ~ (ContactSolver.shape1 c = Shape.id shape1
           /\ ContactSolver.shape2 c = Shape.id shape2)
  end.
Proof.
  induction arr as [|c arr IH]; intros k0; cbn [Space.findContactSolver_from].
  - intros c Hc. now apply elem_of_nil in Hc.
  - destruct (N.eqb (Shape.id shape1) (ContactSolver.shape1 c)
              && N.eqb (Shape.id shape2) (ContactSolver.shape2 c)) eqn:E.
    + apply andb_true_iff in E as [E1 E2].
      apply N.eqb_eq in E1, E2. rewrite Nat.sub_diag.
      repeat split; auto. intros k' c' Hk'. lia.
    + assert (Hno : ~ (ContactSolver.shape1 c = Shape.id shape1
                       /\ ContactSolver.shape2 c = Shape.id shape2)).
      { intros [E1 E2]. rewrite E1, E2, !N.eqb_refl in E. discriminate. }
      specialize (IH (S k0)).
      destruct (Space.findContactSolver_from (S k0) arr shape1 shape2)
        as [[k c1]|].
      * destruct IH as (Hle & Hk & H1 & H2 & Hfirst).
        split; [lia|]. replace (k - k0)%nat with (S (k - S k0)) by lia.
        split; [exact Hk|]. split; [exact H1|]. split; [exact H2|].
        intros [|k'] c' Hlt Hc'.
        -- injection Hc' as <-. exact Hno.
        -- apply (Hfirst k' c'); [lia|exact Hc'].
      * intros c' Hc'. apply elem_of_cons in Hc' as [->|Hc']; [exact Hno|].
        now apply IH.
Qed.


Lemma length_values {A : Type} (m : gmap N A) : length (values m) = size m.
Proof.
  unfold values.
  assert (H : forall l : list N, (forall i, i ∈ l -> is_Some (m !! i)) ->
            length (omap (M := list) (fun i => m !! i) l) = length l).
  { induction l as [|i l IH]; intros Hl; [reflexivity|].
    destruct (Hl i (list_elem_of_here _ _)) as [a Ha].
    change (omap (M := list) (fun i0 => m !! i0) (i :: l))
      with (match m !! i with
            | Some a => a :: omap (M := list) (fun i0 => m !! i0) l
            | None => omap (M := list) (fun i0 => m !! i0) l
            end).
    rewrite Ha. cbn [length]. f_equal. apply IH.
    intros j Hj. apply Hl. now apply list_elem_of_further. }
  rewrite H by (intros i; apply elem_of_keys).
  rewrite keys_Permutation. rewrite <- (size_dom (D := gset N)). reflexivity.
Qed.

(** X12.  [toJSON] writes one entry for every registered body and one for
    every registered joint, and no other: the two arrays have the sizes of
    [bodyHash] and [jointHash], and their entries are the serializations of
    the registered bodies and joints. *)
Theorem Space_toJSON_entries (this : Space) :
  let config := Space.toJSON this in
  length (Config.bodies config) = size (Space.bodyHash this)
  /\ length (Config.joints config) = size (Space.jointHash this)
  /\ (forall entry, entry ∈ Config.bodies config <->
        exists i body, Space.bodyHash this !! i = Some body
                       /\ entry = Body_serialize body)
  /\ (forall entry, entry ∈ Config.joints config <->
        exists i joint, Space.jointHash this !! i = Some joint
                        /\ entry = Dispatch.serialize joint (Space.bodyHash this)).
Proof.
  intros config. subst config. unfold Space.toJSON.
  cbn [Config.bodies Config.joints].
  rewrite !length_map, !length_values. split; [reflexivity|].
  split; [reflexivity|]. split.
  - intros entry. rewrite list_elem_of_fmap. split.
    + intros (b & -> & Hb). apply elem_of_values in Hb as [i Hi]. eauto.
    + intros (i & b & Hi & ->). exists b. split; [reflexivity|].
      apply elem_of_values. eauto.
  - intros entry. rewrite list_elem_of_fmap. split.
    + intros (b & -> & Hb). apply elem_of_values in Hb as [i Hi]. eauto.
    + intros (i & b & Hi & ->). exists b. split; [reflexivity|].
      apply elem_of_values. eauto.
Qed.

End more.

(** ** Breakable joints *)

Section for_in_filter.
Context {A S : Type}.

(** A loop whose body keeps the hash as it is or deletes the key of the
    turn, and keeps a property [Inv] of the loop state: the loop leaves the
    entries whose turn kept them. *)
Lemma for_in_filter (get : S -> gmap N A) (body : N -> A -> S -> S)
    (keep : N -> A -> bool) (Inv : S -> Prop) (s : S) :
  Inv s ->
  (forall i a s, Inv s -> get s !! i = Some a ->
     Inv (body i a s)
     /\ get (body i a s) = if keep i a then get s else delete i (get s)) ->
  Inv (for_in get body s)
  /\ forall i, get (for_in get body s) !! i
               = match get s !! i with
                 | Some a => if keep i a then Some a else None
                 | None => None
                 end.
Proof.
  intros Hs Hbody. unfold for_in.
  assert (Hgen : forall (l : list N) (s : S), Inv s ->
    let s' := foldl (fun s i => match get s !! i with
                               | Some a => body i a s
                               | None => s
                               end) s l in
    Inv s' /\ forall i, get s' !! i
                = match get s !! i with
                  | Some a => if decide (i ∈ l) then
                                if keep i a then Some a else None
                              else Some a
                  | None => None
                  end).
  { clear s Hs. induction l as [|k l IH]; intros s Hs; cbn [foldl].
    - split; [exact Hs|]. intros i. destruct (get s !! i); [|reflexivity].
      rewrite decide_False; [reflexivity|]. apply not_elem_of_nil.
    - destruct (get s !! k) as [a|] eqn:Ek.
      + destruct (Hbody k a s Hs Ek) as [Hs1 Hg1].
        destruct (IH (body k a s) Hs1) as [Hs2 Hg2]. split; [exact Hs2|].
        intros i. rewrite Hg2, Hg1.
        destruct (decide (i = k)) as [->|Hne].
        * rewrite Ek. rewrite (decide_True (P := k ∈ k :: l))
            by apply list_elem_of_here.
          destruct (keep k a) eqn:Ekeep.
          -- rewrite Ek, Ekeep. now destruct (decide (k ∈ l)).
          -- now rewrite lookup_delete_eq.
        * assert (El : (if keep k a then get s else delete k (get s)) !! i
                       = get s !! i).
          { destruct (keep k a); [reflexivity|]. now apply lookup_delete_ne. }
          rewrite El. destruct (get s !! i) as [b|]; [|reflexivity].
          destruct (decide (i ∈ l)) as [Hin|Hnin].
          -- rewrite decide_True by (now apply list_elem_of_further).
             reflexivity.
          -- rewrite decide_False; [reflexivity|].
             intros Hin. apply elem_of_cons in Hin as [?|?]; congruence.
      + destruct (IH s Hs) as [Hs2 Hg2]. split; [exact Hs2|].
        intros i. rewrite Hg2. destruct (get s !! i) as [b|] eqn:Ei;
          [|reflexivity].
        assert (Hne : i <> k) by congruence.
        destruct (decide (i ∈ l)) as [Hin|Hnin].
        * rewrite decide_True by (now apply list_elem_of_further).
          reflexivity.
        * rewrite decide_False; [reflexivity|].
          intros Hin. apply elem_of_cons in Hin as [?|?]; congruence. }
  destruct (Hgen (keys (get s)) s Hs) as [H1 H2]. split; [exact H1|].
  intros i. rewrite H2. destruct (get s !! i) as [a|] eqn:Ei; [|reflexivity].
  rewrite decide_True; [reflexivity|]. apply elem_of_keys. eauto.
Qed.

End for_in_filter.

Section break_joints.
Context {host : Host} {opaque : Opaque} {extern : Extern}.
Local Open Scope float_scope.

Lemma removeJoint_registered (joint other : Joint) (this : Space) :
  Space.jointHash this !! Joint.id joint = Some other ->
  Space.jointHash (Space.removeJoint joint this)
    = delete (Joint.id joint) (Space.jointHash this)
  /\ Space.numJoints (Space.removeJoint joint this)
     = (Space.numJoints this - 1)%Z.
Proof. intros E. unfold Space.removeJoint. rewrite E. now split. Qed.

(** X13.  The block of [step] that handles breakable joints, on a Space whose
    joints are registered under their ids: it removes exactly the joints
    that are breakable and whose reaction force has a squared length of
    [maxForce * maxForce] or more, keeps every other joint as it is, and
    lowers [numJoints] by the number of joints removed. *)
Theorem Space_breakJoints_removes (dt_inv : float) (this : Space) :
  joints_keyed this ->
  let breaks joint :=
    Joint.breakable joint
    && JS.ge (vec2.lengthsq (Dispatch.getReactionForce joint dt_inv))
             (Joint.maxForce joint * Joint.maxForce joint) in
  let after := Space.breakJoints dt_inv this in
  (forall i, Space.jointHash after !! i
             = match Space.jointHash this !! i with
               | Some joint => if breaks joint then None else Some joint
               | None => None
               end)
  /\ (Space.numJoints this - Space.numJoints after
      = Z.of_nat (size (Space.jointHash this))
        - Z.of_nat (size (Space.jointHash after)))%Z.
Proof.
  intros Hk breaks after. subst after. unfold Space.breakJoints.
  destruct (for_in_filter Space.jointHash
              (fun _ joint this =>
                 if Joint.breakable joint then
                   if JS.ge (vec2.lengthsq (Dispatch.getReactionForce joint dt_inv))
                            (Joint.maxForce joint * Joint.maxForce joint)
                   then Space.removeJoint joint this
                   else this
                 else this)
              (fun _ joint => negb (breaks joint))
              (fun s => joints_keyed s
                        /\ (Space.numJoints this - Space.numJoints s
                            = Z.of_nat (size (Space.jointHash this))
                              - Z.of_nat (size (Space.jointHash s)))%Z)
              this) as [[_ Hn] Hg].
  - split; [exact Hk|lia].
  - intros i joint s [Hks Hns] Hi. subst breaks. cbv beta.
    destruct (Joint.breakable joint); cbn [andb negb]; [|now repeat split].
    destruct (JS.ge _ _); cbn [negb]; [|now repeat split].
    assert (Hid := Hks _ _ Hi). rewrite <- Hid in Hi.
    destruct (removeJoint_registered joint joint s Hi) as [Hj Hnum].
    rewrite Hid in *. split; [split|exact Hj].
    + now apply removeJoint_keyed.
    + rewrite Hnum, Hj. rewrite (map_size_lookup_Some _ _ _ Hi) in Hns. lia.
  - split; [|exact Hn]. intros i. rewrite Hg.
    destruct (Space.jointHash this !! i) as [joint|]; [|reflexivity].
    now destruct (breaks joint).
Qed.

End break_joints.

(** ** Removing a body *)

Section cascade.
Context {host : Host} {opaque : Opaque} {extern : Extern}.

Lemma unlinks_refl (i : N) (b : Body) : unlinks i b b.
Proof. repeat split; [reflexivity|]. intros x Hx. now left. Qed.

Lemma unlinks_trans (i : N) (b1 b2 b3 : Body) :
  unlinks i b1 b2 -> unlinks i b2 b3 -> unlinks i b1 b3.
Proof.
  intros (E1 & S1 & H1) (E2 & S2 & H2). split; [congruence|].
  split; [intros x Hx; apply S1, S2, Hx|]. intros x Hx.
  destruct (H1 x Hx) as [Hx2| ->]; [|now right]. now apply H2.
Qed.

Lemma unlinks_awake (i : N) (b : Body) : unlinks i b (Body.awake true b).
Proof. repeat split; [reflexivity|]. intros x Hx. now left. Qed.

Lemma unlinks_delete (i : N) (b : Body) :
  unlinks i b (Body.set_jointHash b (Body.jointHash b ∖ {[i]})).
Proof.
  split; [reflexivity|]. split; cbn.
  - intros x. rewrite elem_of_difference. tauto.
  - intros x Hx. destruct (decide (x = i)); [now right|left].
    rewrite elem_of_difference, elem_of_singleton. tauto.
Qed.

Lemma on_body_unlinks (i ref : N) (f : Body -> Body) (this : Space) :
  (forall b, unlinks i b (f b)) ->
  forall k, match Space.bodyHash this !! k,
                  Space.bodyHash (Space.on_body ref f this) !! k with
            | Some b, Some b' => unlinks i b b'
            | None, None => True
            | _, _ => False
            end.
Proof.
  intros Hf k. cbn. destruct (decide (ref = k)) as [->|Hne].
  - rewrite lookup_alter_eq. destruct (Space.bodyHash this !! k); cbn; auto.
  - rewrite lookup_alter_ne by assumption.
    destruct (Space.bodyHash this !! k); [apply unlinks_refl|exact I].
Qed.

(** [removeJoint] of a registered joint, on the bodies. *)
Lemma removeJoint_bodies (joint other : Joint) (this : Space) :
  Space.jointHash this !! Joint.id joint = Some other ->
  forall k, match Space.bodyHash this !! k,
                  Space.bodyHash (Space.removeJoint joint this) !! k with
            | Some b, Some b' => unlinks (Joint.id joint) b b'
            | None, None => True
            | _, _ => False
            end.
Proof.
  intros E k. unfold Space.removeJoint. rewrite E.
  cbn [Space.bodyHash Space.set_numJoints Space.set_jointHash].
  set (i := Joint.id joint).
  set (s1 := Space.on_body (Joint.body1 joint) (Body.awake true) this).
  set (s2 := Space.on_body (Joint.body2 joint) (Body.awake true) s1).
  set (f := fun b => Body.set_jointHash b (Body.jointHash b ∖ {[i]})).
  set (s3 := Space.on_body (Joint.body1 joint) f s2).
  assert (H1 := on_body_unlinks i (Joint.body1 joint) (Body.awake true) this
                  (unlinks_awake i) k).
  assert (H2 := on_body_unlinks i (Joint.body2 joint) (Body.awake true) s1
                  (unlinks_awake i) k).
  assert (H3 := on_body_unlinks i (Joint.body1 joint) f s2 (unlinks_delete i) k).
  assert (H4 := on_body_unlinks i (Joint.body2 joint) f s3 (unlinks_delete i) k).
  fold s1 in H1. fold s2 in H2. fold s3 in H3.
  destruct (Space.bodyHash this !! k) as [b|],
           (Space.bodyHash s1 !! k) as [b1|]; try contradiction;
  destruct (Space.bodyHash s2 !! k) as [b2|]; try contradiction;
  destruct (Space.bodyHash s3 !! k) as [b3|]; try contradiction;
  destruct (Space.bodyHash (Space.on_body (Joint.body2 joint) f s3) !! k)
    as [b4|]; try contradiction; try exact I.
  eauto using unlinks_trans.
Qed.

Lemma shrunk_refl (D : N -> Prop) (this : Space) : shrunk D this this.
Proof.
  split; [auto|]. split.
  - intros i [j Hj] Hn. congruence.
  - intros k b Hb. exists b. repeat split; auto.
Qed.

Lemma shrunk_gone (D : N -> Prop) (s s' : Space) (i : N) :
  shrunk D s s' -> Space.jointHash s !! i = None ->
  Space.jointHash s' !! i = None.
Proof.
  intros (H1 & _) Hn. destruct (Space.jointHash s' !! i) as [j|] eqn:E;
    [|reflexivity]. rewrite (H1 _ _ E) in Hn. discriminate.
Qed.

Lemma shrunk_trans (D : N -> Prop) (s1 s2 s3 : Space) :
  shrunk D s1 s2 -> shrunk D s2 s3 -> shrunk D s1 s3.
Proof.
  intros H12 H23. assert (Hg := shrunk_gone D s2 s3).
  destruct H12 as (A1 & A2 & A3), H23 as (B1 & B2 & B3).
  split; [auto|]. split.
  - intros i Hi Hn. destruct (Space.jointHash s2 !! i) as [j|] eqn:E.
    + apply B2; eauto.
    + now apply A2.
  - intros k b3 Hb3. destruct (B3 k b3 Hb3) as (b2 & Hb2 & E2 & S2 & L2).
    destruct (A3 k b2 Hb2) as (b1 & Hb1 & E1 & S1 & L1).
    exists b1. split; [exact Hb1|]. split; [congruence|].
    split; [intros x Hx; apply S1, S2, Hx|]. intros i Hi.
    destruct (L1 i Hi) as [Hi2|Hn]; [now apply L2|].
    right. apply Hg; [|exact Hn]. repeat split; assumption.
Qed.

Lemma shrunk_weaken (D D' : N -> Prop) (s s' : Space) :
  (forall i, D i -> D' i) -> shrunk D s s' -> shrunk D' s s'.
Proof. intros HD (A1 & A2 & A3). repeat split; auto. Qed.

Lemma removeJoint_shrunk (D : N -> Prop) (joint other : Joint) (this : Space) :
  Space.jointHash this !! Joint.id joint = Some other ->
  D (Joint.id joint) ->
  shrunk D this (Space.removeJoint joint this).
Proof.
  intros E HD. destruct (removeJoint_registered joint other this E) as [Hj _].
  assert (Hb := removeJoint_bodies joint other this E).
  split; [|split].
  - intros i j. rewrite Hj. now intros [_ ?]%lookup_delete_Some.
  - intros i [j Hi]. rewrite Hj. intros Hn.
    apply lookup_delete_None in Hn as [<-|Hn]; [exact HD|congruence].
  - intros k b' Hb'. specialize (Hb k). rewrite Hb' in Hb.
    destruct (Space.bodyHash this !! k) as [b|]; [|contradiction].
    destruct Hb as (E1 & S1 & L1). exists b. repeat split; try assumption.
    intros i Hi. destruct (L1 i Hi) as [?| ->]; [now left|right].
    rewrite Hj. apply lookup_delete_eq.
Qed.

(** The loop of [removeBody] over the joints of the body, from any turn
    on. *)
Lemma removeLinked_loop (D : N -> Prop) (ref : N) (l : list N) :
  forall this : Space,
  joints_keyed this -> (forall i, i ∈ l -> D i) ->
  (exists body, Space.bodyHash this !! ref = Some body
     /\ forall i, i ∈ l ->
          i ∈ Body.jointHash body \/ Space.jointHash this !! i = None) ->
  let this' :=
    foldl (fun this i =>
             match Space.bodyHash this !! ref with
             | Some body =>
                 if decide (i ∈ Body.jointHash body) then
                   match Space.jointHash this !! i with
                   | Some joint => Space.removeJoint joint this
                   | None => this
                   end
                 else this
             | None => this
             end) this l in
  joints_keyed this' /\ shrunk D this this'
  /\ (forall i, i ∈ l -> Space.jointHash this' !! i = None)
  /\ (forall k, is_Some (Space.bodyHash this' !! k)
                <-> is_Some (Space.bodyHash this !! k)).
Proof.
  induction l as [|i l IH]; intros this Hk HD (body & Hbody & Hl); cbn [foldl].
  - split; [exact Hk|]. split; [apply shrunk_refl|]. split; [|reflexivity].
    intros i Hi. now apply elem_of_nil in Hi.
  - rewrite Hbody.
    set (s1 := if decide (i ∈ Body.jointHash body) then
                 match Space.jointHash this !! i with
                 | Some joint => Space.removeJoint joint this
                 | None => this
                 end
               else this).
    assert (H1 : joints_keyed s1 /\ shrunk D this s1
                 /\ Space.jointHash s1 !! i = None
                 /\ (forall k, is_Some (Space.bodyHash s1 !! k)
                               <-> is_Some (Space.bodyHash this !! k))).
    { subst s1. destruct (decide (i ∈ Body.jointHash body)) as [Hin|Hnin].
      - destruct (Space.jointHash this !! i) as [joint|] eqn:Ej.
        + assert (Hid := Hk _ _ Ej). rewrite <- Hid in Ej.
          split; [now apply removeJoint_keyed|].
          split; [apply (removeJoint_shrunk D joint joint); [exact Ej|]|].
          { rewrite Hid. apply HD, list_elem_of_here. }
          split; [|intros k; apply removeJoint_lookup_is_Some].
          destruct (removeJoint_registered joint joint this Ej) as [-> _].
          rewrite Hid. apply lookup_delete_eq.
        + split; [exact Hk|]. split; [apply shrunk_refl|].
          split; [exact Ej|reflexivity].
      - split; [exact Hk|]. split; [apply shrunk_refl|]. split; [|reflexivity].
        destruct (Hl i (list_elem_of_here _ _)); [contradiction|assumption]. }
    destruct H1 as (Hk1 & Hs1 & Hi1 & Hd1).
    destruct (IH s1 Hk1) as (Hk2 & Hs2 & Hl2 & Hd2).
    + intros x Hx. apply HD. now apply list_elem_of_further.
    + destruct (proj2 (Hd1 ref)) as [b1 Hb1]; [rewrite Hbody; eauto|].
      exists b1. split; [exact Hb1|]. intros x Hx.
      pose proof Hs1 as (_ & _ & A3).
      destruct (A3 ref b1 Hb1) as (b0 & Hb0 & _ & _ & L).
      rewrite Hbody in Hb0. injection Hb0 as <-.
      destruct (Hl x (list_elem_of_further _ _ _ Hx)) as [Hin|Hn].
      * destruct (L x Hin); auto.
      * right. now apply (shrunk_gone D this s1).
    + split; [exact Hk2|]. split; [eapply shrunk_trans; eassumption|].
      split.
      * intros x Hx. apply elem_of_cons in Hx as [->|Hx]; [|now apply Hl2].
        now apply (shrunk_gone D s1).
      * intros k. now rewrite Hd2.
Qed.


Lemma elem_of_set_keys (X : gset N) (i : N) : i ∈ set_keys X <-> i ∈ X.
Proof.
  unfold set_keys. rewrite merge_sort_Permutation. apply elem_of_elements.
Qed.

Lemma removeLinkedJoints_spec (ref : N) (this : Space) (body : Body) :
  joints_keyed this -> Space.bodyHash this !! ref = Some body ->
  let this' := Space.removeLinkedJoints ref this in
  joints_keyed this'
  /\ shrunk (fun i => i ∈ Body.jointHash body) this this'
  /\ (forall i, i ∈ Body.jointHash body -> Space.jointHash this' !! i = None)
  /\ (forall k, is_Some (Space.bodyHash this' !! k)
                <-> is_Some (Space.bodyHash this !! k)).
Proof.
  intros Hk Hb. cbv zeta. unfold Space.removeLinkedJoints.
  rewrite (lookup_total_correct _ _ _ Hb).
  destruct (removeLinked_loop (fun i => i ∈ Body.jointHash body) ref
              (set_keys (Body.jointHash body)) this Hk)
    as (H1 & H2 & H3 & H4).
  - intros i. apply elem_of_set_keys.
  - exists body. split; [exact Hb|]. intros i Hi. left.
    now apply elem_of_set_keys.
  - split; [exact H1|]. split; [exact H2|]. split; [|exact H4].
    intros i Hi. apply H3. now apply elem_of_set_keys.
Qed.

(** [removeBody] of a registered body: the joints listed in the body are
    gone with it, and nothing else is. *)
Lemma removeBody_spec (body registered : Body) (this : Space) :
  joints_keyed this ->
  Space.bodyHash this !! Body.id body = Some registered ->
  let this' := Space.removeBody body this in
  joints_keyed this'
  /\ shrunk (fun i => i ∈ Body.jointHash registered) this this'
  /\ (forall i, i ∈ Body.jointHash registered ->
        Space.jointHash this' !! i = None)
  /\ (forall k, is_Some (Space.bodyHash this' !! k)
                <-> k <> Body.id body /\ is_Some (Space.bodyHash this !! k))
  /\ Space.numBodies this' = (Space.numBodies this - 1)%Z.
Proof.
  intros Hk Hb. cbv zeta. unfold Space.removeBody. rewrite Hb.
  destruct (removeLinkedJoints_spec (Body.id body) this registered Hk Hb)
    as (H1 & H2 & H3 & H4).
  cbn [Space.jointHash Space.bodyHash Space.numBodies Space.set_numBodies
       Space.set_bodyHash].
  split; [exact H1|]. split; [|split; [exact H3|split]].
  - destruct H2 as (A1 & A2 & A3). split; [exact A1|]. split; [exact A2|].
    intros k b'. cbn. intros [_ Hb']%lookup_delete_Some. now apply A3.
  - intros k. rewrite <- H4. split.
    + intros [b Hb']. apply lookup_delete_Some in Hb' as [Hne Hb'].
      split; [congruence|eauto].
    + intros [Hne [b Hb']]. exists b. apply lookup_delete_Some.
      split; [congruence|exact Hb'].
  - unfold Space.removeLinkedJoints.
    generalize (set_keys (Body.jointHash (Space.bodyHash this !!! Body.id body))).
    intros l. generalize this. clear. induction l as [|i l IH]; intros this;
      cbn [foldl]; [reflexivity|].
    rewrite IH. destruct (Space.bodyHash this !! Body.id body); [|reflexivity].
    destruct (decide _); [|reflexivity].
    destruct (Space.jointHash this !! i) as [joint|]; [|reflexivity].
    unfold Space.removeJoint. now destruct (Space.jointHash this !! Joint.id joint).
Qed.


End cascade.

(** ** Clearing a Space *)

Section clearing.
Context {host : Host} {opaque : Opaque} {extern : Extern}.

Lemma size_is_Some_delete {A : Type} (m m' : gmap N A) (k : N) :
  is_Some (m !! k) ->
  (forall k', is_Some (m' !! k') <-> k' <> k /\ is_Some (m !! k')) ->
  size m = S (size m').
Proof.
  intros [a Hk] H. rewrite (map_size_lookup_Some m k a Hk). f_equal.
  rewrite <- !(size_dom (D := gset N)). f_equal. apply set_eq. intros x.
  rewrite !elem_of_dom, H. split.
  - intros [b Hb]. apply lookup_delete_Some in Hb as [? ?]. eauto.
  - intros [Hne [b Hb]]. exists b. apply lookup_delete_Some. eauto.
Qed.

Lemma clearing_step (this0 this : Space) (k : N) (body : Body) :
  bodies_keyed this0 -> clearing this0 this ->
  Space.bodyHash this !! k = Some body ->
  clearing this0 (Space.removeBody body this)
  /\ forall k', is_Some (Space.bodyHash (Space.removeBody body this) !! k')
                <-> k' <> k /\ is_Some (Space.bodyHash this !! k').
Proof.
  intros Hkb (Hk & Hs & Hgone & Hn) Hb.
  pose proof Hs as (_ & _ & A3).
  destruct (A3 k body Hb) as (b0 & Hb0 & Hid & Hsub & Hl).
  assert (Hidk : Body.id body = k) by (rewrite Hid; now apply Hkb).
  subst k.
  destruct (removeBody_spec body body this Hk Hb) as (R1 & R2 & R3 & R4 & R5).
  split; [|exact R4].
  split; [exact R1|]. split; [|split].
  - eapply shrunk_trans; [exact Hs|].
    eapply shrunk_weaken; [|exact R2]. intros i Hi. exists (Body.id body), b0.
    split; [exact Hb0|]. now apply Hsub.
  - intros k' b' Hb' Hnone i Hi.
    destruct (Space.bodyHash this !! k') as [b1|] eqn:E1.
    + assert (k' = Body.id body).
      { destruct (decide (k' = Body.id body)) as [|Hne]; [assumption|].
        destruct (proj2 (R4 k')) as [x Hx]; [split; eauto|]. congruence. }
      subst k'. rewrite Hb in E1. injection E1 as <-.
      rewrite Hb0 in Hb'. injection Hb' as <-.
      destruct (Hl i Hi) as [Hin|Hg]; [now apply R3|].
      eapply shrunk_gone; [exact R2|exact Hg].
    + eapply shrunk_gone; [exact R2|]. now apply (Hgone k' b').
  - rewrite R5.
    rewrite (size_is_Some_delete (Space.bodyHash this)
               (Space.bodyHash (Space.removeBody body this)) (Body.id body)) in Hn;
      [lia|eauto|exact R4].
Qed.

Lemma clearing_loop (this0 : Space) (l : list N) :
  bodies_keyed this0 -> forall this : Space, clearing this0 this ->
  let this' := foldl (fun this i =>
                        match Space.bodyHash this !! i with
                        | Some body => Space.removeBody body this
                        | None => this
                        end) this l in
  clearing this0 this'
  /\ forall k, is_Some (Space.bodyHash this' !! k)
               <-> (k ∉ l) /\ is_Some (Space.bodyHash this !! k).
Proof.
  intros Hkb. induction l as [|i l IH]; intros this Hc; cbn [foldl].
  - split; [exact Hc|]. intros k. split; [|tauto].
    intros H. split; [apply not_elem_of_nil|exact H].
  - destruct (Space.bodyHash this !! i) as [body|] eqn:E.
    + destruct (clearing_step this0 this i body Hkb Hc E) as [Hc1 Hd1].
      destruct (IH _ Hc1) as [Hc2 Hd2]. split; [exact Hc2|].
      intros k. rewrite Hd2, Hd1, not_elem_of_cons. tauto.
    + destruct (IH _ Hc) as [Hc2 Hd2]. split; [exact Hc2|].
      intros k. rewrite Hd2, not_elem_of_cons. split; [|tauto].
      intros [Hn [b Hb]]. repeat split; eauto. congruence.
Qed.

Lemma clearing_refl (this : Space) : joints_keyed this -> clearing this this.
Proof.
  intros Hk. split; [exact Hk|]. split; [apply shrunk_refl|]. split; [|lia].
  intros k b Hb Hn. congruence.
Qed.

Lemma clear_loop (g : Globals) (this : Space) :
  joints_keyed this -> bodies_keyed this ->
  let after := (Space.clear g this).2 in
  Space.bodyHash after = ∅
  /\ (forall i joint, Space.jointHash after !! i = Some joint ->
        Space.jointHash this !! i = Some joint)
  /\ (forall i, is_Some (Space.jointHash this !! i) ->
        Space.jointHash after !! i = None ->
        exists k body, Space.bodyHash this !! k = Some body
                       /\ i ∈ Body.jointHash body)
  /\ (forall k body i, Space.bodyHash this !! k = Some body ->
        i ∈ Body.jointHash body -> Space.jointHash after !! i = None)
  /\ (Space.numBodies this - Space.numBodies after
      = Z.of_nat (size (Space.bodyHash this)))%Z.
Proof.
  intros Hk Hkb after. subst after. unfold Space.clear, for_in.
  cbn [fst snd Space.bodyHash Space.jointHash Space.contactSolverArr
       Space.stepCount Space.numBodies Space.set_stepCount
       Space.set_contactSolverArr].
  destruct (clearing_loop this (keys (Space.bodyHash this)) Hkb this
              (clearing_refl this Hk)) as [(_ & Hs & Hgone & Hn) Hd].
  cbv zeta in Hs, Hgone, Hn, Hd.
  set (after := foldl _ this _) in *.
  assert (He : Space.bodyHash after = ∅).
  { apply map_eq. intros k. rewrite lookup_empty.
    destruct (Space.bodyHash after !! k) as [b|] eqn:E; [|reflexivity].
    destruct (proj1 (Hd k)) as [Hnin Hsome]; [eauto|].
    exfalso. apply Hnin. now apply elem_of_keys. }
  destruct Hs as (A1 & A2 & _).
  split; [exact He|]. split; [exact A1|]. split; [exact A2|]. split.
  - intros k body i Hb Hin. apply (Hgone k body Hb); [|exact Hin].
    now rewrite He, lookup_empty.
  - rewrite He, map_size_empty in Hn. lia.
Qed.

(** X15.  [clear], on a Space whose joints and bodies are registered under
    their ids: no body and no contact solver is left, [stepCount] is 0,
    [numBodies] went down by the number of bodies, and the three id
    counters are 0.  A joint is left exactly when no registered body listed
    it: [jointHash] is not emptied by itself. *)
Theorem Space_clear_tears_down (g : Globals) (this : Space) :
  joints_keyed this -> bodies_keyed this ->
  let after := (Space.clear g this).2 in
  Space.bodyHash after = ∅
  /\ Space.contactSolverArr after = []
  /\ Space.stepCount after = Some 0%float
  /\ (Space.numBodies this - Space.numBodies after
      = Z.of_nat (size (Space.bodyHash this)))%Z
  /\ (forall i joint,
        Space.jointHash after !! i = Some joint
        <-> Space.jointHash this !! i = Some joint
            /\ forall k body, Space.bodyHash this !! k = Some body ->
                              i ∉ Body.jointHash body)
  /\ Globals.Shape_id_counter (Space.clear g this).1 = 0%N
  /\ Globals.Body_id_counter (Space.clear g this).1 = 0%N
  /\ Globals.Joint_id_counter (Space.clear g this).1 = 0%N.
Proof.
  intros Hk Hkb after.
  destruct (clear_loop g this Hk Hkb) as (He & A1 & A2 & Hgone & Hn).
  fold after in He, A1, A2, Hgone, Hn.
  split; [exact He|]. split; [reflexivity|]. split; [reflexivity|].
  split; [exact Hn|]. split; [|repeat split].
  intros i joint. split.
  - intros Hi. split; [now apply A1|]. intros k body Hb Hin.
    rewrite (Hgone k body i Hb Hin) in Hi. discriminate.
  - intros [Hi Hfree].
    destruct (Space.jointHash after !! i) as [j|] eqn:E.
    + now rewrite (A1 _ _ E) in Hi.
    + destruct (A2 i) as (k & body & Hb & Hin); [eauto|exact E|].
      exfalso. exact (Hfree k body Hb Hin).
Qed.

End clearing.

(** ** Adding and removing a joint; waking across joints *)

Section round_trip.
Context {host : Host} {opaque : Opaque} {extern : Extern}.

Lemma lookup_alter_decide {A : Type} (f : A -> A) (i k : N) (m : gmap N A) :
  alter f i m !! k = (fun a => if decide (k = i) then f a else a) <$> m !! k.
Proof.
  destruct (decide (k = i)) as [->|Hne].
  - now rewrite lookup_alter_eq.
  - rewrite lookup_alter_ne by congruence. now destruct (m !! k).
Qed.


End round_trip.

Section waking.
Context {host : Host} {opaque : Opaque} {extern : Extern}.

Local Abbreviation active body :=
  (Body.isAwake body && negb (Body.isStatic body)).

Lemma woken_refl (b : Body) : woken b b.
Proof. now left. Qed.

Lemma woken_trans (b1 b2 b3 : Body) : woken b1 b2 -> woken b2 b3 -> woken b1 b3.
Proof.
  intros [->| ->] [->| ->]; try (now left); now right.
Qed.

Lemma woken_awake (b b' : Body) :
  woken b b' -> Body.isAwake b = true -> Body.isAwake b' = true.
Proof. intros [->| ->] H; [exact H|reflexivity]. Qed.

Lemma woken_active (b b' : Body) :
  woken b b' -> active b = true -> active b' = true.
Proof.
  intros [->| ->] H; [exact H|]. apply andb_true_iff in H as [_ H].
  cbn. exact H.
Qed.

(** Two tables with the same bodies, some of them woken. *)
Local Abbreviation woken_table m m' :=
  (forall k : N, match m !! k, m' !! k with
                 | Some b, Some b' => woken b b'
                 | None, None => True
                 | _, _ => False
                 end).

Lemma on_body_woken (ref : N) (this : Space) :
  woken_table (Space.bodyHash this)
              (Space.bodyHash (Space.on_body ref (Body.awake true) this)).
Proof.
  intros k. cbn. rewrite lookup_alter_decide.
  destruct (Space.bodyHash this !! k) as [b|]; [|exact I]. cbn.
  destruct (decide (k = ref)); [now right|now left].
Qed.

Lemma woken_table_trans (m1 m2 m3 : gmap N Body) :
  woken_table m1 m2 -> woken_table m2 m3 -> woken_table m1 m3.
Proof.
  intros H12 H23 k. specialize (H12 k). specialize (H23 k).
  destruct (m1 !! k), (m2 !! k), (m3 !! k); try contradiction; try exact I.
  eapply woken_trans; eassumption.
Qed.

(** The body of the loop of [wakeAcrossJoints]. *)
Local Abbreviation wakeAcross joint this :=
  (let body1 := Space.bodyHash this !!! Joint.body1 joint in
   let body2 := Space.bodyHash this !!! Joint.body2 joint in
   let awake1 := Body.isAwake body1 && negb (Body.isStatic body1) in
   let awake2 := Body.isAwake body2 && negb (Body.isStatic body2) in
   if xorb awake1 awake2 then
     let this' := if negb awake1
                  then Space.on_body (Joint.body1 joint) (Body.awake true) this
                  else this in
     if negb awake2
     then Space.on_body (Joint.body2 joint) (Body.awake true) this'
     else this'
   else this).

Lemma wakeAcross_frame (joint : Joint) (this : Space) :
  Space.jointHash (wakeAcross joint this) = Space.jointHash this
  /\ woken_table (Space.bodyHash this) (Space.bodyHash (wakeAcross joint this)).
Proof.
  cbv zeta.
  assert (Hrefl : woken_table (Space.bodyHash this) (Space.bodyHash this)).
  { intros k. destruct (Space.bodyHash this !! k); [apply woken_refl|exact I]. }
  destruct (xorb _ _); [|now split].
  destruct (negb _); destruct (negb _); split; try reflexivity;
    try exact Hrefl; try apply on_body_woken.
  eapply woken_table_trans; apply on_body_woken.
Qed.

Lemma wakeAcross_wakes (joint : Joint) (this : Space) (b1 b2 : Body) :
  Space.bodyHash this !! Joint.body1 joint = Some b1 ->
  Space.bodyHash this !! Joint.body2 joint = Some b2 ->
  active b1 || active b2 = true ->
  exists b1' b2',
    Space.bodyHash (wakeAcross joint this) !! Joint.body1 joint = Some b1'
    /\ Space.bodyHash (wakeAcross joint this) !! Joint.body2 joint = Some b2'
    /\ Body.isAwake b1' = true /\ Body.isAwake b2' = true.
Proof.
  intros H1 H2 Hact. cbv zeta.
  rewrite (lookup_total_correct _ _ _ H1), (lookup_total_correct _ _ _ H2).
  destruct (active b1) eqn:A1, (active b2) eqn:A2; try discriminate;
    cbn [xorb negb].
  - exists b1, b2. repeat split; try assumption.
    + now apply andb_true_iff in A1 as [? _].
    + now apply andb_true_iff in A2 as [? _].
  - cbn [Space.on_body Space.bodyHash Space.set_bodyHash].
    rewrite !lookup_alter_decide, H1, H2. cbn.
    rewrite (decide_True (P := Joint.body2 joint = Joint.body2 joint)) by reflexivity.
    eexists _, _. split; [reflexivity|]. split; [reflexivity|].
    split; [|reflexivity].
    destruct (decide _); [reflexivity|]. now apply andb_true_iff in A1 as [? _].
  - cbn [Space.on_body Space.bodyHash Space.set_bodyHash].
    rewrite !lookup_alter_decide, H1, H2. cbn.
    rewrite (decide_True (P := Joint.body1 joint = Joint.body1 joint)) by reflexivity.
    eexists _, _. split; [reflexivity|]. split; [reflexivity|].
    split; [reflexivity|].
    destruct (decide _); [reflexivity|]. now apply andb_true_iff in A2 as [? _].
Qed.

Lemma wake_loop (J : gmap N Joint) (l : list N) :
  forall this : Space, Space.jointHash this = J ->
  let this' :=
    foldl (fun this i => match Space.jointHash this !! i with
                         | Some joint => wakeAcross joint this
                         | None => this
                         end) this l in
  Space.jointHash this' = J
  /\ woken_table (Space.bodyHash this) (Space.bodyHash this')
  /\ forall i joint b1 b2,
       i ∈ l -> J !! i = Some joint ->
       Space.bodyHash this !! Joint.body1 joint = Some b1 ->
       Space.bodyHash this !! Joint.body2 joint = Some b2 ->
       active b1 || active b2 = true ->
       exists b1' b2',
         Space.bodyHash this' !! Joint.body1 joint = Some b1'
         /\ Space.bodyHash this' !! Joint.body2 joint = Some b2'
         /\ Body.isAwake b1' = true /\ Body.isAwake b2' = true.
Proof.
  induction l as [|i0 l IH]; intros this HJ; cbn [foldl].
  - split; [exact HJ|]. split.
    + intros k. destruct (Space.bodyHash this !! k); [apply woken_refl|exact I].
    + intros i joint b1 b2 Hi. now apply elem_of_nil in Hi.
  - set (s1 := match Space.jointHash this !! i0 with
               | Some joint => wakeAcross joint this
               | None => this
               end).
    assert (H1 : Space.jointHash s1 = J
                 /\ woken_table (Space.bodyHash this) (Space.bodyHash s1)).
    { subst s1. destruct (Space.jointHash this !! i0) as [j0|].
      - destruct (wakeAcross_frame j0 this) as [E W]. split; [congruence|exact W].
      - split; [exact HJ|]. intros k.
        destruct (Space.bodyHash this !! k); [apply woken_refl|exact I]. }
    destruct H1 as [HJ1 W1]. destruct (IH s1 HJ1) as (HJ2 & W2 & Hw).
    split; [exact HJ2|]. split; [eapply woken_table_trans; eassumption|].
    intros i joint b1 b2 Hi Hj Hb1 Hb2 Hact.
    assert (Hs1 : exists c1 c2,
              Space.bodyHash s1 !! Joint.body1 joint = Some c1
              /\ Space.bodyHash s1 !! Joint.body2 joint = Some c2
              /\ woken b1 c1 /\ woken b2 c2).
    { assert (X1 := W1 (Joint.body1 joint)). assert (X2 := W1 (Joint.body2 joint)).
      rewrite Hb1 in X1. rewrite Hb2 in X2.
      destruct (Space.bodyHash s1 !! Joint.body1 joint) as [c1|]; [|contradiction].
      destruct (Space.bodyHash s1 !! Joint.body2 joint) as [c2|]; [|contradiction].
      eauto 8. }
    destruct Hs1 as (c1 & c2 & Hc1 & Hc2 & Wc1 & Wc2).
    apply elem_of_cons in Hi as [->|Hi].
    + assert (Hdone : Body.isAwake c1 = true /\ Body.isAwake c2 = true).
      { subst s1. rewrite HJ, Hj in Hc1, Hc2.
        destruct (wakeAcross_wakes joint this b1 b2 Hb1 Hb2 Hact)
          as (d1 & d2 & Hd1 & Hd2 & A1 & A2).
        rewrite Hd1 in Hc1. rewrite Hd2 in Hc2.
        injection Hc1 as <-. injection Hc2 as <-. now split. }
      destruct Hdone as [A1 A2].
      assert (Y1 := W2 (Joint.body1 joint)). assert (Y2 := W2 (Joint.body2 joint)).
      rewrite Hc1 in Y1. rewrite Hc2 in Y2.
      match goal with
      | |- context [foldl ?f s1 l] => set (s2 := foldl f s1 l) in *
      end.
      destruct (Space.bodyHash s2 !! Joint.body1 joint) as [e1|]; [|contradiction].
      destruct (Space.bodyHash s2 !! Joint.body2 joint) as [e2|]; [|contradiction].
      exists e1, e2. repeat split; eauto using woken_awake.
    + apply (Hw i joint c1 c2 Hi Hj Hc1 Hc2).
      apply orb_true_iff in Hact as [Ha|Ha].
      * now rewrite (woken_active _ _ Wc1 Ha).
      * rewrite (woken_active _ _ Wc2 Ha). apply orb_true_r.
Qed.


(** X18.  The two integration blocks of [step] leave a body that is not
    dynamic or not awake exactly as it is. *)
Theorem Space_integrate_skips (dt : float) (this : Space) (i : N) (body : Body) :
  Space.bodyHash this !! i = Some body ->
  Body.isDynamic body && Body.isAwake body = false ->
  Space.bodyHash (Space.integrateVelocity dt this) !! i = Some body
  /\ Space.bodyHash (Space.integratePosition dt this) !! i = Some body.
Proof.
  intros Hb Hskip. unfold Space.integrateVelocity, Space.integratePosition.
  rewrite !each_body_fmap. cbn [Space.bodyHash Space.set_bodyHash].
  rewrite !lookup_fmap, Hb. cbn. now rewrite Hskip.
Qed.

End waking.

(** ** What a step leaves alone *)

Section step_frame.
Context {host : Host} {opaque : Opaque} {extern : Extern}.

Lemma registry_settings (s s' : Space) :
  registry s' = registry s -> settings s' = settings s.
Proof. intros H. exact (f_equal (fun r => r.1.1) H). Qed.

Lemma removeJoint_settings (joint : Joint) (this : Space) :
  settings (Space.removeJoint joint this) = settings this.
Proof.
  unfold Space.removeJoint. now destruct (Space.jointHash this !! Joint.id joint).
Qed.

Lemma collideShapes_registry (i j : N) (shape1 shape2 : Shape)
    (g : Space.gen_state) :
  registry (Space.gen_space (Space.collideShapes i j shape1 shape2 g))
  = registry (Space.gen_space g).
Proof.
  unfold Space.collideShapes.
  destruct (collision_collide shape1 shape2) as [hit contactArr].
  destruct hit; [|reflexivity]. cbn [negb].
  destruct (N.ltb _ _); destruct (Space.findContactSolver _ _ _) as [[k c]|];
    reflexivity.
Qed.

Lemma collideBodies_registry (i j : N) (g : Space.gen_state) :
  registry (Space.gen_space (Space.collideBodies i j g))
  = registry (Space.gen_space g).
Proof.
  unfold Space.collideBodies.
  destruct (JS.loose_eq _ _); [reflexivity|].
  destruct (negb _ && negb _); [reflexivity|].
  destruct (negb (Body_isCollidable _ _ _)); [reflexivity|].
  destruct (negb (Bounds_intersectsBounds _ _)); [reflexivity|].
  generalize (Body.shapeArr (Space.bodyHash (Space.gen_space g) !!! i)).
  generalize (Body.shapeArr (Space.bodyHash (Space.gen_space g) !!! j)).
  intros l2 l1.
  change (registry (Space.gen_space g))
    with (registry (Space.gen_space (Space.gen_log g (i, j)))).
  generalize (Space.gen_log g (i, j)). clear g.
  induction l1 as [|s1 l1 IH]; intros g; cbn [foldl]; [reflexivity|].
  rewrite IH. clear IH. revert g.
  induction l2 as [|s2 l2 IH]; intros g; cbn [foldl]; [reflexivity|].
  rewrite IH. apply collideShapes_registry.
Qed.

Lemma genTemporalContactSolvers_registry (this : Space) :
  registry (Space.genTemporalContactSolvers this).2 = registry this.
Proof.
  unfold Space.genTemporalContactSolvers, Space.genTemporalContactSolvers_run.
  cbn [snd].
  apply (for_in_invariant (fun g => Space.bodyHash (Space.gen_space g))
           (fun body1_index _ g => Space.stampAndCollide body1_index g)
           (fun g => registry (Space.gen_space g) = registry this));
    [reflexivity|].
  intros i a g Hg _. unfold Space.stampAndCollide.
  apply (for_in_invariant (fun g => Space.bodyHash (Space.gen_space g))
           (fun body2_index _ g => Space.collideBodies i body2_index g)
           (fun g => registry (Space.gen_space g) = registry this));
    [exact Hg|].
  intros j b g' Hg' _. now rewrite collideBodies_registry.
Qed.

Lemma each_body_registry (f : Body -> Body) (this : Space) :
  registry (Space.each_body f this) = registry this.
Proof. now rewrite each_body_fmap. Qed.

Lemma foldl_registry {A : Type} (f : Space -> A -> Space) (l : list A)
    (this : Space) :
  (forall s a, registry (f s a) = registry s) ->
  registry (foldl f this l) = registry this.
Proof.
  intros Hf. revert this. induction l as [|a l IH]; intros this; cbn [foldl];
    [reflexivity|]. now rewrite IH, Hf.
Qed.

Lemma wakeAcrossJoints_registry (this : Space) :
  registry (Space.wakeAcrossJoints this) = registry this.
Proof.
  unfold Space.wakeAcrossJoints.
  apply (for_in_invariant Space.jointHash _
           (fun s => registry s = registry this)); [reflexivity|].
  intros i joint s Hs _. destruct (xorb _ _); [|exact Hs].
  destruct (negb _); destruct (negb _); exact Hs.
Qed.

Lemma postSolveAll_registry (this : Space) :
  registry (Space.postSolveAll this) = registry this.
Proof. unfold Space.postSolveAll. now apply foldl_registry. Qed.

Lemma processSleep_registry (dt : float) (positionSolved : bool) (this : Space) :
  registry (Space.processSleep dt positionSolved this) = registry this.
Proof.
  unfold Space.processSleep. rewrite sleepAccounting_spec.
  destruct (positionSolved && _); [|reflexivity].
  now rewrite each_body_registry.
Qed.

Lemma each_joint_settings (method : Joint -> Store -> Joint * Store)
    (this : Space) :
  settings (Space.each_joint method this) = settings this.
Proof.
  unfold Space.each_joint.
  apply (for_in_invariant Space.jointHash _
           (fun s => settings s = settings this)); [reflexivity|].
  intros i joint s Hs _. now destruct (method joint (Space.bodyHash s)).
Qed.

Lemma initSolver_settings (dt dt_inv : float) (warmStarting : bool)
    (this : Space) :
  settings (Space.initSolver dt dt_inv warmStarting this) = settings this.
Proof.
  unfold Space.initSolver. destruct warmStarting.
  - match goal with
    | |- settings (foldl ?f ?s ?l) = _ =>
        rewrite (registry_settings _ _
                   (foldl_registry f l s (fun _ _ => eq_refl)))
    end.
    now rewrite each_joint_settings.
  - now rewrite each_joint_settings.
Qed.

Lemma velocityRound_settings (this : Space) :
  settings (Space.velocityRound this) = settings this.
Proof.
  unfold Space.velocityRound.
  destruct (Space.each_contact _ _ _) as [arr st].
  change (settings (Space.each_joint Dispatch.solveVelocityConstraints this)
          = settings this).
  apply each_joint_settings.
Qed.

Lemma velocitySolver_settings (iteration : Z) (this : Space) :
  settings (Space.velocitySolver iteration this) = settings this.
Proof.
  unfold Space.velocitySolver.
  induction (Z.to_nat iteration) as [|n IH]; [reflexivity|].
  change (Nat.iter (S n) Space.velocityRound this)
    with (Space.velocityRound (Nat.iter n Space.velocityRound this)).
  now rewrite velocityRound_settings.
Qed.

Lemma breakJoints_settings (dt_inv : float) (this : Space) :
  settings (Space.breakJoints dt_inv this) = settings this.
Proof.
  unfold Space.breakJoints.
  apply (for_in_invariant Space.jointHash _
           (fun s => settings s = settings this)); [reflexivity|].
  intros i joint s Hs _. destruct (Joint.breakable joint); [|exact Hs].
  destruct (JS.ge _ _); [|exact Hs]. now rewrite removeJoint_settings.
Qed.

Lemma positionRound_settings (this : Space) :
  settings (Space.positionRound this).2 = settings this.
Proof.
  unfold Space.positionRound.
  destruct (Space.contactsPosition _ _ _) as [contactsOk [arr st]].
  unfold Space.jointsPosition.
  match goal with
  | |- context [for_in ?get ?body ?s0] =>
      assert (H : settings (for_in get body s0).2 = settings this)
  end.
  { apply (for_in_invariant (fun s : bool * Space => Space.jointHash s.2) _
             (fun s => settings s.2 = settings this)); [reflexivity|].
    intros i joint [ok s] Hs _.
    now destruct (Dispatch.solvePositionConstraints joint (Space.bodyHash s))
      as [jok [j st']]. }
  now destruct (for_in _ _ _).
Qed.

Lemma positionSolver_settings (iteration : Z) (g : Globals) (this : Space) :
  settings (Space.positionSolver iteration g this).2.2 = settings this.
Proof.
  unfold Space.positionSolver.
  generalize (Globals.set_positionIterations g 0). clear g.
  revert this. induction (Z.to_nat iteration) as [|n IH]; intros this g;
    [reflexivity|].
  cbn [Space.positionLoop].
  assert (H := positionRound_settings this).
  destruct (Space.positionRound this) as [ok this1]. cbn [snd] in H.
  destruct ok; [exact H|]. now rewrite IH.
Qed.

(** X19.  [step] increments [stepCount] and assigns none of [gravity],
    [damping] and [numBodies], whatever its arguments are. *)
Theorem Space_step_settings (dt : float) (vel_iteration pos_iteration : Z)
    (warmStarting allowSleep : bool) (g : Globals) (this : Space) :
  let after :=
    (Space.step dt vel_iteration pos_iteration warmStarting allowSleep g this).2 in
  Space.stepCount after = JS.incr (Space.stepCount this)
  /\ Space.gravity after = Space.gravity this
  /\ Space.damping after = Space.damping this
  /\ Space.numBodies after = Space.numBodies this.
Proof.
  intros after.
  assert (H : settings after
              = (Space.gravity this, Space.damping this, Space.numBodies this,
                 JS.incr (Space.stepCount this))).
  { subst after. unfold Space.step, Space.stepSolve.
    assert (Hgen := registry_settings _ _
                      (genTemporalContactSolvers_registry
                         (Space.set_stepCount this (JS.incr (Space.stepCount this))))).
    destruct (Space.genTemporalContactSolvers _) as [arr this1].
    cbn [snd] in Hgen.
    match goal with
    | |- context [Space.positionSolver ?n ?g ?s] =>
        assert (Hpos := positionSolver_settings n g s);
        destruct (Space.positionSolver n g s) as [positionSolved [g' this2]]
    end.
    cbn [snd] in Hpos.
    rewrite breakJoints_settings in Hpos.
    unfold Space.integratePosition in Hpos.
    rewrite (registry_settings _ _ (each_body_registry _ _)),
      velocitySolver_settings,
      (registry_settings _ _ (wakeAcrossJoints_registry _)) in Hpos.
    unfold Space.integrateVelocity in Hpos.
    rewrite (registry_settings _ _ (each_body_registry _ _)),
      initSolver_settings in Hpos.
    change (settings (Space.set_contactSolverArr this1 arr))
      with (settings this1) in Hpos.
    rewrite Hgen in Hpos.
    assert (Hend : forall s,
              settings
                (Space.each_body
                   (fun body => if Body.isDynamic body && Body.isAwake body
                                then Body_cacheData body else body)
                   (Space.postSolveAll (Space.each_body Body_syncTransform s)))
              = settings s).
    { intros s.
      now rewrite (registry_settings _ _ (each_body_registry _ _)),
        (registry_settings _ _ (postSolveAll_registry _)),
        (registry_settings _ _ (each_body_registry _ _)). }
    destruct allowSleep; cbn [snd].
    - now rewrite (registry_settings _ _ (processSleep_registry _ _ _)), Hend.
    - now rewrite Hend. }
  injection H as H1 H2 H3 H4. auto.
Qed.

End step_frame.

(** ** Rope joints through a step *)

Section ropes_kept.
Context {host : Host} {opaque : Opaque} {extern : Extern}.
Variable this : Space.
Hypothesis Hkeyed : joints_keyed this.
Hypothesis Hropes : forall k joint,
  Space.jointHash this !! k = Some joint -> Joint.proto joint = Joint.RopeJoint.

Lemma joints_kept_refl : joints_kept this this.
Proof.
  split; [eauto|]. split; [eauto|]. lia.
Qed.

Lemma joints_kept_registry (s s' : Space) :
  registry s' = registry s -> joints_kept this s -> joints_kept this s'.
Proof.
  intros H. assert (E1 := f_equal (fun r => r.1.2) H).
  assert (E2 := f_equal (fun r => r.2) H). cbn in E1, E2.
  unfold joints_kept. now rewrite E1, E2.
Qed.

Lemma joints_kept_rope (s : Space) (k : N) (joint : Joint) :
  joints_kept this s -> Space.jointHash s !! k = Some joint ->
  Joint.proto joint = Joint.RopeJoint /\ Joint.id joint = k.
Proof.
  intros (H1 & _) Hj. destruct (H1 k joint Hj) as (j0 & Hj0 & E).
  assert (Ep := f_equal (fun m => m.1.1.1.1.1.1.1.1.2) E).
  assert (Ei := f_equal (fun m => m.1.1.1.1.1.1.1.1.1) E).
  cbn in Ep, Ei. rewrite Ep, Ei. split; [eapply Hropes|apply Hkeyed]; eassumption.
Qed.

Lemma joints_kept_insert (s : Space) (k : N) (joint joint' : Joint) (st : Store) :
  joints_kept this s -> Space.jointHash s !! k = Some joint ->
  makeup joint' = makeup joint ->
  joints_kept this
    (Space.set_bodyHash
       (Space.set_jointHash s (<[k := joint']> (Space.jointHash s))) st).
Proof.
  intros (H1 & H2 & H3) Hj E.
  cbn [Space.jointHash Space.set_bodyHash Space.set_jointHash Space.numJoints].
  unfold joints_kept.
  cbn [Space.jointHash Space.set_bodyHash Space.set_jointHash Space.numJoints].
  split; [|split].
  - intros k' j' Hk'. apply lookup_insert_Some in Hk' as [[<- <-]|[_ Hk']].
    + destruct (H1 k joint Hj) as (j0 & Hj0 & E0). exists j0.
      split; [exact Hj0|congruence].
    + now apply H1.
  - intros k' j0 Hj0 Hb. rewrite lookup_insert_is_Some.
    destruct (decide (k = k')); [now left|right]. split; [assumption|eauto].
  - rewrite map_size_insert_Some by eauto. exact H3.
Qed.

Lemma each_joint_kept (method : Joint -> Store -> Joint * Store) (s : Space) :
  (forall joint st, Joint.proto joint = Joint.RopeJoint ->
     makeup (method joint st).1 = makeup joint) ->
  joints_kept this s -> joints_kept this (Space.each_joint method s).
Proof.
  intros Hm Hs. unfold Space.each_joint.
  apply (for_in_invariant Space.jointHash _ (joints_kept this)); [exact Hs|].
  intros k joint s' Hs' Hj.
  destruct (joints_kept_rope s' k joint Hs' Hj) as [Hp _].
  specialize (Hm joint (Space.bodyHash s') Hp).
  destruct (method joint (Space.bodyHash s')) as [j1 st].
  now apply (joints_kept_insert s' k joint).
Qed.

Lemma initSolver_makeup (dt : float) (warmStarting : bool)
    (joint : Joint) (st : Store) :
  Joint.proto joint = Joint.RopeJoint ->
  makeup (Dispatch.initSolver dt warmStarting joint st).1 = makeup joint.
Proof.
  intros Hp. unfold Dispatch.initSolver. rewrite Hp.
  unfold RopeJoint.initSolver. now destruct warmStarting.
Qed.

Lemma solveVelocityConstraints_makeup (joint : Joint) (st : Store) :
  Joint.proto joint = Joint.RopeJoint ->
  makeup (Dispatch.solveVelocityConstraints joint st).1 = makeup joint.
Proof. intros Hp. unfold Dispatch.solveVelocityConstraints. now rewrite Hp. Qed.

Lemma solvePositionConstraints_makeup (joint : Joint) (st : Store) :
  Joint.proto joint = Joint.RopeJoint ->
  makeup (Dispatch.solvePositionConstraints joint st).2.1 = makeup joint.
Proof. intros Hp. unfold Dispatch.solvePositionConstraints. now rewrite Hp. Qed.

Lemma initSolver_kept (dt dt_inv : float) (warmStarting : bool) (s : Space) :
  joints_kept this s ->
  joints_kept this (Space.initSolver dt dt_inv warmStarting s).
Proof.
  intros Hs. unfold Space.initSolver.
  match goal with
  | |- context [Space.each_joint ?m ?s0] =>
      assert (H : joints_kept this (Space.each_joint m s0))
  end.
  { apply each_joint_kept; [intros; now apply initSolver_makeup|exact Hs]. }
  destruct warmStarting; [|exact H].
  eapply joints_kept_registry; [|exact H].
  now apply foldl_registry.
Qed.

Lemma velocitySolver_kept (iteration : Z) (s : Space) :
  joints_kept this s -> joints_kept this (Space.velocitySolver iteration s).
Proof.
  intros Hs. unfold Space.velocitySolver.
  induction (Z.to_nat iteration) as [|n IH]; [exact Hs|].
  change (Nat.iter (S n) Space.velocityRound s)
    with (Space.velocityRound (Nat.iter n Space.velocityRound s)).
  unfold Space.velocityRound at 1.
  destruct (Space.each_contact _ _ _) as [arr st].
  change (joints_kept this
            (Space.each_joint Dispatch.solveVelocityConstraints
               (Nat.iter n Space.velocityRound s))).
  apply each_joint_kept; [intros; now apply solveVelocityConstraints_makeup|].
  exact IH.
Qed.

Lemma breakJoints_kept (dt_inv : float) (s : Space) :
  joints_kept this s -> joints_kept this (Space.breakJoints dt_inv s).
Proof.
  intros Hs. unfold Space.breakJoints.
  apply (for_in_invariant Space.jointHash _ (joints_kept this)); [exact Hs|].
  intros k joint s' Hs' Hj. destruct (Joint.breakable joint) eqn:Eb; [|exact Hs'].
  destruct (JS.ge _ _); [|exact Hs'].
  destruct (joints_kept_rope s' k joint Hs' Hj) as [_ Hid].
  rewrite <- Hid in Hj.
  destruct (removeJoint_registered joint joint s' Hj) as [Ej En].
  destruct Hs' as (H1 & H2 & H3). unfold joints_kept. rewrite Ej, En.
  split; [|split].
  - intros k' j'. intros [_ Hk']%lookup_delete_Some. now apply H1.
  - intros k' j0 Hj0 Hb. destruct (H2 k' j0 Hj0 Hb) as [j' Hj'].
    exists j'. apply lookup_delete_Some. split; [|exact Hj'].
    intros <-. destruct (H1 _ _ Hj) as (j1 & Hj1 & E).
    rewrite Hj0 in Hj1. injection Hj1 as <-.
    assert (Ebr := f_equal (fun m => m.1.1.1.2) E). cbn in Ebr. congruence.
  - rewrite (map_size_lookup_Some _ _ _ Hj) in H3. lia.
Qed.

Lemma positionRound_kept (s : Space) :
  joints_kept this s -> joints_kept this (Space.positionRound s).2.
Proof.
  intros Hs. unfold Space.positionRound.
  destruct (Space.contactsPosition _ _ _) as [contactsOk [arr st]].
  unfold Space.jointsPosition.
  match goal with
  | |- context [for_in ?get ?body ?s0] =>
      assert (H : joints_kept this (for_in get body s0).2)
  end.
  { apply (for_in_invariant (fun s : bool * Space => Space.jointHash s.2) _
             (fun s => joints_kept this s.2)); [exact Hs|].
    intros k joint [ok s'] Hs' Hj. cbn [snd] in *.
    destruct (joints_kept_rope s' k joint Hs' Hj) as [Hp _].
    assert (Hm := solvePositionConstraints_makeup joint (Space.bodyHash s') Hp).
    destruct (Dispatch.solvePositionConstraints joint (Space.bodyHash s'))
      as [jok [j st']].
    cbn [snd fst] in *. now apply (joints_kept_insert s' k joint). }
  now destruct (for_in _ _ _).
Qed.

Lemma positionSolver_kept (iteration : Z) (g : Globals) (s : Space) :
  joints_kept this s ->
  joints_kept this (Space.positionSolver iteration g s).2.2.
Proof.
  unfold Space.positionSolver.
  generalize (Globals.set_positionIterations g 0). clear g.
  revert s. induction (Z.to_nat iteration) as [|n IH]; intros s g Hs;
    [exact Hs|].
  cbn [Space.positionLoop].
  assert (H := positionRound_kept s Hs).
  destruct (Space.positionRound s) as [ok s1]. cbn [snd] in H.
  destruct ok; [exact H|]. now apply IH.
Qed.

Lemma step_kept (dt : float) (vel_iteration pos_iteration : Z)
    (warmStarting allowSleep : bool) (g : Globals) :
  joints_kept this
    (Space.step dt vel_iteration pos_iteration warmStarting allowSleep g this).2.
Proof.
  unfold Space.step, Space.stepSolve.
  assert (Hgen := genTemporalContactSolvers_registry
                    (Space.set_stepCount this (JS.incr (Space.stepCount this)))).
  destruct (Space.genTemporalContactSolvers _) as [arr this1].
  cbn [snd] in Hgen.
  assert (H1 : joints_kept this (Space.set_contactSolverArr this1 arr)).
  { assert (E1 := f_equal (fun r => r.1.2) Hgen).
    assert (E2 := f_equal (fun r => r.2) Hgen). cbn in E1, E2.
    destruct joints_kept_refl as (K1 & K2 & K3). unfold joints_kept.
    cbn [Space.jointHash Space.numJoints Space.set_contactSolverArr].
    now rewrite E1, E2. }
  match goal with
  | |- context [Space.positionSolver ?n ?g ?s] =>
      assert (Hpos : joints_kept this (Space.positionSolver n g s).2.2);
      [|destruct (Space.positionSolver n g s) as [positionSolved [g' this2]]]
  end.
  { apply positionSolver_kept, breakJoints_kept.
    eapply joints_kept_registry; [apply each_body_registry|].
    apply velocitySolver_kept.
    eapply joints_kept_registry; [apply wakeAcrossJoints_registry|].
    eapply joints_kept_registry; [apply each_body_registry|].
    now apply initSolver_kept. }
  cbn [snd] in Hpos.
  assert (Hend : joints_kept this
            (Space.each_body
               (fun body => if Body.isDynamic body && Body.isAwake body
                            then Body_cacheData body else body)
               (Space.postSolveAll (Space.each_body Body_syncTransform this2)))).
  { eapply joints_kept_registry; [apply each_body_registry|].
    eapply joints_kept_registry; [apply postSolveAll_registry|].
    eapply joints_kept_registry; [apply each_body_registry|]. exact Hpos. }
  destruct allowSleep; cbn [snd]; [|exact Hend].
  eapply joints_kept_registry; [apply processSleep_registry|exact Hend].
Qed.

End ropes_kept.

Section ropes_kept_thm.
Context {host : Host} {opaque : Opaque} {extern : Extern}.

(** X20.  [step] on a Space all of whose joints are rope joints registered
    under their ids: every joint left is a joint from before with the same
    id, kind, bodies, flags, anchors and maximal distance; a joint that is
    not breakable is never removed; and [numJoints] went down by the number
    of joints removed. *)
Theorem Space_step_keeps_ropes (dt : float) (vel_iteration pos_iteration : Z)
    (warmStarting allowSleep : bool) (g : Globals) (this : Space) :
  joints_keyed this ->
  (forall k joint, Space.jointHash this !! k = Some joint ->
                   Joint.proto joint = Joint.RopeJoint) ->
  let after :=
    (Space.step dt vel_iteration pos_iteration warmStarting allowSleep g this).2 in
  (forall k joint', Space.jointHash after !! k = Some joint' ->
     exists joint, Space.jointHash this !! k = Some joint
                   /\ makeup joint' = makeup joint)
  /\ (forall k joint, Space.jointHash this !! k = Some joint ->
        Joint.breakable joint = false -> is_Some (Space.jointHash after !! k))
  /\ (Space.numJoints this - Space.numJoints after
      = Z.of_nat (size (Space.jointHash this))
        - Z.of_nat (size (Space.jointHash after)))%Z.
Proof.
  intros Hk Hr after. subst after. now apply step_kept.
Qed.

End ropes_kept_thm.

(** ** When loading a scene throws *)

Section loading.
Context {host : Host} {opaque : Opaque} {extern : Extern}.

Lemma createShapes_throws (shapes : list Config.shape) :
  forall (shape : option Shape) (g : Globals) (body : Body) (this : Space),
  let r := Space.createShapes shapes shape g body this in
  (r.1 = Space.TypeError <->
   shape = None /\ exists cs rest, shapes = cs :: rest
                    /\ Space.shape_case (Config.shape_type cs) = None)
  /\ (r.1 = Space.Normal ->
      (r.2.1.1.1 = None <-> shape = None /\ shapes = [])).
Proof.
  induction shapes as [|cs shapes IH]; intros shape g body this.
  - cbn. split.
    + split; [discriminate|]. intros (_ & c & rest & [=] & _).
    + intros _. tauto.
  - cbn [Space.createShapes].
    destruct (Space.shape_case (Config.shape_type cs)) as [k|] eqn:Ek.
    + match goal with
      | |- context [Space.createShapes shapes (Some ?s) ?g ?b ?t] =>
          destruct (IH (Some s) g b t) as [IH1 IH2]
      end.
      cbv zeta in *. split.
      * rewrite IH1. split; [intros [[=] _]|].
        intros (_ & c & rest & [= <- _] & Hc). congruence.
      * intros Hn. rewrite (IH2 Hn). split; [intros [[=] _]|intros [_ [=]]].
    + destruct shape as [s|].
      * match goal with
        | |- context [Space.createShapes shapes (Some ?s) ?g ?b ?t] =>
            destruct (IH (Some s) g b t) as [IH1 IH2]
        end.
        cbv zeta in *. split.
        -- rewrite IH1. split; intros [[=] _].
        -- intros Hn. rewrite (IH2 Hn). split; [intros [[=] _]|intros [[=] _]].
      * cbn. split; [|discriminate]. split; [|reflexivity].
        intros _. split; [reflexivity|]. eauto.
Qed.

Lemma createBodies_throws (bodies : list Config.body) :
  forall (shape : option Shape) (g : Globals) (this : Space),
  (Space.createBodies bodies shape g this).1 = Space.TypeError <->
  shape = None
  /\ exists cs rest, concat (map Config.body_shapes bodies) = cs :: rest
                     /\ Space.shape_case (Config.shape_type cs) = None.
Proof.
  induction bodies as [|cb bodies IH]; intros shape g this.
  - cbn. split; [discriminate|]. intros (_ & c & rest & [=] & _).
  - cbn [Space.createBodies map concat].
    match goal with
    | |- context [Space.createShapes ?l ?s ?g ?b ?t] =>
        destruct (createShapes_throws l s g b t) as [H1 H2];
        destruct (Space.createShapes l s g b t) as [c [[[shape' g'] body'] this']]
    end.
    cbv zeta in H1, H2. cbn [fst snd] in H1, H2. destruct c.
    + specialize (H2 eq_refl). rewrite IH, H2. split.
      * intros [[-> ->] (c & rest & Hc & Hu)]. split; [reflexivity|].
        exists c, rest. now split.
      * intros [-> (c & rest & Hc & Hu)].
        destruct (Config.body_shapes cb) as [|c0 l0] eqn:El.
        -- repeat split. exists c, rest. now split.
        -- exfalso. injection Hc as -> _.
           assert (X : Space.Normal = Space.TypeError)
             by (apply H1; split; [reflexivity|]; eauto).
           discriminate X.
    + cbn [fst]. split; [|reflexivity]. intros _.
      destruct (proj1 H1 eq_refl) as [-> (c & rest & -> & Hu)].
      split; [reflexivity|]. exists c. eexists. split; [reflexivity|exact Hu].
Qed.

Lemma addJoint_lookup_is_Some (joint : Joint) (this : Space) (k : N) :
  is_Some (Space.bodyHash (Space.addJoint joint this) !! k)
  <-> is_Some (Space.bodyHash this !! k).
Proof.
  unfold Space.addJoint.
  destruct (Space.jointHash this !! Joint.id joint); [reflexivity|].
  rewrite !on_body_lookup_is_Some.
  cbn [Space.bodyHash Space.set_numJoints Space.set_jointHash].
  now rewrite !on_body_lookup_is_Some.
Qed.

Lemma createJoints_throws (joints : list Config.joint) :
  forall (joint : option (Joint * bool)) (g : Globals) (this : Space),
  (Space.createJoints joints joint g this).1 = Space.TypeError <->
  (joint = None
   /\ exists cj rest, joints = cj :: rest
                      /\ Space.joint_case (Config.joint_type cj) = None)
  \/ (exists cj k, cj ∈ joints
        /\ Space.joint_case (Config.joint_type cj) = Some k
        /\ (Space.bodyHash this !! Config.joint_body1 cj = None
            \/ Space.bodyHash this !! Config.joint_body2 cj = None)).
Proof.
  induction joints as [|cj joints IH]; intros joint g this.
  - cbn. split; [discriminate|].
    intros [(_ & c & rest & [=] & _)|(c & k & Hin & _)].
    now apply elem_of_nil in Hin.
  - cbn [Space.createJoints].
    assert (Hdom : forall (j : Joint) (r : bool) (s : Space) (k : N),
              Space.bodyHash
                (Space.addJoint j
                   (if r
                    then Space.set_jointHash s
                           (alter (fun _ => j) (Joint.id j) (Space.jointHash s))
                    else s)) !! k
              = None <-> Space.bodyHash s !! k = None).
    { intros j r s k. rewrite !eq_None_not_Some.
      rewrite addJoint_lookup_is_Some. now destruct r. }
    destruct (Space.joint_case (Config.joint_type cj)) as [k|] eqn:Ek.
    + destruct (Space.bodyHash this !! Config.joint_body1 cj) as [b1|] eqn:E1;
        [destruct (Space.bodyHash this !! Config.joint_body2 cj) as [b2|] eqn:E2|].
      * rewrite IH. split.
        -- intros [[[=] _]|(c & k' & Hin & Hk' & Hmiss)]. right.
           exists c, k'. split; [now apply list_elem_of_further|].
           split; [exact Hk'|].
           now rewrite !(Hdom _ false) in Hmiss.
        -- intros [(_ & c & rest & [= <- _] & Hc)|(c & k' & Hin & Hk' & Hmiss)];
             [congruence|].
           right. apply elem_of_cons in Hin as [->|Hin].
           ++ destruct Hmiss; congruence.
           ++ exists c, k'. split; [exact Hin|]. split; [exact Hk'|].
              now rewrite !(Hdom _ false).
      * cbn [fst]. split; [|reflexivity]. intros _. right.
        exists cj, k. split; [apply list_elem_of_here|]. auto.
      * cbn [fst]. split; [|reflexivity]. intros _. right.
        exists cj, k. split; [apply list_elem_of_here|]. auto.
    + destruct joint as [[j registered]|].
      * rewrite IH. split.
        -- intros [[[=] _]|(c & k' & Hin & Hk' & Hmiss)]. right.
           exists c, k'. split; [now apply list_elem_of_further|].
           split; [exact Hk'|]. now rewrite !Hdom in Hmiss.
        -- intros [[[=] _]|(c & k' & Hin & Hk' & Hmiss)].
           right. apply elem_of_cons in Hin as [->|Hin]; [congruence|].
           exists c, k'. split; [exact Hin|]. split; [exact Hk'|].
           now rewrite !Hdom.
      * cbn [fst]. split; [|reflexivity]. intros _. left.
        split; [reflexivity|]. eauto.
Qed.


End loading.

(** ** The ids of loaded bodies *)

Section loading_ids.
Context {host : Host} {opaque : Opaque} {extern : Extern}.

Lemma createShapes_frame (shapes : list Config.shape) :
  forall (shape : option Shape) (g : Globals) (body : Body) (this : Space)
         shape' g' body' this',
  Space.createShapes shapes shape g body this
    = (Space.Normal, (shape', g', body', this')) ->
  Globals.Body_id_counter g' = Globals.Body_id_counter g
  /\ Body.id body' = Body.id body
  /\ (forall k, is_Some (Space.bodyHash this' !! k)
                <-> is_Some (Space.bodyHash this !! k))
  /\ Space.numBodies this' = Space.numBodies this.
Proof.
  induction shapes as [|cs shapes IH];
    intros shape g body this shape' g' body' this' H.
  - cbn in H. injection H as <- <- <- <-. now repeat split.
  - cbn [Space.createShapes] in H.
    destruct (Space.shape_case (Config.shape_type cs)) as [k|].
    + apply IH in H as (H1 & H2 & H3 & H4). cbn in H1, H2, H4.
      split; [exact H1|]. split; [exact H2|]. split; [|exact H4].
      intros k'. rewrite H3. cbn. rewrite lookup_fmap. apply fmap_is_Some.
    + destruct shape as [s|]; [|discriminate].
      apply IH in H as (H1 & H2 & H3 & H4). cbn in H1, H2, H4.
      split; [exact H1|]. split; [exact H2|]. split; [|exact H4].
      intros k'. rewrite H3. cbn. rewrite lookup_fmap. apply fmap_is_Some.
Qed.

Lemma addBody_fresh (body : Body) (this : Space) :
  Space.bodyHash this !! Body.id body = None ->
  (forall k, is_Some (Space.bodyHash (Space.addBody body this) !! k)
             <-> k = Body.id body \/ is_Some (Space.bodyHash this !! k))
  /\ Space.numBodies (Space.addBody body this) = (Space.numBodies this + 1)%Z.
Proof.
  intros Hn. unfold Space.addBody. rewrite Hn. split; [|reflexivity].
  intros k. rewrite !on_body_lookup_is_Some.
  cbn [Space.bodyHash Space.set_numBodies Space.set_bodyHash].
  rewrite lookup_insert_is_Some. split.
  - intros [->|[_ H]]; auto.
  - intros [->|H]; [now left|].
    destruct (decide (Body.id body = k)); [now left|now right].
Qed.

Lemma createBodies_ids (bodies : list Config.body) :
  (forall b, Body.id (Body_resetMassData b) = Body.id b) ->
  forall (shape : option Shape) (g : Globals) (this : Space) g1 this1,
  Space.createBodies bodies shape g this = (Space.Normal, (g1, this1)) ->
  (forall k, is_Some (Space.bodyHash this !! k) ->
             (k < Globals.Body_id_counter g)%N) ->
  Globals.Body_id_counter g1
    = (Globals.Body_id_counter g + N.of_nat (length bodies))%N
  /\ (forall k, is_Some (Space.bodyHash this1 !! k)
                <-> is_Some (Space.bodyHash this !! k)
                    \/ (Globals.Body_id_counter g <= k
                        < Globals.Body_id_counter g + N.of_nat (length bodies))%N)
  /\ Space.numBodies this1
     = (Space.numBodies this + Z.of_nat (length bodies))%Z.
Proof.
  intros Hreset. induction bodies as [|cb bodies IH];
    intros shape g this g1 this1 H Hlt.
  - cbn in H. injection H as <- <-. cbn [length].
    split; [lia|]. split; [|lia]. intros k. split; [auto|].
    intros [?|?]; [assumption|lia].
  - cbn [Space.createBodies] in H.
    match type of H with
    | context [Space.createShapes ?l ?s ?g0 ?b ?t] =>
        destruct (Space.createShapes l s g0 b t)
          as [c [[[shape' g'] body'] this']] eqn:Es
    end.
    destruct c; [|discriminate].
    apply createShapes_frame in Es as (F1 & F2 & F3 & F4).
    cbn in F1, F2.
    assert (Hfresh : Space.bodyHash this' !! Body.id (Body_resetMassData body')
                     = None).
    { rewrite Hreset, F2. apply eq_None_not_Some. rewrite F3. intros Hs.
      apply Hlt in Hs. lia. }
    destruct (addBody_fresh _ _ Hfresh) as [A1 A2].
    apply IH in H as (H1 & H2 & H3).
    + rewrite H1, F1. cbn [length]. split; [lia|]. split.
      * intros k. rewrite H2, A1, F3, Hreset, F2, F1. split.
        -- intros [[->|Hs]|Hr]; [right; lia|now left|right; lia].
        -- intros [Hs|Hr]; [left; now right|].
           destruct (decide (k = Globals.Body_id_counter g)) as [->|Hne];
             [left; now left|right; lia].
      * rewrite H3, A2, F4. lia.
    + intros k. rewrite A1, F3, Hreset, F2, F1.
      intros [->|Hs]; [lia|]. apply Hlt in Hs. lia.
Qed.

Lemma createJoints_frame (joints : list Config.joint) :
  forall (joint : option (Joint * bool)) (g : Globals) (this : Space) g1 this1,
  Space.createJoints joints joint g this = (Space.Normal, (g1, this1)) ->
  Globals.Body_id_counter g1 = Globals.Body_id_counter g
  /\ (forall k, is_Some (Space.bodyHash this1 !! k)
                <-> is_Some (Space.bodyHash this !! k))
  /\ Space.numBodies this1 = Space.numBodies this.
Proof.
  induction joints as [|cj joints IH]; intros joint g this g1 this1 H.
  - cbn in H. injection H as <- <-. now repeat split.
  - cbn [Space.createJoints] in H.
    assert (Hnum : forall (j : Joint) (s : Space),
              Space.numBodies (Space.addJoint j s) = Space.numBodies s).
    { intros j s. unfold Space.addJoint.
      now destruct (Space.jointHash s !! Joint.id j). }
    destruct (Space.joint_case (Config.joint_type cj)) as [k|].
    + destruct (Space.bodyHash this !! Config.joint_body1 cj) as [b1|];
        [|discriminate].
      destruct (Space.bodyHash this !! Config.joint_body2 cj) as [b2|];
        [|discriminate].
      apply IH in H as (H1 & H2 & H3). split; [exact H1|]. split.
      * intros k'. rewrite H2, addJoint_lookup_is_Some. reflexivity.
      * now rewrite H3, Hnum.
    + destruct joint as [[j registered]|]; [|discriminate].
      apply IH in H as (H1 & H2 & H3). split; [exact H1|]. split.
      * intros k'. rewrite H2, addJoint_lookup_is_Some. now destruct registered.
      * rewrite H3, Hnum. now destruct registered.
Qed.

End loading_ids.

Section loading_thm.
Context {host : Host} {opaque : Opaque} {extern : Extern}.

Lemma clear_torn_down (g : Globals) (this : Space) :
  joints_keyed this -> bodies_keyed this ->
  Space.bodyHash (Space.clear g this).2 = ∅
  /\ Globals.Body_id_counter (Space.clear g this).1 = 0%N.
Proof.
  intros Hk Hkb. destruct (clear_loop g this Hk Hkb) as (H & _).
  split; [exact H|reflexivity].
Qed.

(** X22.  When [create] completes, on a Space whose joints and bodies are
    registered under their ids and when [resetMassData] keeps the id of a
    body: the registered body ids are 0, 1, ..., n - 1 for the n body
    entries of the scene, the next body id is n, and [numBodies] is n more
    than [clear] left it. *)
Theorem Space_create_body_ids (config : Config) (g g' : Globals)
    (this this' : Space) :
  (forall b, Body.id (Body_resetMassData b) = Body.id b) ->
  joints_keyed this -> bodies_keyed this ->
  Space.create config g this = (Space.Normal, (g', this')) ->
  (forall k, is_Some (Space.bodyHash this' !! k)
             <-> (k < N.of_nat (length (Config.bodies config)))%N)
  /\ Globals.Body_id_counter g' = N.of_nat (length (Config.bodies config))
  /\ Space.numBodies this'
     = (Space.numBodies (Space.clear g this).2
        + Z.of_nat (length (Config.bodies config)))%Z.
Proof.
  intros Hreset Hk Hkb H. unfold Space.create in H.
  destruct (clear_torn_down g this Hk Hkb) as [He Hc].
  destruct (Space.clear g this) as [g0 this0]. cbn [fst snd] in *.
  destruct (Space.createBodies (Config.bodies config) None g0 this0)
    as [c [g1 this1]] eqn:Eb.
  destruct c; [|discriminate].
  apply (createBodies_ids _ Hreset) in Eb as (B1 & B2 & B3).
  - apply createJoints_frame in H as (J1 & J2 & J3).
    split; [|split].
    + intros k. rewrite J2, B2, He, lookup_empty, Hc. split.
      * intros [[x [=]]|Hr]. lia.
      * intros Hr. right. lia.
    + rewrite J1, B1, Hc. lia.
    + now rewrite J3, B3.
  - intros k. rewrite He, lookup_empty. intros [x [=]].
Qed.

End loading_thm.

(** ** The rope only pulls *)

Section float_more.
Local Open Scope float_scope.

Lemma float_ltb_not_nan (a b : float) :
  (a <? b) = true -> is_nan a = false /\ is_nan b = false.
Proof.
  intros H. split.
  - destruct (is_nan a) eqn:E; [|reflexivity].
    apply float_is_nan_spec in E. rewrite ltb_spec, E in H. discriminate.
  - destruct (is_nan b) eqn:E; [|reflexivity].
    apply float_is_nan_spec in E. rewrite ltb_spec, E in H.
    unfold SFltb in H. destruct (Prim2SF a); discriminate.
Qed.

Lemma float_zeros_same (a b : float) (sa sb : bool) :
  Prim2SF a = S754_zero sa -> Prim2SF b = S754_zero sb -> JS.same_number a b.
Proof.
  intros Ha Hb. right. rewrite FloatAxioms.eqb_spec, Ha, Hb. reflexivity.
Qed.

Lemma float_add_zero_same (a z : float) (s : bool) :
  Prim2SF z = S754_zero s -> JS.same_number (a + z) a.
Proof.
  intros Hz. destruct (float_add_zero a z s Hz) as [->|(sa & s' & Ha & Hs)].
  - now left.
  - eapply float_zeros_same; eassumption.
Qed.

Lemma float_sub_zero_same (a z : float) (s : bool) :
  Prim2SF z = S754_zero s -> JS.same_number (a - z) a.
Proof.
  intros Hz. destruct (Prim2SF a) as [sa|sa| |sa m e] eqn:E.
  - apply (float_zeros_same _ _ (if sa then (if s then false else true) else false) sa);
      [|exact E].
    rewrite sub_spec, Hz, E. destruct sa, s; reflexivity.
  - left. apply Prim2SF_inj. rewrite sub_spec, Hz, E. reflexivity.
  - left. apply Prim2SF_inj. rewrite sub_spec, Hz, E. reflexivity.
  - left. apply Prim2SF_inj. rewrite sub_spec, Hz, E. reflexivity.
Qed.

Lemma float_opp_finite (a : float) : is_finite a = true -> is_finite (- a) = true.
Proof.
  intros H. unfold is_finite. apply negb_true_iff, orb_false_iff.
  destruct (float_is_finite_spec a H) as [[s E]|(s & m & e & E)]; split.
  - unfold is_nan. rewrite FloatAxioms.eqb_spec, opp_spec, E. reflexivity.
  - unfold is_infinity. rewrite FloatAxioms.eqb_spec, abs_spec, opp_spec, E.
    reflexivity.
  - unfold is_nan. rewrite FloatAxioms.eqb_spec, opp_spec, E. unfold SFeqb.
    rewrite SFcompare_refl by (cbn; discriminate). reflexivity.
  - unfold is_infinity. rewrite FloatAxioms.eqb_spec, abs_spec, opp_spec, E.
    reflexivity.
Qed.

(** [x * 0 * k] is a zero when [x] and [k] are finite. *)
Lemma float_mul_zero_mul (x k z : float) (s : bool) :
  is_finite x = true -> is_finite k = true -> Prim2SF z = S754_zero s ->
  exists s', Prim2SF (x * z * k) = S754_zero s'.
Proof.
  intros Hx Hk Hz. destruct (float_mul_finite_zero x z s Hx Hz) as [s1 H1].
  exact (float_mul_zero_finite k (x * z) s1 Hk H1).
Qed.

End float_more.

Section rope_unilateral.
Context {host : Host} {opaque : Opaque} {extern : Extern}.
Local Open Scope float_scope.

Lemma Math_min_positive_zero (x : float) :
  (0 <? x) = true -> JS.Math_min x 0 = 0.
Proof.
  intros H. unfold JS.Math_min.
  destruct (float_ltb_not_nan _ _ H) as [_ Hx]. rewrite Hx.
  change (is_nan 0) with false. cbn [orb].
  rewrite (float_ltb_asym _ _ H), H. reflexivity.
Qed.

(** X23.  The rope only pulls.  When the accumulated impulse is 0 and the
    impulse computed is positive (the anchors are closing in), the
    accumulator stays 0 and the two bodies keep their velocities: [v] and
    [w] are the same numbers as before. *)
Theorem RopeJoint_solveVelocityConstraints_never_pushes
    (this : Joint) (st : Store) (b1 b2 : Body) :
  Joint.body1 this <> Joint.body2 this ->
  st !! Joint.body1 this = Some b1 ->
  st !! Joint.body2 this = Some b2 ->
  Joint.lambda_acc this = 0 ->
  let Cdot := vec2.dot (Joint.u this) (vec2.sub (Body.v b2) (Body.v b1))
              + Joint.s2 this * Body.w b2 - Joint.s1 this * Body.w b1 in
  let dlambda := - Joint.em this * (Cdot + Joint.cdt this) in
  (0 <? Joint.lambda_acc this + dlambda) = true ->
  is_finite (vec2.x (Joint.u this)) = true ->
  is_finite (vec2.y (Joint.u this)) = true ->
  is_finite (Joint.s1 this) = true -> is_finite (Joint.s2 this) = true ->
  is_finite (Body.m_inv b1) = true -> is_finite (Body.i_inv b1) = true ->
  is_finite (Body.m_inv b2) = true -> is_finite (Body.i_inv b2) = true ->
  let this' := (RopeJoint.solveVelocityConstraints this st).1 in
  let st' := (RopeJoint.solveVelocityConstraints this st).2 in
  Joint.lambda_acc this' = 0
  /\ exists b1' b2',
       st' !! Joint.body1 this = Some b1'
       /\ st' !! Joint.body2 this = Some b2'
       /\ JS.same_number (vec2.x (Body.v b1')) (vec2.x (Body.v b1))
       /\ JS.same_number (vec2.y (Body.v b1')) (vec2.y (Body.v b1))
       /\ JS.same_number (Body.w b1') (Body.w b1)
       /\ JS.same_number (vec2.x (Body.v b2')) (vec2.x (Body.v b2))
       /\ JS.same_number (vec2.y (Body.v b2')) (vec2.y (Body.v b2))
       /\ JS.same_number (Body.w b2') (Body.w b2).
Proof.
  intros Hne Hb1 Hb2 Hacc Cdot dlambda Hpos Hux Huy Hs1 Hs2 Hm1 Hi1 Hm2 Hi2
         this' st'.
  subst this' st'. unfold RopeJoint.solveVelocityConstraints.
  rewrite (lookup_total_correct _ _ _ Hb1), (lookup_total_correct _ _ _ Hb2).
  cbn [fst snd Joint.set_lambda_acc Joint.lambda_acc Joint.u Joint.s1 Joint.s2
       Joint.body1 Joint.body2].
  fold Cdot. fold dlambda.
  rewrite (Math_min_positive_zero _ Hpos), Hacc.
  change (0 - 0) with 0.
  split; [reflexivity|].
  rewrite (lookup_four_writes_1 _ _ _ _ _ _ _ b1 Hne Hb1).
  rewrite (lookup_four_writes_2 _ _ _ _ _ _ _ b2 Hne Hb2).
  eexists _, _. split; [reflexivity|]. split; [reflexivity|].
  cbn [Body.set_w Body.set_v Body.v Body.w Body.m_inv Body.i_inv
       RopeJoint.v_mad vec2.mad vec2.scale vec2.x vec2.y].
  assert (Hm1' := float_opp_finite _ Hm1).
  destruct (float_mul_zero_mul (vec2.x (Joint.u this)) (- Body.m_inv b1) 0 false
              Hux Hm1' eq_refl) as [? Z1].
  destruct (float_mul_zero_mul (vec2.y (Joint.u this)) (- Body.m_inv b1) 0 false
              Huy Hm1' eq_refl) as [? Z2].
  destruct (float_mul_zero_mul (Joint.s1 this) (Body.i_inv b1) 0 false
              Hs1 Hi1 eq_refl) as [? Z3].
  destruct (float_mul_zero_mul (vec2.x (Joint.u this)) (Body.m_inv b2) 0 false
              Hux Hm2 eq_refl) as [? Z4].
  destruct (float_mul_zero_mul (vec2.y (Joint.u this)) (Body.m_inv b2) 0 false
              Huy Hm2 eq_refl) as [? Z5].
  destruct (float_mul_zero_mul (Joint.s2 this) (Body.i_inv b2) 0 false
              Hs2 Hi2 eq_refl) as [? Z6].
  repeat split;
    eauto using float_add_zero_same, float_sub_zero_same.
Qed.

End rope_unilateral.

(** ** A slack rope *)

Section float_slack.
Local Open Scope float_scope.

Lemma Math_clamp_nonpositive (c hi : float) :
  (c <=? 0) = true -> (0 <=? hi) = true ->
  exists s, Prim2SF (JS.Math_clamp c 0 hi) = S754_zero s.
Proof.
  intros Hc Hhi. unfold JS.Math_clamp, JS.gt.
  destruct (c <? 0) eqn:Elt; [exists false; reflexivity|].
  rewrite leb_spec in Hc, Hhi. rewrite ltb_spec in Elt. rewrite ltb_spec.
  change (Prim2SF 0) with (S754_zero false) in *.
  destruct (Prim2SF c) as [sc|sc| |sc mc ec] eqn:Ec;
    destruct (Prim2SF hi) as [sh|sh| |sh mh eh] eqn:Eh;
    try destruct sc; try destruct sh; cbn in *; try discriminate;
    rewrite ?Ec; eauto.
Qed.

Lemma float_nonpositive_ltb_positive (c s : float) :
  (c <=? 0) = true -> (0 <? s) = true -> (c <? s) = true.
Proof.
  intros Hc Hs. rewrite leb_spec in Hc. rewrite ltb_spec in Hs.
  rewrite ltb_spec. change (Prim2SF 0) with (S754_zero false) in *.
  destruct (Prim2SF c) as [sc|sc| |sc mc ec];
    destruct (Prim2SF s) as [ss|ss| |ss ms es];
    try destruct sc; try destruct ss; cbn in *; try discriminate; reflexivity.
Qed.

Lemma float_zero_div (z e : float) (s : bool) :
  Prim2SF z = S754_zero s -> is_nan e = false -> (e =? 0) = false ->
  exists s', Prim2SF (z / e) = S754_zero s'.
Proof.
  intros Hz Hn He. rewrite div_spec, Hz.
  rewrite FloatAxioms.eqb_spec in He.
  change (Prim2SF 0) with (S754_zero false) in He.
  destruct (Prim2SF e) as [se|se| |se me ee] eqn:E.
  - destruct se; discriminate.
  - cbn. eauto.
  - apply float_is_nan_spec in E. congruence.
  - cbn. eauto.
Qed.

Lemma float_opp_zero (z : float) (s : bool) :
  Prim2SF z = S754_zero s -> Prim2SF (- z) = S754_zero (negb s).
Proof. intros Hz. now rewrite opp_spec, Hz. Qed.

End float_slack.

Section rope_slack.
Context {host : Host} {opaque : Opaque} {extern : Extern}.
Local Open Scope float_scope.

(** X24.  A slack rope is not corrected.  When the distance of the anchors
    is at most [maxDistance], [solvePositionConstraints] returns [true],
    changes nothing of the joint, and leaves the two bodies where they are:
    [p] and [a] are the same numbers as before. *)
Theorem RopeJoint_solvePositionConstraints_slack
    (this : Joint) (st : Store) (b1 b2 : Body) :
  Joint.body1 this <> Joint.body2 this ->
  st !! Joint.body1 this = Some b1 ->
  st !! Joint.body2 this = Some b2 ->
  let r1 := vec2.rotate (vec2.sub (Joint.anchor1 this) (Body.centroid b1))
                        (Body.a b1) in
  let r2 := vec2.rotate (vec2.sub (Joint.anchor2 this) (Body.centroid b2))
                        (Body.a b2) in
  let d := vec2.sub (vec2.add (Body.p b2) r2) (vec2.add (Body.p b1) r1) in
  let dist := vec2.length d in
  let u := vec2.scale d (1 / dist) in
  let c := dist - Joint.maxDistance this in
  let s1 := vec2.cross r1 u in
  let s2 := vec2.cross r2 u in
  let em_inv := Body.m_inv b1 + Body.m_inv b2
                + Body.i_inv b1 * s1 * s1 + Body.i_inv b2 * s2 * s2 in
  (c <=? 0) = true ->
  (0 <? Joint_LINEAR_SLOP) = true ->
  (0 <=? Joint_MAX_LINEAR_CORRECTION) = true ->
  is_finite (vec2.x u) = true -> is_finite (vec2.y u) = true ->
  is_finite s1 = true -> is_finite s2 = true ->
  is_finite (Body.m_inv b1) = true -> is_finite (Body.i_inv b1) = true ->
  is_finite (Body.m_inv b2) = true -> is_finite (Body.i_inv b2) = true ->
  is_nan em_inv = false ->
  let after := RopeJoint.solvePositionConstraints this st in
  after.1 = true
  /\ after.2.1 = this
  /\ exists b1' b2',
       after.2.2 !! Joint.body1 this = Some b1'
       /\ after.2.2 !! Joint.body2 this = Some b2'
       /\ JS.same_number (vec2.x (Body.p b1')) (vec2.x (Body.p b1))
       /\ JS.same_number (vec2.y (Body.p b1')) (vec2.y (Body.p b1))
       /\ JS.same_number (Body.a b1') (Body.a b1)
       /\ JS.same_number (vec2.x (Body.p b2')) (vec2.x (Body.p b2))
       /\ JS.same_number (vec2.y (Body.p b2')) (vec2.y (Body.p b2))
       /\ JS.same_number (Body.a b2') (Body.a b2).
Proof.
  intros Hne Hb1 Hb2 r1 r2 d dist u c s1 s2 em_inv Hc Hslop Hmax
         Hux Huy Hs1 Hs2 Hm1 Hi1 Hm2 Hi2 Hem after.
  subst after. unfold RopeJoint.solvePositionConstraints.
  rewrite (lookup_total_correct _ _ _ Hb1), (lookup_total_correct _ _ _ Hb2).
  fold r1. fold r2. fold d. fold dist. fold u. fold c. fold s1. fold s2.
  fold em_inv. cbn [fst snd].
  split; [now apply float_nonpositive_ltb_positive|]. split; [reflexivity|].
  set (lambda := if em_inv =? 0 then 0
                 else - JS.Math_clamp c 0 Joint_MAX_LINEAR_CORRECTION / em_inv).
  assert (Hl : exists s, Prim2SF lambda = S754_zero s).
  { subst lambda. destruct (em_inv =? 0) eqn:E; [exists false; reflexivity|].
    destruct (Math_clamp_nonpositive c _ Hc Hmax) as [s Hz].
    eapply float_zero_div; [|exact Hem|exact E].
    apply float_opp_zero. exact Hz. }
  destruct Hl as [sl Hl].
  rewrite (lookup_four_writes_1 _ _ _ _ _ _ _ b1 Hne Hb1).
  rewrite (lookup_four_writes_2 _ _ _ _ _ _ _ b2 Hne Hb2).
  eexists _, _. split; [reflexivity|]. split; [reflexivity|].
  cbn [Body.set_a Body.set_p Body.p Body.a Body.m_inv Body.i_inv
       RopeJoint.p_mad vec2.mad vec2.scale vec2.x vec2.y].
  assert (Hm1' := float_opp_finite _ Hm1).
  destruct (float_mul_zero_mul (vec2.x u) (- Body.m_inv b1) lambda sl
              Hux Hm1' Hl) as [? Z1].
  destruct (float_mul_zero_mul (vec2.y u) (- Body.m_inv b1) lambda sl
              Huy Hm1' Hl) as [? Z2].
  destruct (float_mul_zero_mul s1 (Body.i_inv b1) lambda sl Hs1 Hi1 Hl) as [? Z3].
  destruct (float_mul_zero_mul (vec2.x u) (Body.m_inv b2) lambda sl
              Hux Hm2 Hl) as [? Z4].
  destruct (float_mul_zero_mul (vec2.y u) (Body.m_inv b2) lambda sl
              Huy Hm2 Hl) as [? Z5].
  destruct (float_mul_zero_mul s2 (Body.i_inv b2) lambda sl Hs2 Hi2 Hl) as [? Z6].
  repeat split;
    eauto using float_add_zero_same, float_sub_zero_same.
Qed.

End rope_slack.

(** ** The canvas renderer *)

Section renderer.
Context {drawing : Drawing}.
Import RendererCanvas.

Lemma foldl_lineTo (ctx : context) (verts : list vec2) :
  foldl (fun ctx v => ctx ++ [lineTo (vec2.x v) (vec2.y v)]) ctx verts
  = ctx ++ map (fun v => lineTo (vec2.x v) (vec2.y v)) verts.
Proof.
  revert ctx. induction verts as [|v verts IH]; intros ctx; cbn [foldl map].
  - now rewrite app_nil_r.
  - now rewrite IH, <- app_assoc.
Qed.

(** The calls that [fillWith] and [strokeWith] add. *)
Local Abbreviation filling fillStyle :=
  (if given fillStyle then [closePath; set_fillStyle fillStyle; fill] else []).
Local Abbreviation stroking strokeStyle :=
  (if given strokeStyle then [set_strokeStyle strokeStyle; stroke] else []).

Lemma fillWith_app (fillStyle : style) (ctx : context) :
  fillWith fillStyle ctx = ctx ++ filling fillStyle.
Proof. unfold fillWith. destruct (given _); [reflexivity|now rewrite app_nil_r]. Qed.

Lemma strokeWith_app (strokeStyle : style) (ctx : context) :
  strokeWith strokeStyle ctx = ctx ++ stroking strokeStyle.
Proof. unfold strokeWith. destruct (given _); [reflexivity|now rewrite app_nil_r]. Qed.

(** X25.  [drawPolygon] throws on an empty array of vertices, after
    [beginPath].  Otherwise it moves to the first vertex, draws a line to
    every vertex in order, the first one included, and one more line to the
    last vertex; it closes the path only when a fill style is given. *)
Theorem RendererCanvas_drawPolygon_outline (ctx : context)
    (fillStyle strokeStyle : style) :
  drawPolygon ctx [] fillStyle strokeStyle = (Space.TypeError, ctx ++ [beginPath])
  /\ forall first rest,
       let verts := first :: rest in
       let final := List.last verts first in
       drawPolygon ctx verts fillStyle strokeStyle
       = (Space.Normal,
          ctx ++ [beginPath; moveTo (vec2.x first) (vec2.y first)]
              ++ map (fun v => lineTo (vec2.x v) (vec2.y v)) verts
              ++ [lineTo (vec2.x final) (vec2.y final)]
              ++ filling fillStyle ++ stroking strokeStyle).
Proof.
  split; [reflexivity|]. intros first rest verts final.
  subst verts final. unfold drawPolygon. cbv beta iota zeta.
  rewrite strokeWith_app, fillWith_app, foldl_lineTo.
  f_equal. now rewrite <- !app_assoc.
Qed.

Lemma paints_iff (before : list call) (fillStyle strokeStyle : style) :
  fill ∉ before -> stroke ∉ before ->
  let calls := before ++ filling fillStyle ++ stroking strokeStyle in
  (fill ∈ calls <-> given fillStyle = true)
  /\ (stroke ∈ calls <-> given strokeStyle = true).
Proof.
  intros Hf Hs calls. subst calls.
  rewrite !elem_of_app.
  destruct (given fillStyle), (given strokeStyle);
    rewrite ?elem_of_cons, ?elem_of_nil; split; split; intros H;
    try reflexivity; try discriminate; try tauto;
    repeat match goal with
           | H : _ \/ _ |- _ => destruct H
           | H : False |- _ => destruct H
           end; try contradiction; try discriminate.
Qed.

(** X26.  [drawBox], [drawCircle], [drawSegment] and [drawPolygon] only add
    calls to those made on the context before, and among the calls they add
    there is a [fill] exactly when a fill style is given and a [stroke]
    exactly when a stroke style is given. *)
Theorem RendererCanvas_paints_with_style (ctx : context)
    (fillStyle strokeStyle : style) :
  (forall mins maxs, exists calls,
     drawBox ctx mins maxs fillStyle strokeStyle = ctx ++ calls
     /\ (fill ∈ calls <-> given fillStyle = true)
     /\ (stroke ∈ calls <-> given strokeStyle = true))
  /\ (forall center radius angle, exists calls,
        drawCircle ctx center radius angle fillStyle strokeStyle = ctx ++ calls
        /\ (fill ∈ calls <-> given fillStyle = true)
        /\ (stroke ∈ calls <-> given strokeStyle = true))
  /\ (forall a b radius, exists calls,
        drawSegment ctx a b radius fillStyle strokeStyle = ctx ++ calls
        /\ (fill ∈ calls <-> given fillStyle = true)
        /\ (stroke ∈ calls <-> given strokeStyle = true))
  /\ (forall first rest, exists calls,
        drawPolygon ctx (first :: rest) fillStyle strokeStyle
          = (Space.Normal, ctx ++ calls)
        /\ (fill ∈ calls <-> given fillStyle = true)
        /\ (stroke ∈ calls <-> given strokeStyle = true)).
Proof.
  split; [|split; [|split]].
  - intros mins maxs. unfold drawBox. cbv zeta.
    rewrite strokeWith_app, fillWith_app, <- !app_assoc.
    eexists. split; [reflexivity|].
    apply paints_iff; rewrite !elem_of_cons, elem_of_nil; intros H;
      repeat destruct H as [H|H]; try discriminate; contradiction.
  - intros center radius angle. unfold drawCircle. cbv zeta.
    rewrite fillWith_app.
    destruct (given strokeStyle) eqn:Es.
    + rewrite <- !app_assoc. eexists. split; [reflexivity|].
      rewrite !elem_of_app. destruct (given fillStyle);
        rewrite ?elem_of_cons, ?elem_of_nil; split; split; intros H;
        try reflexivity; try tauto;
        repeat match goal with
               | H : _ \/ _ |- _ => destruct H
               | H : False |- _ => destruct H
               end; try contradiction; try discriminate.
    + rewrite <- !app_assoc. eexists. split; [reflexivity|].
      rewrite !elem_of_app. destruct (given fillStyle);
        rewrite ?elem_of_cons, ?elem_of_nil; split; split; intros H;
        try reflexivity; try tauto;
        repeat match goal with
               | H : _ \/ _ |- _ => destruct H
               | H : False |- _ => destruct H
               end; try contradiction; try discriminate.
  - intros a b radius. unfold drawSegment. cbv zeta.
    rewrite strokeWith_app, fillWith_app, <- !app_assoc.
    eexists. split; [reflexivity|].
    apply paints_iff; rewrite !elem_of_cons, elem_of_nil; intros H;
      repeat destruct H as [H|H]; try discriminate; contradiction.
  - intros first rest.
    unfold drawPolygon. cbv beta iota zeta.
    rewrite strokeWith_app, fillWith_app, foldl_lineTo, <- !app_assoc.
    eexists. split; [reflexivity|].
    rewrite !app_assoc, <- app_assoc.
    apply paints_iff; rewrite !elem_of_app, !elem_of_cons, elem_of_nil,
      list_elem_of_fmap; intros H;
      repeat match goal with
             | H : _ \/ _ |- _ => destruct H
             | H : exists _, _ |- _ => destruct H as (? & ? & ?)
             | H : False |- _ => destruct H
             end; try discriminate.
Qed.

End renderer.

(** ** The properties on the example scenes *)

(** Checks of the shape of a registry that run. *)
Section checks.
Context {opaque : Opaque}.

Lemma joints_keyed_check (this : Space) :
  forallb (fun p : N * Joint => N.eqb (Joint.id p.2) p.1)
          (map_to_list (Space.jointHash this)) = true ->
  joints_keyed this.
Proof.
  intros H i joint Hi. rewrite forallb_forall in H.
  apply elem_of_map_to_list, list_elem_of_In in Hi.
  apply N.eqb_eq. exact (H _ Hi).
Qed.

Lemma bodies_keyed_check (this : Space) :
  forallb (fun p : N * Body => N.eqb (Body.id p.2) p.1)
          (map_to_list (Space.bodyHash this)) = true ->
  bodies_keyed this.
Proof.
  intros H i body Hi. rewrite forallb_forall in H.
  apply elem_of_map_to_list, list_elem_of_In in Hi.
  apply N.eqb_eq. exact (H _ Hi).
Qed.

Lemma ropes_check (this : Space) :
  forallb (fun p : N * Joint =>
             match Joint.proto p.2 with Joint.RopeJoint => true | _ => false end)
          (map_to_list (Space.jointHash this)) = true ->
  forall k joint, Space.jointHash this !! k = Some joint ->
                  Joint.proto joint = Joint.RopeJoint.
Proof.
  intros H i joint Hi. rewrite forallb_forall in H.
  apply elem_of_map_to_list, list_elem_of_In in Hi.
  specialize (H _ Hi). cbn in H. now destruct (Joint.proto joint).
Qed.

End checks.

(** The rope of the two roped balls is found by its id. *)
Lemma Space_jointById_registered_witness :
  Space.jointById 0 Demo.roped = Some (Demo.rope 0 0 1 2).
Proof.
  rewrite (Space_jointById_registered 0 Demo.roped); [vm_compute; reflexivity|].
  unfold Demo.roped, Demo.two_balls.
  apply reach_addJoint, reach_addBody, reach_addBody, reach_new.
Defined.

(** Vertex 5 of shape 3. *)
Lemma Space_packId_decodes_witness :
  Z.shiftr (Space.packId 3 5) 16 = 3%Z /\ Z.land (Space.packId 3 5) 65535 = 5%Z.
Proof.
  destruct (Space_packId_decodes 3 5) as (_ & H1 & H2);
    [reflexivity|split; [discriminate|reflexivity]|].
  split; assumption.
Defined.

(** The brittle rope breaks. *)
Lemma Space_breakJoints_removes_witness :
  Space.jointHash (Space.breakJoints 60 Demo.brittle) !! 0%N = None
  /\ Space.numJoints (Space.breakJoints 60 Demo.brittle) = 0%Z.
Proof.
  destruct (Space_breakJoints_removes 60 Demo.brittle) as [Hg Hn].
  { apply joints_keyed_check. vm_compute. reflexivity. }
  split; [rewrite Hg; vm_compute; reflexivity|].
  vm_compute. reflexivity.
Defined.


(** Clearing the two roped balls leaves no body and no joint. *)
Lemma Space_clear_tears_down_witness :
  Space.bodyHash (Space.clear Demo.globals0 Demo.roped).2 = ∅
  /\ Space.jointHash (Space.clear Demo.globals0 Demo.roped).2 !! 0%N = None.
Proof.
  destruct (Space_clear_tears_down Demo.globals0 Demo.roped)
    as (H1 & _ & _ & _ & H5 & _).
  { apply joints_keyed_check. vm_compute. reflexivity. }
  { apply bodies_keyed_check. vm_compute. reflexivity. }
  split; [exact H1|].
  destruct (Space.jointHash (Space.clear Demo.globals0 Demo.roped).2 !! 0%N)
    as [joint|] eqn:E; [|reflexivity].
  exfalso. apply H5 in E as [_ Hfree].
  apply (Hfree 0%N (Space.bodyHash Demo.roped !!! 0%N));
    vm_compute; reflexivity.
Defined.


(** A sleeping ball under gravity stays as it is. *)
Lemma Space_integrate_skips_witness :
  Space.bodyHash (Space.integrateVelocity 1 Demo.sleeper) !! 0%N
    = Some (Body.awake false (Demo.ball 0 0 0))
  /\ Space.bodyHash (Space.integratePosition 1 Demo.sleeper) !! 0%N
     = Some (Body.awake false (Demo.ball 0 0 0)).
Proof.
  apply (Space_integrate_skips 1 Demo.sleeper 0); vm_compute; reflexivity.
Defined.

(** The rope of the two roped balls is still there after a step. *)
Lemma Space_step_keeps_ropes_witness :
  is_Some (Space.jointHash
             (Space.step (1 / 60) 8 3 true true Demo.globals0 Demo.roped).2
           !! 0%N).
Proof.
  destruct (Space_step_keeps_ropes (1 / 60) 8 3 true true Demo.globals0
              Demo.roped) as (_ & H2 & _).
  { apply joints_keyed_check. vm_compute. reflexivity. }
  { apply ropes_check. vm_compute. reflexivity. }
  apply (H2 0%N (Demo.rope 0 0 1 2)); vm_compute; reflexivity.
Defined.

(** Loading a scene of two bodies registers the ids 0 and 1. *)
Lemma Space_create_body_ids_witness :
  let loaded := Space.create Demo.scene_two_bodies Demo.globals0 Space.new in
  Globals.Body_id_counter loaded.2.1 = 2%N
  /\ is_Some (Space.bodyHash loaded.2.2 !! 1%N)
  /\ Space.bodyHash loaded.2.2 !! 2%N = None.
Proof.
  intros loaded.
  destruct (Space_create_body_ids Demo.scene_two_bodies Demo.globals0
              loaded.2.1 Space.new loaded.2.2) as (H1 & H2 & _).
  { intros b. reflexivity. }
  { apply joints_keyed_check. vm_compute. reflexivity. }
  { apply bodies_keyed_check. vm_compute. reflexivity. }
  { vm_compute. reflexivity. }
  split; [exact H2|]. split.
  - apply H1. reflexivity.
  - apply eq_None_not_Some. rewrite H1. intros H. discriminate H.
Defined.

(** Two balls at the length of the rope, the second moving towards the first. *)
Lemma RopeJoint_solveVelocityConstraints_never_pushes_witness :
  let this := Demo.rope 0 0 1 2 in
  let b1 := Demo.ball 0 0 0 in
  let b2 := Body.set_v (Demo.ball 1 2 0) (vec2.mk (-2) 0) in
  let st : Store := <[1%N := b2]> (<[0%N := b1]> ∅) in
  Joint.lambda_acc (RopeJoint.solveVelocityConstraints this st).1 = 0%float.
Proof.
  intros this b1 b2 st.
  apply (RopeJoint_solveVelocityConstraints_never_pushes this st b1 b2);
    try reflexivity.
  vm_compute. discriminate.
Defined.

(** Two balls 1 apart on a rope of length 2. *)
Lemma RopeJoint_solvePositionConstraints_slack_witness :
  let this := Demo.rope 0 0 1 2 in
  let st : Store := <[1%N := Demo.ball 1 1 0]> (<[0%N := Demo.ball 0 0 0]> ∅) in
  (RopeJoint.solvePositionConstraints this st).1 = true.
Proof.
  intros this st.
  apply (RopeJoint_solvePositionConstraints_slack this st
           (Demo.ball 0 0 0) (Demo.ball 1 1 0));
    try reflexivity.
  vm_compute. discriminate.
Defined.


(** The vertices of the two balls: each is found after the other. *)
Lemma Space_findByPoint_cycles_witness :
  let this := Demo.two_balls 0 0 0 0 in
  Space.findVertexByPoint vec2.zero 1 None this = 1%Z
  /\ Space.findVertexByPoint vec2.zero 1 (Some 1%Z) this = 65537%Z
  /\ Space.findVertexByPoint vec2.zero 1 (Some 65537%Z) this = 1%Z.
Proof.
  intros this.
  assert (E : vertexHits vec2.zero 1 this = [1; 65537]%Z)
    by (vm_compute; reflexivity).
  destruct (Space_findByPoint_cycles vec2.zero 1 this) as (Hv & _).
  destruct Hv as (H1 & _ & H3).
  { rewrite E. intros Hin.
    repeat (apply elem_of_cons in Hin as [Hin|Hin]; [discriminate|]).
    now apply elem_of_nil in Hin. }
  split; [|split].
  - rewrite (H1 None) by now left. rewrite E. reflexivity.
  - apply (H3 1%Z [] [65537%Z]); [discriminate|exact E|apply not_elem_of_nil].
  - apply (H3 65537%Z [1%Z] []); [discriminate|exact E|].
    intros Hin. apply elem_of_cons in Hin as [Hin|Hin]; [discriminate|].
    now apply elem_of_nil in Hin.
Defined.
